(** * GaussianCDF: the curve-function plugin of [photons/nlf/user]

    A shallow embedding of the four exported C functions of the Gaussian
    cumulative-distribution plugin ([GetFunctionName], [GetFunctionValue],
    [GetNumParameters], [GetNumVariables]) and the properties of the plugin
    contract proved about them.

    - C [double] is IEEE-754 binary64, modelled by the Standard Library's
      executable specification [SpecFloat] at precision 53 and [emax] 1024,
      every operation of the source rounded once, to nearest-even, as the
      compiler's default floating-point model computes it.
    - Pointers are a block and an element index; memory is a finite map from
      blocks to arrays of cells.  An access outside its block is undefined
      behaviour in C and is an explicit outcome here.
    - [erf] and [strcpy_s] belong to the C library, not to the plugin: [erf]
      is a parameter of the development, [strcpy_s] follows its documented
      contract, and what that contract leaves unspecified is a parameter
      too. *)

From Stdlib Require Import ZArith Bool Ascii String Lia.
From Stdlib Require Import Floats.SpecFloat.
From stdpp Require Import base option list gmap.

Set Default Proof Using "Type".
Local Open Scope Z_scope.

(** ** IEEE-754 binary64 *)

Module B64.

Definition prec : Z := 53.
Definition emax : Z := 1024.

Definition double : Type := spec_float.

Definition add : double -> double -> double := SFadd prec emax.
Definition sub : double -> double -> double := SFsub prec emax.
Definition mul : double -> double -> double := SFmul prec emax.
Definition div : double -> double -> double := SFdiv prec emax.
Definition sqrt : double -> double := SFsqrt prec emax.

(** The double nearest to [m * 2^e]: how a decimal literal of the source
    that is a dyadic number is read. *)
Definition lit (m e : Z) : double := binary_normalize prec emax m e false.

Definition zero : double := S754_zero false.
Definition half : double := lit 1 (-1).
Definition one : double := lit 1 0.
Definition two : double := lit 2 0.

Definition pinf : double := S754_infinity false.
Definition ninf : double := S754_infinity true.
Definition nan : double := S754_nan.

(** The doubles the hardware has: a finite one carries a canonical
    mantissa and exponent. *)
Definition valid (x : double) : bool := valid_binary prec emax x.

Definition is_nan (x : double) : bool :=
  match x with S754_nan => true | _ => false end.

Definition is_zero (x : double) : bool :=
  match x with S754_zero _ => true | _ => false end.

(** Finite in the sense of C's [isfinite]: zero, subnormal or normal. *)
Definition is_finite (x : double) : bool :=
  match x with S754_zero _ | S754_finite _ _ _ => true | _ => false end.

Definition sign (x : double) : bool :=
  match x with
  | S754_zero s | S754_infinity s | S754_finite s _ _ => s
  | S754_nan => false
  end.

(** C's [<=] and [<] on doubles: false as soon as one side is NaN. *)
Definition leb : double -> double -> bool := SFleb.
Definition ltb : double -> double -> bool := SFltb.

Definition max_double : double := SFmax_float prec emax.

End B64.

Abbreviation double := B64.double.

Declare Scope double_scope.
Delimit Scope double_scope with D.
Infix "+" := B64.add : double_scope.
Infix "-" := B64.sub : double_scope.
Infix "*" := B64.mul : double_scope.
Infix "/" := B64.div : double_scope.

(** ** Round to nearest even, on exact values

    What the operations of binary64 compute, stated on integers: the exact
    result of an operation is a non-negative rational [N / D] counted in
    units of [2^-2148], fine enough for every product and quotient of two
    doubles.  [rnd_exp] is the exponent of the grid of doubles around it,
    [rnd_man] the multiple of the grid step nearest to it, ties to even,
    and [encode] the double with that mantissa and exponent.  The
    operations of [B64] are proved equal to [rnd] of their exact result
    below; no definition of the plugin uses [rnd]. *)

Definition RNE (q r P : Z) : Z :=
  match 2 * r ?= P with
  | Lt => q
  | Eq => if Z.even q then q else q + 1
  | Gt => q + 1
  end.

Definition rnd_exp (N D : Z) : Z := Z.max (Z.log2 (N / D) - 52) 1074.

Definition rnd_man (N D : Z) : Z :=
  let P := D * 2 ^ rnd_exp N D in RNE (N / P) (N mod P) P.

Definition encode (s : bool) (m e : Z) : double :=
  if m =? 0 then S754_zero s
  else
    let '(m', e') := if m =? 2 ^ 53 then (2 ^ 52, e + 1) else (m, e) in
    if e' <=? 971 then S754_finite s (Z.to_pos m') e' else S754_infinity s.

Definition rnd (s : bool) (N D : Z) : double :=
  encode s (rnd_man N D) (rnd_exp N D - 2148).

(** In units of [2^-2148]: where overflow begins, [2^1024], and the
    smallest positive double, [2^-1074]. *)
Definition ord_inf : Z := 2 ^ 3172.
Definition ord_min : Z := 2 ^ 1074.

(** The value of a double in units of [2^-2148], the infinities placed
    where overflow begins. *)
Definition ord (x : double) : Z :=
  match x with
  | S754_zero _ | S754_nan => 0
  | S754_finite s m e => cond_Zopp s (Z.pos m * 2 ^ (e + 2148))
  | S754_infinity s => cond_Zopp s ord_inf
  end.

(** The double nearest to the integer [V], counted in units of [2^-2148]:
    what a sum or a difference rounds to. *)
Definition round_int (V : Z) : double :=
  match V with
  | 0 => S754_zero false
  | Z.pos _ => rnd false V 1
  | Z.neg _ => rnd true (- V) 1
  end.

(** The magnitude of [rnd s N D] in units of [2^-2148]. *)
Definition grid (N D : Z) : Z :=
  Z.min (rnd_man N D * 2 ^ rnd_exp N D) ord_inf.

(** 1.0 in units of [2^-2148]. *)
Definition ord_unit : Z := 2 ^ 2148.

(** [grid] on signed values. *)
Definition signed_grid (V D : Z) : Z :=
  cond_Zopp (V <? 0) (grid (Z.abs V) D).

(** A location [l], as the division and square root of [SpecFloat] report
    it, describes a remainder [rem] out of [P]: nothing, less than half,
    half, more than half. *)
Definition locates (l : location) (rem P : Z) : Prop :=
  match l with
  | loc_Exact => rem = 0
  | loc_Inexact c => 0 < rem /\ (2 * rem ?= P) = c
  end.

(** ** Memory *)

Inductive val : Type :=
| Vundef
| Vint (n : Z)
| Vdouble (d : double)
| Vchar (c : ascii).

Definition block : Type := positive.

(** A pointer designates element [i] of the array held by block [b]. *)
Inductive ptr : Type :=
| Null
| Ptr (b : block) (i : nat).

Arguments Ptr b%_positive i%_nat.

#[global] Instance ptr_eq_dec : EqDecision ptr.
Proof. solve_decision. Defined.

Abbreviation mem := (gmap block (list val)).

(** [p + k] of C pointer arithmetic. *)
Definition shift (p : ptr) (k : nat) : ptr :=
  match p with
  | Null => Null
  | Ptr b i => Ptr b (i + k)%nat
  end.

(** The cell [*p], if [p] points inside an allocated block. *)
Definition cell (m : mem) (p : ptr) : option val :=
  match p with
  | Null => None
  | Ptr b i => m !! b ≫= fun cells => cells !! i
  end.

(** Number of elements from [p] to the end of its block. *)
Definition capacity (m : mem) (p : ptr) : nat :=
  match p with
  | Null => 0%nat
  | Ptr b i =>
      match m !! b with
      | Some cells => (length cells - i)%nat
      | None => 0%nat
      end
  end.

(** ** Outcomes of a call *)

Inductive fault : Type :=
| OutOfBounds        (* access outside an allocated object: undefined in C *)
| Indeterminate      (* read of a cell that holds no value of the type read *)
| InvalidParameter.  (* the C library's runtime-constraint handler ran *)

(** [Ret] is the result of a call whose behaviour C defines.  [Stop]
    marks a call for which C defines none, or which the library ends: the
    embedding follows it no further, and says nothing of what compiled
    code does from there on, returning included. *)
Inductive outcome (A : Type) : Type :=
| Ret (a : A)
| Stop (f : fault).

Arguments Ret {A} a.
Arguments Stop {A} f.

#[global] Instance outcome_ret : MRet outcome := fun A a => Ret a.

#[global] Instance outcome_bind : MBind outcome := fun A B k c =>
  match c with
  | Ret a => k a
  | Stop f => Stop f
  end.

Definition load_double (m : mem) (p : ptr) (k : nat) : outcome double :=
  match cell m (shift p k) with
  | None => Stop OutOfBounds
  | Some (Vdouble d) => Ret d
  | Some _ => Stop Indeterminate
  end.

Definition store (m : mem) (p : ptr) (v : val) : outcome mem :=
  match p with
  | Null => Stop OutOfBounds
  | Ptr b i =>
      match m !! b with
      | None => Stop OutOfBounds
      | Some cells =>
          if decide (i < length cells)%nat
          then Ret (<[b := <[i := v]> cells]> m)
          else Stop OutOfBounds
      end
  end.

(** ** The C library *)

Definition NUL : ascii := Ascii.zero.

(** [dest[k], dest[k+1], ... = cs], one store per character. *)
Fixpoint store_chars (m : mem) (dest : ptr) (k : nat) (cs : list ascii) : outcome mem :=
  match cs with
  | [] => Ret m
  | c :: cs' =>
      m' ← store m (shift dest k) (Vchar c);
      store_chars m' dest (S k) cs'
  end.

(** What a library's [strcpy_s] leaves in the elements after the
    terminator, inside the size it was told.  C11 K.3.7.1.3 par. 5 gives
    those elements unspecified values; a library is described here by what
    it stores in element [k]: nothing ([None]) or a character ([Some c]). *)
Definition fill_policy : Type := nat -> option ascii.

(** The release library of the UCRT leaves the elements alone. *)
Definition fill_none : fill_policy := fun _ => None.

(** The debug library of the UCRT stores 0xFE in every one of them. *)
Definition fill_debug : fill_policy := fun _ => Some (ascii_of_nat 254).

(** [dest[k], ..., dest[k+n-1]] as the library's policy has them, one
    store per element it fills. *)
Fixpoint store_fill (fill : fill_policy) (m : mem) (dest : ptr) (k n : nat) : outcome mem :=
  match n with
  | O => Ret m
  | S n' =>
      m' ← match fill k with
           | None => Ret m
           | Some c => store m (shift dest k) (Vchar c)
           end;
      store_fill fill m' dest (S k) n'
  end.

(** Modelled from the C library's documented contract (C11 K.3.7.1.3 and
    the UCRT manual; [strcpy_s] is not a function of this repository).
    [strcpy_s(dest, destsz, src)] copies [src] and its terminator to [dest]
    when [dest] is not null and [destsz] exceeds the length of [src], and
    leaves the rest of the [destsz] elements as the library's policy has
    them; otherwise the invalid-parameter handler runs, which by default
    ends the process.  [destsz] is what the caller declares: the library
    cannot see the real size of [dest]. *)
Definition strcpy_s (fill : fill_policy) (m : mem) (dest : ptr) (destsz : nat)
    (src : string) : outcome mem :=
  match dest with
  | Null => Stop InvalidParameter
  | Ptr _ _ =>
      if decide (String.length src < destsz)%nat
      then
        m' ← store_chars m dest 0 (list_ascii_of_string src ++ [NUL]);
        store_fill fill m' dest (S (String.length src)) (destsz - S (String.length src))
      else Stop InvalidParameter
  end.

(** ** The plugin *)

Definition function_name : string :=
  "f1: GaussianCDF f1=amplitude/2*(1+erf((x-mu)/(sigma*sqrt(2))))+offset".

(** [void GetFunctionName(char* name)] *)
Definition GetFunctionName (fill : fill_policy) (m : mem) (name : ptr) : outcome mem :=
  strcpy_s fill m name 255 function_name.

(** [void GetNumParameters(int* n)] *)
Definition GetNumParameters (m : mem) (n : ptr) : outcome mem :=
  store m n (Vint 4).

(** [void GetNumVariables(int* n)] *)
Definition GetNumVariables (m : mem) (n : ptr) : outcome mem :=
  store m n (Vint 1).

Section WithErf.

(** [erf] of [<math.h>]. *)
Variable erf : double -> double.

(** The right-hand side of the assignment in [GetFunctionValue], with the
    parentheses C gives it. *)
Definition gaussian_cdf (x0 a0 a1 a2 a3 : double) : double :=
  (B64.half * a0 * (B64.one + erf ((x0 - a1) / (a2 * B64.sqrt B64.two))) + a3)%D.

(** [void GetFunctionValue(double* x, double* a, double* y)] *)
Definition GetFunctionValue (m : mem) (x a y : ptr) : outcome mem :=
  a0 ← load_double m a 0;
  x0 ← load_double m x 0;
  a1 ← load_double m a 1;
  a2 ← load_double m a 2;
  a3 ← load_double m a 3;
  store m y (Vdouble (gaussian_cdf x0 a0 a1 a2 a3)).

End WithErf.

(** ** A host session: the exported functions called one after another *)

Inductive call : Type :=
| CallGetFunctionName (name : ptr)
| CallGetFunctionValue (x a y : ptr)
| CallGetNumParameters (n : ptr)
| CallGetNumVariables (n : ptr).

Definition do_call (erf : double -> double) (fill : fill_policy) (m : mem) (c : call) :
    outcome mem :=
  match c with
  | CallGetFunctionName name => GetFunctionName fill m name
  | CallGetFunctionValue x a y => GetFunctionValue erf m x a y
  | CallGetNumParameters n => GetNumParameters m n
  | CallGetNumVariables n => GetNumVariables m n
  end.

Fixpoint run (erf : double -> double) (fill : fill_policy) (m : mem) (cs : list call) :
    outcome mem :=
  match cs with
  | [] => Ret m
  | c :: cs' => m' ← do_call erf fill m c; run erf fill m' cs'
  end.

(** ** Vocabulary of the contract *)

(** The array at [p] starts with the doubles [ds]. *)
Definition reads_doubles (m : mem) (p : ptr) (ds : list double) : Prop :=
  forall k d, ds !! k = Some d -> cell m (shift p k) = Some (Vdouble d).

(** The array at [p] is exactly the doubles [ds]: that many elements and
    no more. *)
Definition holds_doubles (m : mem) (p : ptr) (ds : list double) : Prop :=
  capacity m p = length ds /\ reads_doubles m p ds.

(** [m'] differs from [m] at most in the cells [W]: the same blocks, of the
    same sizes, with the same contents elsewhere. *)
Definition same_except (W : list ptr) (m m' : mem) : Prop :=
  dom m' = dom m /\
  (forall q, capacity m' q = capacity m q) /\
  (forall q, q ∉ W -> cell m' q = cell m q).

(** The cells [p[0]], ..., [p[n-1]]. *)
Definition span (p : ptr) (n : nat) : list ptr :=
  shift p <$> seq 0 n.

(** The C string that starts at the head of [cells]: its characters up to
    the first terminator, if there is one. *)
Fixpoint cstring_of (cells : list val) : option string :=
  match cells with
  | Vchar c :: rest =>
      if Ascii.eqb c NUL then Some EmptyString
      else String c <$> cstring_of rest
  | _ => None
  end.

Definition c_string (m : mem) (p : ptr) : option string :=
  match p with
  | Null => None
  | Ptr b i => m !! b ≫= fun cells => cstring_of (drop i cells)
  end.

(** The pattern [^f\d+:.*] of the naming convention, the number being
    positive. *)
Definition is_digit (c : ascii) : bool :=
  ((48 <=? N_of_ascii c) && (N_of_ascii c <=? 57))%N.

Fixpoint leading_digits (s : string) : list ascii * string :=
  match s with
  | String c s' =>
      if is_digit c
      then let (ds, rest) := leading_digits s' in (c :: ds, rest)
      else ([], s)
  | EmptyString => ([], s)
  end.

Definition decimal (ds : list ascii) : N :=
  fold_left (fun n c => 10 * n + (N_of_ascii c - 48))%N ds 0%N.

Definition name_matches (s : string) : bool :=
  match s with
  | String "f" s' =>
      match leading_digits s' with
      | (ds, String ":" _) => negb (decimal ds =? 0)%N
      | _ => false
      end
  | _ => false
  end.

(** ** What the C standard fixes of [erf] (Annex F.10.8.1 and F.10 par. 11) *)

Record erf_contract (erf : double -> double) : Prop := {
  erf_zero : forall s, erf (S754_zero s) = S754_zero s;
  erf_inf : forall s, erf (S754_infinity s) = S754_finite s 4503599627370496 (-52);
  erf_nan : erf S754_nan = S754_nan
}.

(** What monotonicity of the plugin needs of [erf] and no standard
    promises of a libm: that it returns doubles of the format and never
    decreases.  ([B64.leb] holds of no NaN, so such an [erf] takes no
    number to NaN.) *)
Record erf_monotone (erf : double -> double) : Prop := {
  erf_valid : forall x, B64.valid x = true -> B64.valid (erf x) = true;
  erf_mono : forall x y,
    B64.valid x = true -> B64.valid y = true ->
    B64.leb x y = true -> B64.leb (erf x) (erf y) = true
}.

(** The range of [erf]: within [-1, 1] on numbers. *)
Record erf_bounded (erf : double -> double) : Prop := {
  erf_upper : forall x,
    B64.valid x = true -> B64.is_nan x = false -> B64.leb (erf x) B64.one = true;
  erf_lower : forall x,
    B64.valid x = true -> B64.is_nan x = false ->
    B64.leb (SFopp B64.one) (erf x) = true
}.

(** The coarsest function that meets the contract: the sign of its
    argument.  It stands for no libm; it shows the contract is consistent
    and instantiates the development at concrete inputs. *)
Definition erf_sign (x : double) : double :=
  match x with
  | S754_zero s => S754_zero s
  | S754_nan => S754_nan
  | S754_infinity s | S754_finite s _ _ => S754_finite s 4503599627370496 (-52)
  end.

(** A finite double of the format: what the specification calls a finite
    parameter or variable. *)
Definition finite_double (v : double) : Prop :=
  B64.valid v = true /\ B64.is_finite v = true.

(** ** A host memory for concrete runs

    Block 1 is the variable array [x = [0.0]], block 2 the parameter array
    [a = [2.0, 0.0, 1.0, 1.0]], block 3 an uninitialised [double] for [y],
    block 4 an uninitialised [int], block 5 the 255-byte name buffer. *)
Definition host_mem : mem :=
  {[ 1%positive := [Vdouble B64.zero];
     2%positive := [Vdouble B64.two; Vdouble B64.zero; Vdouble B64.one; Vdouble B64.one];
     3%positive := [Vundef];
     4%positive := [Vundef];
     5%positive := replicate 255 Vundef ]}.

(** Another host memory: the same [x[0]] and [a[0..3]] in longer arrays
    with other contents behind them, at other addresses. *)
Definition host_mem_long : mem :=
  {[ 7%positive := [Vint 9; Vdouble B64.zero; Vdouble B64.pinf];
     8%positive := [Vdouble B64.two; Vdouble B64.zero; Vdouble B64.one; Vdouble B64.one;
                    Vdouble B64.nan];
     9%positive := [Vdouble B64.one; Vundef] ]}.

(** A host that hands over name buffers shorter than the 255 bytes of the
    convention: block 5 has 10 bytes, block 6 has 100. *)
Definition host_mem_small : mem :=
  {[ 5%positive := replicate 10 Vundef;
     6%positive := replicate 100 Vundef ]}.

(** The degenerate scenario: [x = [1.0]], [a = [2.0, 0.0, 0.0, 1.0]], a
    sigma of zero. *)
Definition host_mem_sigma0 : mem :=
  {[ 1%positive := [Vdouble B64.one];
     2%positive := [Vdouble B64.two; Vdouble B64.zero; Vdouble B64.zero; Vdouble B64.one];
     3%positive := [Vundef] ]}.

(** An infinite [mu], and [x = mu]: [x = [+inf]], [a = [2.0, +inf, 1.0, 1.0]]. *)
Definition host_mem_inf : mem :=
  {[ 1%positive := [Vdouble B64.pinf];
     2%positive := [Vdouble B64.two; Vdouble B64.pinf; Vdouble B64.one; Vdouble B64.one];
     3%positive := [Vundef] ]}.

(** Overflow in both the numerator and the divisor: [x = [DBL_MAX, 0.0]],
    [a = [2.0, -DBL_MAX, DBL_MAX, 1.0]]. *)
Definition host_mem_big : mem :=
  {[ 1%positive := [Vdouble B64.max_double; Vdouble B64.zero];
     2%positive := [Vdouble B64.two; Vdouble (SFopp B64.max_double);
                    Vdouble B64.max_double; Vdouble B64.one];
     3%positive := [Vundef; Vundef] ]}.

(** The second concrete scenario of the specification: [x = [1.0]],
    [a = [2.0, 0.0, 1.0, 1.0]]. *)
Definition host_mem_x1 : mem :=
  {[ 1%positive := [Vdouble B64.one];
     2%positive := [Vdouble B64.two; Vdouble B64.zero; Vdouble B64.one; Vdouble B64.one];
     3%positive := [Vundef] ]}.

(** ** Footprints of the calls *)

(** The cells a call may write: [*y], [*n], or the 255 bytes
    [GetFunctionName] declares to [strcpy_s]. *)
Definition writes (c : call) : list ptr :=
  match c with
  | CallGetFunctionName name => span name 255
  | CallGetFunctionValue _ _ y => [y]
  | CallGetNumParameters n | CallGetNumVariables n => [n]
  end.

(** The cells a call reads: [x[0]] and [a[0..3]] for [GetFunctionValue],
    none for the others. *)
Definition reads (c : call) : list ptr :=
  match c with
  | CallGetFunctionValue x a _ => span x 1 ++ span a 4
  | _ => []
  end.

(** The cells a session may write. *)
Definition footprint (cs : list call) : list ptr :=
  cs ≫= writes.

(** Two runs of the same stores, from [m1] to [m1'] and from [m2] to
    [m2']: a cell holds the same in both results, or is in both what it
    was. *)
Definition in_step (m1 m2 m1' m2' : mem) : Prop :=
  (forall q, capacity m2' q = capacity m1' q) /\
  (forall q,
     cell m2' q = cell m1' q \/
     cell m1' q = cell m1 q /\ cell m2' q = cell m2 q).

(** [2^-1021], twice the smallest normal double: from here up, half of a
    double is a normal double. *)
Definition twice_min_normal : double := B64.lit 1 (-1021).

(** A step of infinite width: [x = [1.0]], [a = [2.0, 0.0, +inf, 1.0]]. *)
Definition host_mem_flat : mem :=
  {[ 1%positive := [Vdouble B64.one];
     2%positive := [Vdouble B64.two; Vdouble B64.zero; Vdouble B64.pinf; Vdouble B64.one];
     3%positive := [Vundef] ]}.

(** A falling step, evaluated at two points: [x = [0.0, 1.0]],
    [a = [-2.0, 0.0, 1.0, 1.0]]. *)
Definition host_mem_falling : mem :=
  {[ 1%positive := [Vdouble B64.zero; Vdouble B64.one];
     2%positive := [Vdouble (SFopp B64.two); Vdouble B64.zero; Vdouble B64.one;
                    Vdouble B64.one];
     3%positive := [Vundef; Vundef] ]}.
Example half_is : B64.half = S754_finite false 4503599627370496 (-53).
Proof. reflexivity. Qed.

Example one_is : B64.one = S754_finite false 4503599627370496 (-52).
Proof. reflexivity. Qed.

Example sqrt2_is : B64.sqrt B64.two = S754_finite false 6369051672525773 (-52).
Proof. vm_compute. reflexivity. Qed.

Example name_length : String.length function_name = 69%nat.
Proof. reflexivity. Qed.

(** ** Memory: what a store changes and what it leaves *)

Lemma cell_Some_capacity (m : mem) (p : ptr) :
  is_Some (cell m p) <-> (0 < capacity m p)%nat.
Proof.
  destruct p as [|b i]; simpl.
  - split; [intros [v Hv]; discriminate | lia].
  - destruct (m !! b) as [cells|]; simpl.
    + rewrite lookup_lt_is_Some. lia.
    + split; [intros [v Hv]; discriminate | lia].
Qed.

Lemma capacity_shift (m : mem) (p : ptr) (k : nat) :
  capacity m (shift p k) = (capacity m p - k)%nat.
Proof.
  destruct p as [|b i]; simpl; [reflexivity|].
  destruct (m !! b); lia.
Qed.

Lemma cell_shift_Some (m : mem) (p : ptr) (k : nat) :
  is_Some (cell m (shift p k)) <-> (k < capacity m p)%nat.
Proof. rewrite cell_Some_capacity, capacity_shift. lia. Qed.

Lemma store_ok (m : mem) (p : ptr) (v : val) :
  is_Some (cell m p) -> exists m', store m p v = Ret m'.
Proof.
  destruct p as [|b i]; simpl; intros [w Hw]; [discriminate|].
  destruct (m !! b) as [cells|]; simpl in Hw; [|discriminate].
  apply lookup_lt_Some in Hw.
  destruct (decide (i < length cells)%nat); [eauto | lia].
Qed.

Lemma store_oob (m : mem) (p : ptr) (v : val) :
  cell m p = None -> store m p v = Stop OutOfBounds.
Proof.
  destruct p as [|b i]; simpl; [reflexivity|].
  destruct (m !! b) as [cells|]; simpl; [|reflexivity].
  intros Hnone. apply lookup_ge_None in Hnone.
  destruct (decide (i < length cells)%nat); [lia | reflexivity].
Qed.

Lemma store_cell_eq (m m' : mem) (p : ptr) (v : val) :
  store m p v = Ret m' -> cell m' p = Some v.
Proof.
  destruct p as [|b i]; simpl; [discriminate|].
  destruct (m !! b) as [cells|] eqn:Hb; [|discriminate].
  destruct (decide (i < length cells)%nat); [|discriminate].
  intros [= <-]. rewrite lookup_insert_eq. simpl.
  by apply list_lookup_insert_eq.
Qed.

Lemma store_cell_ne (m m' : mem) (p q : ptr) (v : val) :
  store m p v = Ret m' -> q <> p -> cell m' q = cell m q.
Proof.
  destruct p as [|b i]; simpl; [discriminate|].
  destruct (m !! b) as [cells|] eqn:Hb; [|discriminate].
  destruct (decide (i < length cells)%nat); [|discriminate].
  intros [= <-] Hne. destruct q as [|b' j]; simpl; [reflexivity|].
  destruct (decide (b = b')) as [<-|Hbb].
  - rewrite lookup_insert_eq, Hb. simpl.
    apply list_lookup_insert_ne. congruence.
  - by rewrite lookup_insert_ne.
Qed.

Lemma store_capacity (m m' : mem) (p q : ptr) (v : val) :
  store m p v = Ret m' -> capacity m' q = capacity m q.
Proof.
  destruct p as [|b i]; simpl; [discriminate|].
  destruct (m !! b) as [cells|] eqn:Hb; [|discriminate].
  destruct (decide (i < length cells)%nat); [|discriminate].
  intros [= <-]. destruct q as [|b' j]; simpl; [reflexivity|].
  destruct (decide (b = b')) as [<-|Hbb].
  - by rewrite lookup_insert_eq, Hb, length_insert.
  - by rewrite lookup_insert_ne.
Qed.

(** The blocks that exist are the same before and after a store. *)
Lemma store_dom (m m' : mem) (p : ptr) (v : val) :
  store m p v = Ret m' -> dom m' = dom m.
Proof.
  destruct p as [|b i]; simpl; [discriminate|].
  destruct (m !! b) as [cells|] eqn:Hb; [|discriminate].
  destruct (decide (i < length cells)%nat); [|discriminate].
  intros [= <-]. rewrite dom_insert_L.
  apply set_eq. intros b'. rewrite elem_of_union, elem_of_singleton.
  split; [intros [->|]; [apply elem_of_dom; eauto | done] | by right].
Qed.

Lemma erf_sign_contract : erf_contract erf_sign.
Proof. by split. Qed.

(** ** The loads and the store of [GetFunctionValue] *)

Lemma load_double_Ret (m : mem) (p : ptr) (k : nat) (d : double) :
  load_double m p k = Ret d <-> cell m (shift p k) = Some (Vdouble d).
Proof.
  unfold load_double. destruct (cell m (shift p k)) as [[| | |]|]; split; congruence.
Qed.

Lemma reads_doubles_load (m : mem) (p : ptr) (ds : list double) (k : nat) (d : double) :
  reads_doubles m p ds -> ds !! k = Some d -> load_double m p k = Ret d.
Proof. intros Hr Hk. apply load_double_Ret. by apply Hr. Qed.

(** The call has a result exactly when its five loads find doubles and
    its store a cell, and the result is the memory with the value of the
    formula stored. *)
Lemma GetFunctionValue_Ret (erf : double -> double) (m m' : mem) (x a y : ptr) :
  GetFunctionValue erf m x a y = Ret m' <->
  exists x0 a0 a1 a2 a3,
    reads_doubles m x [x0] /\ reads_doubles m a [a0; a1; a2; a3] /\
    store m y (Vdouble (gaussian_cdf erf x0 a0 a1 a2 a3)) = Ret m'.
Proof.
  unfold GetFunctionValue. split.
  - destruct (load_double m a 0) as [a0|] eqn:H0; [|discriminate].
    destruct (load_double m x 0) as [x0|] eqn:Hx; [|discriminate].
    destruct (load_double m a 1) as [a1|] eqn:H1; [|discriminate].
    destruct (load_double m a 2) as [a2|] eqn:H2; [|discriminate].
    destruct (load_double m a 3) as [a3|] eqn:H3; [|discriminate].
    simpl. intros Hst. exists x0, a0, a1, a2, a3.
    apply load_double_Ret in H0, Hx, H1, H2, H3.
    split; [|split; [|exact Hst]].
    + intros [|k] d; simpl; [congruence | discriminate].
    + intros [|[|[|[|k]]]] d; simpl; try congruence. discriminate.
  - intros (x0 & a0 & a1 & a2 & a3 & Hx & Ha & Hst).
    rewrite (reads_doubles_load m a _ 0 a0 Ha eq_refl).
    rewrite (reads_doubles_load m x _ 0 x0 Hx eq_refl).
    rewrite (reads_doubles_load m a _ 1 a1 Ha eq_refl).
    rewrite (reads_doubles_load m a _ 2 a2 Ha eq_refl).
    rewrite (reads_doubles_load m a _ 3 a3 Ha eq_refl).
    exact Hst.
Qed.

(** With [x[0]] and [a[0..3]] readable and [y] pointing to a cell, the call
    returns and [*y] holds the value of the formula. *)
Lemma GetFunctionValue_formula_core (erf : double -> double) (m : mem) (x a y : ptr)
    (x0 a0 a1 a2 a3 : double) :
  reads_doubles m x [x0] ->
  reads_doubles m a [a0; a1; a2; a3] ->
  is_Some (cell m y) ->
  exists m',
    GetFunctionValue erf m x a y = Ret m' /\
    cell m' y = Some (Vdouble (gaussian_cdf erf x0 a0 a1 a2 a3)).
Proof.
  intros Hx Ha Hy.
  destruct (store_ok m y (Vdouble (gaussian_cdf erf x0 a0 a1 a2 a3)) Hy) as [m' Hst].
  exists m'. split.
  - apply GetFunctionValue_Ret. by exists x0, a0, a1, a2, a3.
  - by apply store_cell_eq in Hst.
Qed.

(** C1.  When [x] holds exactly one double and [a] exactly four, and [y]
    points to a cell, [GetFunctionValue] returns and the cell [*y] then
    holds [0.5 * a[0] * (1 + erf((x[0]-a[1]) / (a[2]*sqrt(2)))) + a[3]],
    computed from the values the arrays held at the call. *)
Theorem GetFunctionValue_formula (erf : double -> double) (m : mem) (x a y : ptr)
    (x0 a0 a1 a2 a3 : double) :
  holds_doubles m x [x0] ->
  holds_doubles m a [a0; a1; a2; a3] ->
  is_Some (cell m y) ->
  exists m',
    GetFunctionValue erf m x a y = Ret m' /\
    cell m' y =
      Some (Vdouble
        (B64.half * a0 * (B64.one + erf ((x0 - a1) / (a2 * B64.sqrt B64.two))) + a3)%D).
Proof.
  intros [_ Hx] [_ Ha] Hy. by apply GetFunctionValue_formula_core.
Qed.

Lemma GetFunctionValue_formula_witness :
  exists m',
    GetFunctionValue erf_sign host_mem (Ptr 1 0) (Ptr 2 0) (Ptr 3 0) = Ret m' /\
    cell m' (Ptr 3 0) =
      Some (Vdouble
        (B64.half * B64.two *
           (B64.one + erf_sign ((B64.zero - B64.zero) / (B64.one * B64.sqrt B64.two)))
         + B64.one)%D).
Proof.
  apply (GetFunctionValue_formula erf_sign host_mem (Ptr 1 0) (Ptr 2 0) (Ptr 3 0)).
  - split; [reflexivity|]. intros [|k] d; simpl; [|discriminate].
    intros [= <-]. reflexivity.
  - split; [reflexivity|]. intros [|[|[|[|k]]]] d; simpl; try discriminate;
      intros [= <-]; reflexivity.
  - vm_compute. eauto.
Defined.

(** ** The two constant queries *)

Lemma GetNumParameters_writes (m : mem) (n : ptr) :
  is_Some (cell m n) ->
  exists m', GetNumParameters m n = Ret m' /\ cell m' n = Some (Vint 4).
Proof.
  intros Hn. destruct (store_ok m n (Vint 4) Hn) as [m' Hst].
  exists m'. split; [exact Hst | by apply store_cell_eq in Hst].
Qed.

Lemma GetNumVariables_writes (m : mem) (n : ptr) :
  is_Some (cell m n) ->
  exists m', GetNumVariables m n = Ret m' /\ cell m' n = Some (Vint 1).
Proof.
  intros Hn. destruct (store_ok m n (Vint 1) Hn) as [m' Hst].
  exists m'. split; [exact Hst | by apply store_cell_eq in Hst].
Qed.

(** C2.  In whatever memory a session of earlier calls of the plugin has
    left, [GetNumParameters] stores 4 and [GetNumVariables] stores 1
    through a pointer to a cell: the history of calls, the C library in use
    and the contents of memory have no influence. *)
Theorem GetNum_constant (erf : double -> double) (fill : fill_policy)
    (history : list call) (m0 m : mem) (n : ptr) :
  run erf fill m0 history = Ret m ->
  is_Some (cell m n) ->
  (exists m', GetNumParameters m n = Ret m' /\ cell m' n = Some (Vint 4)) /\
  (exists m', GetNumVariables m n = Ret m' /\ cell m' n = Some (Vint 1)).
Proof.
  intros _ Hn. split.
  - by apply GetNumParameters_writes.
  - by apply GetNumVariables_writes.
Qed.

Lemma GetNum_constant_witness :
  exists m,
    run erf_sign fill_debug host_mem
      [CallGetNumVariables (Ptr 4 0);
       CallGetFunctionValue (Ptr 1 0) (Ptr 2 0) (Ptr 3 0);
       CallGetNumParameters (Ptr 4 0)] = Ret m /\
    (exists m', GetNumParameters m (Ptr 4 0) = Ret m' /\ cell m' (Ptr 4 0) = Some (Vint 4)) /\
    (exists m', GetNumVariables m (Ptr 4 0) = Ret m' /\ cell m' (Ptr 4 0) = Some (Vint 1)).
Proof.
  eexists. split; [vm_compute; reflexivity|].
  eapply (GetNum_constant erf_sign fill_debug
            [CallGetNumVariables (Ptr 4 0);
             CallGetFunctionValue (Ptr 1 0) (Ptr 2 0) (Ptr 3 0);
             CallGetNumParameters (Ptr 4 0)] host_mem).
  - vm_compute. reflexivity.
  - vm_compute. eauto.
Defined.

(** ** Frame of a store *)

Lemma store_same_except (m m' : mem) (p : ptr) (v : val) :
  store m p v = Ret m' -> same_except [p] m m'.
Proof.
  intros Hst. split; [|split].
  - by eapply store_dom.
  - intros q. by eapply store_capacity.
  - intros q Hq. eapply store_cell_ne; [exact Hst|].
    intros ->. apply Hq. by left.
Qed.

Lemma same_except_refl (W : list ptr) (m : mem) : same_except W m m.
Proof. by split; [|split]. Qed.

Lemma same_except_trans (W1 W2 : list ptr) (m1 m2 m3 : mem) :
  same_except W1 m1 m2 -> same_except W2 m2 m3 -> same_except (W1 ++ W2) m1 m3.
Proof.
  intros (Hd1 & Hc1 & Hf1) (Hd2 & Hc2 & Hf2). split; [|split].
  - congruence.
  - intros q. by rewrite Hc2.
  - intros q Hq. rewrite Hf2, Hf1; [done | |];
      intros Hin; apply Hq, elem_of_app; tauto.
Qed.

(** ** Which inputs the value depends on *)

Lemma reads_doubles_agree (m1 m2 : mem) (p1 p2 : ptr) (ds : list double) :
  (forall k, (k < length ds)%nat -> cell m2 (shift p2 k) = cell m1 (shift p1 k)) ->
  reads_doubles m1 p1 ds -> reads_doubles m2 p2 ds.
Proof.
  intros Hag Hr k d Hk. rewrite Hag; [by apply Hr|].
  by eapply lookup_lt_Some.
Qed.

(** C9.  Two calls, in any two memories and through any pointers, whose
    variable arrays agree at index 0 and whose parameter arrays agree at
    indices 0 to 3: when the first returns and the second has a cell to
    write to, the second returns too and both have stored the same value.
    Nothing else in either memory, in particular no element past [x[0]] or
    [a[3]], has a say. *)
Theorem GetFunctionValue_depends_only_on_inputs (erf : double -> double)
    (m1 m2 m1' : mem) (x1 a1 y1 x2 a2 y2 : ptr) :
  cell m2 (shift x2 0) = cell m1 (shift x1 0) ->
  (forall k, (k < 4)%nat -> cell m2 (shift a2 k) = cell m1 (shift a1 k)) ->
  GetFunctionValue erf m1 x1 a1 y1 = Ret m1' ->
  is_Some (cell m2 y2) ->
  exists m2',
    GetFunctionValue erf m2 x2 a2 y2 = Ret m2' /\
    cell m2' y2 = cell m1' y1.
Proof.
  intros Hx Ha Hcall Hy2.
  apply GetFunctionValue_Ret in Hcall as (x0 & a0 & b1 & b2 & b3 & Hrx & Hra & Hst).
  destruct (store_ok m2 y2 (Vdouble (gaussian_cdf erf x0 a0 b1 b2 b3)) Hy2) as [m2' Hst2].
  exists m2'. split.
  - apply GetFunctionValue_Ret. exists x0, a0, b1, b2, b3.
    split; [|split; [|exact Hst2]].
    + eapply reads_doubles_agree; [|exact Hrx].
      intros [|k] Hk; [exact Hx | simpl in Hk; lia].
    + eapply reads_doubles_agree; [|exact Hra]. exact Ha.
  - apply store_cell_eq in Hst, Hst2. congruence.
Qed.

Lemma GetFunctionValue_depends_only_on_inputs_witness :
  exists m1' m2',
    GetFunctionValue erf_sign host_mem (Ptr 1 0) (Ptr 2 0) (Ptr 3 0) = Ret m1' /\
    GetFunctionValue erf_sign host_mem_long (Ptr 7 1) (Ptr 8 0) (Ptr 9 1) = Ret m2' /\
    cell m2' (Ptr 9 1) = cell m1' (Ptr 3 0).
Proof.
  destruct (GetFunctionValue_formula_core erf_sign host_mem (Ptr 1 0) (Ptr 2 0) (Ptr 3 0)
              B64.zero B64.two B64.zero B64.one B64.one) as (m1' & Hret1 & _).
  - intros [|k] d; simpl; [|discriminate]. intros [= <-]. reflexivity.
  - intros [|[|[|[|k]]]] d; simpl; try discriminate; intros [= <-]; reflexivity.
  - vm_compute. eauto.
  - destruct (GetFunctionValue_depends_only_on_inputs erf_sign host_mem host_mem_long m1'
                (Ptr 1 0) (Ptr 2 0) (Ptr 3 0) (Ptr 7 1) (Ptr 8 0) (Ptr 9 1))
      as (m2' & Hret2 & Hsame).
    + reflexivity.
    + intros [|[|[|[|k]]]] Hk; try reflexivity. lia.
    + exact Hret1.
    + vm_compute. eauto.
    + exists m1', m2'. split; [exact Hret1|]. split; [exact Hret2 | exact Hsame].
Defined.

(** ** What the calls leave unchanged *)

Lemma GetFunctionValue_same_except (erf : double -> double) (m m' : mem) (x a y : ptr) :
  GetFunctionValue erf m x a y = Ret m' -> same_except [y] m m'.
Proof.
  intros Hcall.
  apply GetFunctionValue_Ret in Hcall as (x0 & a0 & a1 & a2 & a3 & _ & _ & Hst).
  by eapply store_same_except.
Qed.

(** ** [strcpy_s] and the name *)

Lemma shift_inj (b : block) (i j k : nat) :
  shift (Ptr b i) j = shift (Ptr b i) k -> j = k.
Proof. simpl. intros [= H]. lia. Qed.

Lemma not_in_span_later (b : block) (i k n : nat) :
  shift (Ptr b i) k ∉ shift (Ptr b i) <$> seq (S k) n.
Proof.
  intros Hin. apply list_elem_of_fmap in Hin as (j & Heq & Hj).
  apply shift_inj in Heq. subst j. apply elem_of_seq in Hj. lia.
Qed.

(** With room for them the characters are all stored, each where it
    belongs, and nothing else is touched. *)
Lemma store_chars_ok (cs : list ascii) (m : mem) (b : block) (i k : nat) :
  (k + length cs <= capacity m (Ptr b i))%nat ->
  exists m',
    store_chars m (Ptr b i) k cs = Ret m' /\
    (forall j c, cs !! j = Some c -> cell m' (shift (Ptr b i) (k + j)) = Some (Vchar c)) /\
    same_except (shift (Ptr b i) <$> seq k (length cs)) m m'.
Proof.
  revert m k. induction cs as [|c cs IH]; intros m k Hcap.
  - exists m. split; [reflexivity|]. split; [intros j c; discriminate|].
    apply same_except_refl.
  - cbn [length] in Hcap. cbn [store_chars].
    assert (is_Some (cell m (shift (Ptr b i) k))) as Hk
      by (apply cell_shift_Some; lia).
    destruct (store_ok m _ (Vchar c) Hk) as [m1 Hst]. rewrite Hst. simpl.
    destruct (IH m1 (S k)) as (m' & Hrun & Hcells & Hframe).
    { rewrite (store_capacity _ _ _ _ _ Hst). lia. }
    exists m'. split; [exact Hrun|]. split.
    + intros [|j] d Hj.
      * simpl in Hj. injection Hj as <-. rewrite Nat.add_0_r.
        destruct Hframe as (_ & _ & Hf).
        transitivity (cell m1 (shift (Ptr b i) k));
          [apply (Hf (shift (Ptr b i) k)), not_in_span_later | by eapply store_cell_eq].
      * replace (k + S j)%nat with (S k + j)%nat by lia. by apply Hcells.
    + apply (same_except_trans [shift (Ptr b i) k] _ m m1 m');
        [by eapply store_same_except | exact Hframe].
Qed.

(** Without room the copy runs past the end of the buffer. *)
Lemma store_chars_oob (cs : list ascii) (m : mem) (p : ptr) (k : nat) :
  cs <> [] ->
  (capacity m p < k + length cs)%nat ->
  store_chars m p k cs = Stop OutOfBounds.
Proof.
  revert m k. induction cs as [|c cs IH]; intros m k Hne Hcap; [done|].
  cbn [store_chars].
  destruct (cell m (shift p k)) as [v|] eqn:Hc.
  - destruct (store_ok m (shift p k) (Vchar c)) as [m1 Hst]; [eauto|].
    rewrite Hst. simpl.
    assert (k < capacity m p)%nat as Hk by (apply cell_shift_Some; eauto).
    apply IH.
    + destruct cs; [simpl in Hcap; lia | done].
    + rewrite (store_capacity _ _ _ _ _ Hst). simpl in Hcap. lia.
  - by rewrite (store_oob _ _ _ Hc).
Qed.

Lemma cstring_of_chars (s : string) (cells : list val) :
  (forall j c, (list_ascii_of_string s ++ [NUL]) !! j = Some c ->
               cells !! j = Some (Vchar c)) ->
  forallb (fun c => negb (Ascii.eqb c NUL)) (list_ascii_of_string s) = true ->
  cstring_of cells = Some s.
Proof.
  revert cells. induction s as [|c s IH]; intros cells Hcells Hnz.
  - specialize (Hcells 0%nat NUL eq_refl).
    destruct cells as [|v cells]; [discriminate|].
    simpl in Hcells. injection Hcells as ->. reflexivity.
  - simpl in Hnz. apply andb_prop in Hnz as [Hc Hnz].
    pose proof (Hcells 0%nat c eq_refl) as H0.
    destruct cells as [|v cells]; [discriminate|].
    simpl in H0. injection H0 as ->. simpl.
    destruct (Ascii.eqb c NUL); [discriminate|].
    rewrite (IH cells); [reflexivity | | exact Hnz].
    intros j d Hj. exact (Hcells (S j) d Hj).
Qed.

Lemma function_name_no_NUL :
  forallb (fun c => negb (Ascii.eqb c NUL)) (list_ascii_of_string function_name) = true.
Proof. reflexivity. Qed.

Lemma length_list_ascii_of_string (s : string) :
  length (list_ascii_of_string s) = String.length s.
Proof. induction s as [|c s IH]; simpl; congruence. Qed.

Lemma elem_of_span (p : ptr) (n : nat) (q : ptr) :
  q ∈ span p n <-> exists j, q = shift p j /\ (j < n)%nat.
Proof.
  unfold span. rewrite list_elem_of_fmap. split.
  - intros (j & -> & Hj). apply elem_of_seq in Hj. exists j. split; [done | lia].
  - intros (j & -> & Hj). exists j. split; [done|]. apply elem_of_seq. lia.
Qed.

Lemma same_except_mono (W W' : list ptr) (m m' : mem) :
  (forall q, q ∈ W -> q ∈ W') -> same_except W m m' -> same_except W' m m'.
Proof.
  intros Hsub (Hd & Hc & Hf). split; [done|]. split; [done|].
  intros q Hq. apply Hf. intros Hin. apply Hq. by apply Hsub.
Qed.

(** With room for the elements the library fills, the fill is stored and
    nothing else is touched. *)
Lemma store_fill_ok (fill : fill_policy) (n : nat) (m : mem) (b : block) (i k : nat) :
  (forall j, (k <= j < k + n)%nat -> fill j <> None -> (j < capacity m (Ptr b i))%nat) ->
  exists m',
    store_fill fill m (Ptr b i) k n = Ret m' /\
    same_except (shift (Ptr b i) <$> seq k n) m m'.
Proof.
  revert m k. induction n as [|n IH]; intros m k Hcap.
  - exists m. split; [reflexivity | apply same_except_refl].
  - cbn [store_fill]. destruct (fill k) as [c|] eqn:Hk.
    + assert (is_Some (cell m (shift (Ptr b i) k))) as Hc.
      { apply cell_shift_Some. apply Hcap; [lia | congruence]. }
      destruct (store_ok m _ (Vchar c) Hc) as [m1 Hst]. rewrite Hst. simpl.
      destruct (IH m1 (S k)) as (m' & Hrun & Hframe).
      { intros j Hj Hf. rewrite (store_capacity _ _ _ _ _ Hst). apply Hcap; [lia | done]. }
      exists m'. split; [exact Hrun|].
      apply (same_except_trans [shift (Ptr b i) k] _ m m1 m');
        [by eapply store_same_except | exact Hframe].
    + simpl. destruct (IH m (S k)) as (m' & Hrun & Hframe).
      { intros j Hj Hf. apply Hcap; [lia | done]. }
      exists m'. split; [exact Hrun|].
      eapply same_except_mono; [|exact Hframe].
      intros q Hq.
      change (q ∈ shift (Ptr b i) k :: (shift (Ptr b i) <$> seq (S k) n)). by right.
Qed.

(** An element the library fills past the end of the buffer is a store
    out of bounds. *)
Lemma store_fill_oob (fill : fill_policy) (n : nat) (m : mem) (p : ptr) (k j : nat) :
  (k <= j < k + n)%nat -> fill j <> None -> (capacity m p <= j)%nat ->
  store_fill fill m p k n = Stop OutOfBounds.
Proof.
  revert m k. induction n as [|n IH]; intros m k Hj Hf Hcap; [lia|].
  cbn [store_fill]. destruct (decide (j = k)) as [->|Hne].
  - destruct (fill k) as [c|]; [|done].
    rewrite store_oob; [reflexivity|].
    apply eq_None_not_Some. rewrite cell_shift_Some. lia.
  - destruct (fill k) as [c|].
    + destruct (store m (shift p k) (Vchar c)) as [m1|f] eqn:Hst; simpl.
      * apply IH; [lia | done |]. by rewrite (store_capacity _ _ _ _ _ Hst).
      * destruct (cell m (shift p k)) as [v|] eqn:Hc.
        -- destruct (store_ok m (shift p k) (Vchar c)) as [m1 Hst']; [eauto|]. congruence.
        -- rewrite (store_oob _ _ _ Hc) in Hst. congruence.
    + simpl. apply IH; [lia | done | done].
Qed.

(** A C string is what the cells from its start hold. *)
Lemma c_string_cells (m : mem) (p : ptr) (s : string) :
  (forall j c, (list_ascii_of_string s ++ [NUL]) !! j = Some c ->
               cell m (shift p j) = Some (Vchar c)) ->
  forallb (fun c => negb (Ascii.eqb c NUL)) (list_ascii_of_string s) = true ->
  c_string m p = Some s.
Proof.
  intros Hcells Hnz.
  assert (is_Some (cell m (shift p 0))) as H0.
  { destruct (lookup_lt_is_Some_2 (list_ascii_of_string s ++ [NUL]) 0) as [c Hc].
    - rewrite length_app. change (length [NUL]) with 1%nat. lia.
    - rewrite (Hcells 0%nat c Hc). eauto. }
  destruct p as [|b i]; [by destruct H0|].
  simpl in H0 |- *. destruct (m !! b) as [cells|] eqn:Hb; [|by destruct H0].
  simpl. apply cstring_of_chars; [|exact Hnz].
  intros j c Hj. specialize (Hcells j c Hj). simpl in Hcells.
  rewrite Hb in Hcells. simpl in Hcells. by rewrite lookup_drop.
Qed.

Lemma name_chars_length :
  length (list_ascii_of_string function_name ++ [NUL]) = 70%nat.
Proof. reflexivity. Qed.

(** In a buffer with room for the 69 characters and the terminator, which
    the library does not fill past its end, [GetFunctionName] leaves the
    name as a C string and touches nothing outside the 255 bytes it
    declares. *)
Lemma GetFunctionName_fits (fill : fill_policy) (m : mem) (name : ptr) :
  (70 <= capacity m name)%nat ->
  (forall k, (capacity m name <= k < 255)%nat -> fill k = None) ->
  exists m',
    GetFunctionName fill m name = Ret m' /\
    (forall j c, (list_ascii_of_string function_name ++ [NUL]) !! j = Some c ->
                 cell m' (shift name j) = Some (Vchar c)) /\
    c_string m' name = Some function_name /\
    same_except (span name 255) m m'.
Proof.
  intros Hcap Hfill. destruct name as [|b i]; [simpl in Hcap; lia|].
  unfold GetFunctionName, strcpy_s.
  destruct (decide (String.length function_name < 255)%nat) as [_|Hn];
    [|exfalso; apply Hn; rewrite name_length; lia].
  destruct (store_chars_ok (list_ascii_of_string function_name ++ [NUL]) m b i 0)
    as (m1 & Hrun1 & Hcells & Hframe1).
  { rewrite name_chars_length. lia. }
  rewrite Hrun1, name_length. simpl mbind. change (255 - 70)%nat with 185%nat.
  rewrite name_chars_length in Hframe1.
  destruct (store_fill_ok fill 185 m1 b i 70) as (m' & Hrun2 & Hframe2).
  { intros j Hj Hf. destruct Hframe1 as (_ & Hc & _). rewrite Hc.
    destruct (decide (j < capacity m (Ptr b i))%nat) as [|Hge]; [done|].
    exfalso. apply Hf, Hfill. lia. }
  exists m'. split; [exact Hrun2|].
  assert (forall j c, (list_ascii_of_string function_name ++ [NUL]) !! j = Some c ->
            cell m' (shift (Ptr b i) j) = Some (Vchar c)) as Hcells'.
  { intros j c Hj. destruct Hframe2 as (_ & _ & Hf). rewrite Hf; [by apply (Hcells j c)|].
    intros Hin. apply list_elem_of_fmap in Hin as (j' & Heq & Hj').
    apply shift_inj in Heq. subst j'. apply elem_of_seq in Hj'.
    apply lookup_lt_Some in Hj. rewrite name_chars_length in Hj. lia. }
  split; [exact Hcells'|]. split.
  - apply c_string_cells; [exact Hcells' | exact function_name_no_NUL].
  - eapply same_except_mono; [|exact (same_except_trans _ _ _ _ _ Hframe1 Hframe2)].
    intros q Hq. apply elem_of_span.
    apply elem_of_app in Hq as [Hq|Hq]; apply list_elem_of_fmap in Hq as (j & -> & Hj);
      apply elem_of_seq in Hj; exists j; split; [done | lia | done | lia].
Qed.

(** In a buffer smaller than the name and its terminator the copy
    overflows, whatever the library: the 255 passed to [strcpy_s] is not
    the size of the buffer. *)
Lemma GetFunctionName_overflows (fill : fill_policy) (m : mem) (b : block) (i : nat) :
  (capacity m (Ptr b i) < 70)%nat ->
  GetFunctionName fill m (Ptr b i) = Stop OutOfBounds.
Proof.
  intros Hcap. unfold GetFunctionName, strcpy_s.
  destruct (decide (String.length function_name < 255)%nat) as [_|Hn];
    [|exfalso; apply Hn; rewrite name_length; lia].
  rewrite store_chars_oob; [reflexivity | by destruct (list_ascii_of_string function_name) |].
  rewrite name_chars_length. lia.
Qed.

(** Between the 70 bytes of the name and the 255 declared, what happens
    is the library's choice: the same 100-byte buffer takes the name when
    nothing is filled and is overrun when the remainder is. *)
Example GetFunctionName_short_buffer :
  capacity host_mem_small (Ptr 6 0) = 100%nat /\
  (exists m', GetFunctionName fill_none host_mem_small (Ptr 6 0) = Ret m') /\
  GetFunctionName fill_debug host_mem_small (Ptr 6 0) = Stop OutOfBounds.
Proof.
  split; [reflexivity|]. split; [eexists|]; vm_compute; reflexivity.
Qed.

Lemma leading_digits_spec (s : string) (ds : list ascii) (rest : string) :
  leading_digits s = (ds, rest) ->
  s = (string_of_list_ascii ds ++ rest)%string /\ forallb is_digit ds = true.
Proof.
  revert ds rest. induction s as [|c s IH]; intros ds rest; simpl.
  - intros [= <- <-]. by split.
  - destruct (is_digit c) eqn:Hc.
    + destruct (leading_digits s) as [ds' rest'] eqn:Hs.
      intros [= <- <-]. destruct (IH ds' rest' eq_refl) as [-> Hall].
      split; [reflexivity|]. simpl. by rewrite Hc, Hall.
    + intros [= <- <-]. by split.
Qed.

(** A string accepted by [name_matches] is ['f'], a non-empty run of
    decimal digits that reads as a positive number, [':'], and a rest. *)
Lemma name_matches_sound (s : string) :
  name_matches s = true ->
  exists ds rest,
    s = String "f" (string_of_list_ascii ds ++ String ":" rest)%string /\
    ds <> [] /\ forallb is_digit ds = true /\ (0 < decimal ds)%N.
Proof.
  destruct s as [|c s]; [discriminate|]. simpl.
  destruct (Ascii.eqb c "f") eqn:Hf.
  2:{ destruct c as [[] [] [] [] [] [] [] []]; discriminate. }
  apply Ascii.eqb_eq in Hf. subst c.
  destruct (leading_digits s) as [ds rest] eqn:Hs.
  destruct rest as [|c rest]; [discriminate|].
  destruct (Ascii.eqb c ":") eqn:Hcol.
  2:{ destruct c as [[] [] [] [] [] [] [] []]; discriminate. }
  apply Ascii.eqb_eq in Hcol. subst c.
  intros Hpos. apply negb_true_iff, N.eqb_neq in Hpos.
  destruct (leading_digits_spec _ _ _ Hs) as [-> Hall].
  exists ds, rest. repeat split; [|exact Hall|lia].
  intros ->. apply Hpos. reflexivity.
Qed.

(** C3.  The name is not empty, matches [^f\d+:.*] with a positive
    number (it is [f], the digits [1], a colon and text), and takes 70
    bytes with its terminator, which is less than 255; in every memory,
    with every library, and through every pointer to a buffer of the 255
    bytes declared to [strcpy_s] - or with room for those 70 bytes, where
    the library fills nothing past the end of the buffer -
    [GetFunctionName] returns and leaves that string, null-terminated, at
    the start of the buffer. *)
Theorem GetFunctionName_writes_name :
  function_name <> EmptyString /\
  name_matches function_name = true /\
  (exists ds rest,
     function_name = String "f" (string_of_list_ascii ds ++ String ":" rest)%string /\
     ds <> [] /\ forallb is_digit ds = true /\ (0 < decimal ds)%N) /\
  (String.length function_name + 1 < 255)%nat /\
  forall (fill : fill_policy) (m : mem) (name : ptr),
    (String.length function_name + 1 <= capacity m name)%nat ->
    (forall k, (capacity m name <= k < 255)%nat -> fill k = None) ->
    exists m', GetFunctionName fill m name = Ret m' /\ c_string m' name = Some function_name.
Proof.
  split; [discriminate|]. split; [reflexivity|].
  split; [by apply name_matches_sound|].
  rewrite name_length. split; [lia|].
  intros fill m name Hcap Hfill.
  destruct (GetFunctionName_fits fill m name) as (m' & Hret & _ & Hstr & _); [lia | done |].
  by exists m'.
Qed.

Lemma GetFunctionName_writes_name_witness :
  exists m',
    GetFunctionName fill_debug host_mem (Ptr 5 0) = Ret m' /\
    c_string m' (Ptr 5 0) = Some function_name.
Proof.
  destruct GetFunctionName_writes_name as (_ & _ & _ & _ & Hwrites).
  assert (capacity host_mem (Ptr 5 0) = 255%nat) as Hcap by (vm_compute; reflexivity).
  apply (Hwrites fill_debug host_mem (Ptr 5 0)).
  - rewrite Hcap. vm_compute. lia.
  - intros k Hk. rewrite Hcap in Hk. lia.
Defined.

(** ** Arity *)




(** ** Capacity of the name buffer *)

(** C8, as stated, fails.  In a 10-byte buffer the copy of the 70 bytes
    runs over the end, with the release library as with the debug one:
    the character for [name[10]] has no cell to go to.  The call reports
    no error: it tells [strcpy_s] the buffer has 255 bytes. *)
Lemma GetFunctionName_capacity_unchecked :
  capacity host_mem_small (Ptr 5 0) = 10%nat /\
  cell host_mem_small (Ptr 5 10) = None /\
  GetFunctionName fill_none host_mem_small (Ptr 5 0) = Stop OutOfBounds /\
  GetFunctionName fill_debug host_mem_small (Ptr 5 0) = Stop OutOfBounds.
Proof. repeat split; vm_compute; reflexivity. Qed.

(** C8, amended.  In a buffer smaller than the 70 bytes of the name and
    its terminator, [GetFunctionName] overflows the buffer, with every
    library: it passes the constant 255 to [strcpy_s], never the capacity,
    and the first character that does not fit is stored outside the
    buffer, which is undefined behaviour in C and not a BufferTooSmall
    error. *)
Theorem GetFunctionName_capacity (fill : fill_policy) (m : mem) (b : block) (i : nat) :
  (capacity m (Ptr b i) < 70)%nat ->
  GetFunctionName fill m (Ptr b i) = Stop OutOfBounds /\
  is_Some ((list_ascii_of_string function_name ++ [NUL]) !! capacity m (Ptr b i)) /\
  cell m (shift (Ptr b i) (capacity m (Ptr b i))) = None.
Proof.
  intros Hcap. split; [by apply GetFunctionName_overflows|]. split.
  - apply lookup_lt_is_Some_2. rewrite name_chars_length. lia.
  - apply eq_None_not_Some. rewrite cell_shift_Some. lia.
Qed.

Lemma GetFunctionName_capacity_witness :
  GetFunctionName fill_debug host_mem_small (Ptr 5 0) = Stop OutOfBounds /\
  is_Some ((list_ascii_of_string function_name ++ [NUL]) !!
             capacity host_mem_small (Ptr 5 0)) /\
  cell host_mem_small (shift (Ptr 5 0) (capacity host_mem_small (Ptr 5 0))) = None.
Proof.
  apply (GetFunctionName_capacity fill_debug host_mem_small 5%positive 0%nat).
  vm_compute. lia.
Defined.

(** ** Frame *)

(** C10, as stated, fails when the output pointer aliases an input: with
    [y = x] the call overwrites [x[0]], which held 0.0, with 2.0. *)
Lemma GetFunctionValue_aliased_output :
  exists m',
    GetFunctionValue erf_sign host_mem (Ptr 1 0) (Ptr 2 0) (Ptr 1 0) = Ret m' /\
    cell host_mem (Ptr 1 0) = Some (Vdouble B64.zero) /\
    cell m' (Ptr 1 0) = Some (Vdouble B64.two).
Proof. eexists. vm_compute. repeat split. Qed.

Lemma GetFunctionName_Ret_capacity (fill : fill_policy) (m m' : mem) (name : ptr) :
  GetFunctionName fill m name = Ret m' -> (70 <= capacity m name)%nat.
Proof.
  intros Hret. destruct name as [|b i]; [discriminate|].
  destruct (decide (70 <= capacity m (Ptr b i))%nat) as [|Hlt]; [done|].
  rewrite GetFunctionName_overflows in Hret; [discriminate | lia].
Qed.

(** A call that returned met no element to fill past the end of the
    buffer. *)
Lemma GetFunctionName_Ret_fill (fill : fill_policy) (m m' : mem) (name : ptr) (k : nat) :
  GetFunctionName fill m name = Ret m' ->
  (capacity m name <= k < 255)%nat -> fill k = None.
Proof.
  intros Hret Hk.
  pose proof (GetFunctionName_Ret_capacity fill m m' name Hret) as Hcap.
  destruct name as [|b i]; [discriminate|].
  destruct (fill k) as [c|] eqn:Hf; [exfalso | reflexivity].
  unfold GetFunctionName, strcpy_s in Hret.
  destruct (decide (String.length function_name < 255)%nat) as [_|]; [|discriminate].
  rewrite name_length in Hret. change (255 - 70)%nat with 185%nat in Hret.
  destruct (store_chars m (Ptr b i) 0 (list_ascii_of_string function_name ++ [NUL]))
    as [m1|f] eqn:Hrun; [|discriminate].
  change (store_fill fill m1 (Ptr b i) 70 185 = Ret m') in Hret.
  rewrite (store_fill_oob fill 185 m1 (Ptr b i) 70 k) in Hret; [discriminate | | |].
  - lia.
  - congruence.
  - destruct (store_chars_ok (list_ascii_of_string function_name ++ [NUL]) m b i 0)
      as (m1' & Hrun' & _ & (_ & Hc & _)); [rewrite name_chars_length; lia|].
    rewrite Hrun in Hrun'. injection Hrun' as <-. rewrite Hc. lia.
Qed.

(** What a call that returned has left: the characters of the name, cell
    by cell, and nothing changed outside the 255 bytes it declares. *)
Lemma GetFunctionName_Ret (fill : fill_policy) (m m' : mem) (name : ptr) :
  GetFunctionName fill m name = Ret m' ->
  (forall j c, (list_ascii_of_string function_name ++ [NUL]) !! j = Some c ->
               cell m' (shift name j) = Some (Vchar c)) /\
  c_string m' name = Some function_name /\
  same_except (span name 255) m m'.
Proof.
  intros Hret.
  destruct (GetFunctionName_fits fill m name) as (m'' & Hret' & Hrest).
  - by eapply GetFunctionName_Ret_capacity.
  - intros k Hk. by eapply GetFunctionName_Ret_fill.
  - rewrite Hret in Hret'. injection Hret' as <-. exact Hrest.
Qed.

Lemma GetFunctionName_same_except (fill : fill_policy) (m m' : mem) (name : ptr) :
  GetFunctionName fill m name = Ret m' -> same_except (span name 255) m m'.
Proof. intros Hret. by apply GetFunctionName_Ret in Hret as (_ & _ & ?). Qed.

(** A call that returns has changed memory only in the cells it may
    write. *)
Lemma do_call_same_except (erf : double -> double) (fill : fill_policy) (m m' : mem)
    (c : call) :
  do_call erf fill m c = Ret m' -> same_except (writes c) m m'.
Proof.
  destruct c as [name|x a y|n|n]; cbn [do_call writes].
  - apply GetFunctionName_same_except.
  - apply GetFunctionValue_same_except.
  - apply store_same_except.
  - apply store_same_except.
Qed.

(** A block none of whose cells may be written is left as it was. *)
Lemma same_except_block (W : list ptr) (m m' : mem) (b : block) :
  same_except W m m' -> (forall i, Ptr b i ∉ W) -> m' !! b = m !! b.
Proof.
  intros (Hdom & _ & Hf) Hb.
  destruct (m' !! b) as [l'|] eqn:H', (m !! b) as [l|] eqn:H.
  - f_equal. apply list_eq. intros i.
    specialize (Hf (Ptr b i) (Hb i)). simpl in Hf. by rewrite H', H in Hf.
  - exfalso. apply (not_elem_of_dom m b) in H. apply H.
    rewrite <- Hdom. apply elem_of_dom. eauto.
  - exfalso. apply (not_elem_of_dom m' b) in H'. apply H'.
    rewrite Hdom. apply elem_of_dom. eauto.
  - reflexivity.
Qed.

(** C10, amended.  Every operation writes only through its designated
    output pointer and changes nothing else: [GetFunctionValue] writes
    only the single scalar [*y] and leaves the input arrays [x] and [a]
    unchanged, but for an element that [y] itself points to;
    [GetNumParameters] and [GetNumVariables] write only [*n];
    [GetFunctionName] writes only in the buffer at [name], within the 255
    bytes it declares; and no operation mutates any process-wide or
    instance state: every object of the process lives in a block of
    memory, and a block that the output pointer does not reach is after
    the call what it was before. *)
Theorem calls_write_only_output (erf : double -> double) (fill : fill_policy)
    (m m' : mem) :
  (forall x a y,
     GetFunctionValue erf m x a y = Ret m' ->
     same_except [y] m m' /\
     (forall q, q ∈ span x 1 ++ span a 4 -> q <> y -> cell m' q = cell m q) /\
     (y ∉ span x 1 ++ span a 4 ->
      forall q, q ∈ span x 1 ++ span a 4 -> cell m' q = cell m q)) /\
  (forall n, GetNumParameters m n = Ret m' -> same_except [n] m m') /\
  (forall n, GetNumVariables m n = Ret m' -> same_except [n] m m') /\
  (forall name, GetFunctionName fill m name = Ret m' -> same_except (span name 255) m m') /\
  (forall c,
     do_call erf fill m c = Ret m' ->
     forall b, (forall i, Ptr b i ∉ writes c) -> m' !! b = m !! b).
Proof.
  split; [|split; [|split; [|split]]].
  - intros x a y Hcall.
    pose proof (GetFunctionValue_same_except erf m m' x a y Hcall) as Hframe.
    split; [exact Hframe|]. destruct Hframe as (_ & _ & Hf). split.
    + intros q _ Hne. apply Hf. intros Hin. apply list_elem_of_singleton in Hin. done.
    + intros Hy q Hq. apply Hf. intros Hin. apply list_elem_of_singleton in Hin.
      subst q. done.
  - intros n. apply store_same_except.
  - intros n. apply store_same_except.
  - intros name. apply GetFunctionName_same_except.
  - intros c Hcall b Hb. eapply same_except_block; [|exact Hb].
    by eapply do_call_same_except.
Qed.

Lemma calls_write_only_output_witness :
  exists m',
    GetFunctionValue erf_sign host_mem (Ptr 1 0) (Ptr 2 0) (Ptr 3 0) = Ret m' /\
    same_except [Ptr 3 0] host_mem m'.
Proof.
  eexists. split; [vm_compute; reflexivity|].
  refine (proj1 (proj1 (calls_write_only_output erf_sign fill_debug host_mem _)
                   (Ptr 1 0) (Ptr 2 0) (Ptr 3 0) _)).
  vm_compute. reflexivity.
Defined.

(** ** Binary64: mantissas, shifts and the rounding of an exact value *)

Lemma iter_pos_nat {A : Type} (f : A -> A) (p : positive) (x : A) :
  SpecFloat.iter_pos f p x = Nat.iter (Pos.to_nat p) f x.
Proof.
  revert x. induction p as [p IH|p IH|]; intros x; cbn [SpecFloat.iter_pos].
  - rewrite !IH, Pos2Nat.inj_xI.
    replace (S (2 * Pos.to_nat p))%nat with (Pos.to_nat p + Pos.to_nat p + 1)%nat by lia.
    rewrite !Nat.iter_add. reflexivity.
  - rewrite !IH, Pos2Nat.inj_xO.
    replace (2 * Pos.to_nat p)%nat with (Pos.to_nat p + Pos.to_nat p)%nat by lia.
    rewrite Nat.iter_add. reflexivity.
  - reflexivity.
Qed.

Lemma digits2_pos_log2 (p : positive) :
  Z.pos (digits2_pos p) = Z.log2 (Z.pos p) + 1.
Proof.
  assert (forall q, Z.pos (digits2_pos q) = Z.pos (Pos.size q)) as Hsize.
  { induction q as [q IH|q IH|]; simpl; [| |reflexivity];
      rewrite !Pos2Z.inj_succ; congruence. }
  destruct p as [p|p|]; simpl; rewrite ?Pos2Z.inj_succ, ?Hsize; lia.
Qed.

(** [digits m] is the number of bits of [m]: [2^(digits m - 1) <= m < 2^digits m]. *)
Lemma digits2_pos_bounds (p : positive) :
  2 ^ (Z.pos (digits2_pos p) - 1) <= Z.pos p < 2 ^ Z.pos (digits2_pos p).
Proof.
  rewrite digits2_pos_log2.
  replace (Z.log2 (Z.pos p) + 1 - 1) with (Z.log2 (Z.pos p)) by lia.
  replace (Z.log2 (Z.pos p) + 1) with (Z.succ (Z.log2 (Z.pos p))) by lia.
  apply Z.log2_spec. lia.
Qed.

Lemma shr_1_nonneg (m : Z) (r s : bool) :
  0 <= m ->
  shr_1 {| shr_m := m; shr_r := r; shr_s := s |} =
  {| shr_m := m / 2; shr_r := Z.odd m; shr_s := r || s |}.
Proof.
  intros Hm. destruct m as [|[p|p|]|p]; try lia; cbn [shr_1].
  - reflexivity.
  - rewrite Pos2Z.inj_xI. f_equal.
    apply (Z.div_unique _ _ _ 1); lia.
  - rewrite Pos2Z.inj_xO. f_equal.
    apply (Z.div_unique _ _ _ 0); lia.
  - reflexivity.
Qed.

Lemma mod_pow2_succ (m k : Z) :
  0 <= k -> m mod 2 ^ (k + 1) = m mod 2 ^ k + 2 ^ k * Z.b2z (Z.testbit m k).
Proof.
  intros Hk. rewrite Z.pow_add_r, Z.pow_1_r by lia.
  rewrite Z.rem_mul_r by lia.
  by rewrite Z.testbit_spec' by lia.
Qed.

(** [n >= 1] right shifts of a non-negative mantissa: the quotient, the
    last bit shifted out, and whether anything was shifted out before it. *)
Lemma iter_shr_1 (n : nat) (m : Z) (r s : bool) :
  0 <= m ->
  Nat.iter (S n) shr_1 {| shr_m := m; shr_r := r; shr_s := s |} =
  {| shr_m := m / 2 ^ Z.of_nat (S n);
     shr_r := Z.testbit m (Z.of_nat n);
     shr_s := negb (m mod 2 ^ Z.of_nat n =? 0) || (r || s) |}.
Proof.
  intros Hm. induction n as [|n IH].
  - cbn [Nat.iter]. rewrite shr_1_nonneg by done.
    change (Z.of_nat 1) with 1. change (Z.of_nat 0) with 0.
    rewrite Z.pow_1_r, Z.pow_0_r, Z.mod_1_r, Z.bit0_odd. reflexivity.
  - change (Nat.iter (S (S n)) shr_1 ?x) with (shr_1 (Nat.iter (S n) shr_1 x)).
    rewrite IH, shr_1_nonneg by (apply Z.div_pos; lia).
    assert (0 <= Z.of_nat n) as Hn by lia.
    f_equal.
    + rewrite Z.div_div by lia.
      rewrite (Nat2Z.inj_succ (S n)), (Z.pow_succ_r _ (Z.of_nat (S n))) by lia.
      f_equal; lia.
    + rewrite <- Z.bit0_odd, <- Z.shiftr_div_pow2, Z.shiftr_spec by lia.
      f_equal; lia.
    + replace (Z.of_nat (S n)) with (Z.of_nat n + 1) by lia.
      rewrite (mod_pow2_succ m (Z.of_nat n)) by lia.
      pose proof (Z.mod_pos_bound m (2 ^ Z.of_nat n)) as Hmod.
      assert (0 < 2 ^ Z.of_nat n) as Hpow by (apply Z.pow_pos_nonneg; lia).
      specialize (Hmod Hpow).
      destruct (Z.testbit m (Z.of_nat n)); simpl Z.b2z.
      * assert ((m mod 2 ^ Z.of_nat n + 2 ^ Z.of_nat n * 1 =? 0) = false) as ->
          by (apply Z.eqb_neq; lia).
        reflexivity.
      * rewrite Z.mul_0_r, Z.add_0_r. simpl. reflexivity.
Qed.

(** The same for [shr], by a positive number of bits. *)
Lemma shr_spec (m : Z) (r s : bool) (e n : Z) :
  0 <= m -> 0 < n ->
  shr {| shr_m := m; shr_r := r; shr_s := s |} e n =
  ({| shr_m := m / 2 ^ n;
      shr_r := Z.testbit m (n - 1);
      shr_s := negb (m mod 2 ^ (n - 1) =? 0) || (r || s) |}, e + n).
Proof.
  intros Hm Hn. destruct n as [|p|p]; try lia. cbn [shr].
  rewrite iter_pos_nat.
  destruct (Pos.to_nat p) as [|k] eqn:Hk; [lia|].
  rewrite iter_shr_1 by done.
  replace (Z.of_nat (S k)) with (Z.pos p) by lia.
  replace (Z.of_nat k) with (Z.pos p - 1) by lia.
  reflexivity.
Qed.

Lemma shr_nop (mrs : shr_record) (e n : Z) : n <= 0 -> shr mrs e n = (mrs, e).
Proof. destruct n; [reflexivity | lia | reflexivity]. Qed.

(** ** The rounding function: ranges *)

Lemma pow2_pos (k : Z) : 0 <= k -> 0 < 2 ^ k.
Proof. intros Hk. apply Z.pow_pos_nonneg; lia. Qed.

Lemma pow2_split (a b : Z) : 0 <= a -> 0 <= b -> 2 ^ (a + b) = 2 ^ a * 2 ^ b.
Proof. intros Ha Hb. apply Z.pow_add_r; lia. Qed.

Lemma pow2_le (a b : Z) : 0 <= a <= b -> 2 ^ a <= 2 ^ b.
Proof. intros Hab. apply Z.pow_le_mono_r; lia. Qed.

Lemma pow2_lt (a b : Z) : 0 <= a < b -> 2 ^ a < 2 ^ b.
Proof. intros Hab. apply Z.pow_lt_mono_r; lia. Qed.

Lemma RNE_bounds (q r P : Z) : q <= RNE q r P <= q + 1.
Proof. unfold RNE. destruct (2 * r ?= P); [destruct (Z.even q)| |]; lia. Qed.

Lemma rnd_exp_ge (N D : Z) : 1074 <= rnd_exp N D.
Proof. unfold rnd_exp. lia. Qed.

(** A non-negative integer has at most [log2 + 1] bits. *)
Lemma log2_upper (a : Z) : 0 <= a -> a < 2 ^ (Z.log2 a + 1).
Proof.
  intros Ha. destruct (Z.eq_dec a 0) as [->|Hne]; [reflexivity|].
  apply Z.log2_spec. lia.
Qed.

Lemma div_pow2_lt (a k t : Z) : 0 <= t <= k -> a < 2 ^ k -> a / 2 ^ t < 2 ^ (k - t).
Proof.
  intros Hk Ha. apply Z.div_lt_upper_bound; [apply pow2_pos; lia|].
  rewrite <- pow2_split by lia. by replace (t + (k - t)) with k by lia.
Qed.

Lemma rnd_quot_bounds (N D : Z) :
  0 <= N -> 0 < D -> 0 <= N / (D * 2 ^ rnd_exp N D) < 2 ^ 53.
Proof.
  intros HN HD. pose proof (rnd_exp_ge N D) as HT.
  assert (0 < 2 ^ rnd_exp N D) as Hpow by (apply pow2_pos; lia).
  split; [apply Z.div_pos; nia|].
  rewrite <- Z.div_div by lia.
  assert (0 <= N / D) as Hq by (apply Z.div_pos; lia).
  pose proof (log2_upper (N / D) Hq) as Hup.
  assert (Z.log2 (N / D) + 1 <= rnd_exp N D + 53) as Hle by (unfold rnd_exp; lia).
  pose proof (Z.log2_nonneg (N / D)) as Hlog.
  replace 53 with (rnd_exp N D + 53 - rnd_exp N D) by lia.
  apply div_pow2_lt; [lia|].
  eapply Z.lt_le_trans; [exact Hup|]. apply pow2_le. lia.
Qed.

Lemma rnd_man_bounds (N D : Z) : 0 <= N -> 0 < D -> 0 <= rnd_man N D <= 2 ^ 53.
Proof.
  intros HN HD. unfold rnd_man. cbv zeta.
  pose proof (rnd_quot_bounds N D HN HD) as Hq.
  pose proof (RNE_bounds (N / (D * 2 ^ rnd_exp N D)) (N mod (D * 2 ^ rnd_exp N D))
                (D * 2 ^ rnd_exp N D)) as Hr.
  lia.
Qed.

(** ** The rounding function is what [binary_round_aux] computes *)

Lemma fexp64 (e : Z) : fexp B64.prec B64.emax e = Z.max (e - 53) (-1074).
Proof. reflexivity. Qed.

Lemma Zdigits2_log2 (M : Z) : 0 < M -> Zdigits2 M = Z.log2 M + 1.
Proof. destruct M as [|p|p]; try lia. intros _. apply digits2_pos_log2. Qed.

Lemma round_loc (M rem Q : Z) (l : location) :
  0 < Q -> locates l rem Q -> round_nearest_even M l = RNE M rem Q.
Proof.
  intros HQ. unfold RNE. destruct l as [|c]; simpl.
  - intros ->. destruct (Z.compare_spec (2 * 0) Q) as [H|H|H]; [lia | reflexivity | lia].
  - intros [_ ->]. destruct c; reflexivity.
Qed.

Lemma loc_of_shr_record_of_loc (M : Z) (l : location) :
  loc_of_shr_record (shr_record_of_loc M l) = l /\ shr_m (shr_record_of_loc M l) = M.
Proof. destruct l as [|[]]; by split. Qed.

(** Shifting [n >= 1] bits out and rounding on the record that is left is
    rounding on the remainder of the division by [2^n]. *)
Lemma shr_round (M E n rem Q : Z) (l : location) :
  0 <= M -> 0 < n -> 0 < Q -> 0 <= rem < Q -> locates l rem Q ->
  let mrs := fst (shr (shr_record_of_loc M l) E n) in
  round_nearest_even (shr_m mrs) (loc_of_shr_record mrs) =
  RNE (M / 2 ^ n) (M mod 2 ^ n * Q + rem) (2 ^ n * Q).
Proof.
  intros HM Hn HQ Hrem Hloc.
  assert (exists rl sl, shr_record_of_loc M l =
                          {| shr_m := M; shr_r := rl; shr_s := sl |} /\
                        (rl || sl = negb (rem =? 0))) as (rl & sl & -> & Hst).
  { destruct l as [|c]; simpl in Hloc.
    - subst rem. by exists false, false.
    - destruct Hloc as [Hpos _].
      assert ((rem =? 0) = false) as -> by (apply Z.eqb_neq; lia).
      destruct c; simpl; eauto. }
  rewrite shr_spec by lia. cbn [fst shr_m].
  set (A := 2 ^ (n - 1)).
  assert (0 < A) as HA by (apply pow2_pos; lia).
  assert (2 ^ n = 2 * A) as HnA.
  { unfold A. replace n with (1 + (n - 1)) at 1 by lia.
    rewrite pow2_split by lia. reflexivity. }
  pose proof (mod_pow2_succ M (n - 1)) as Hmod.
  replace (n - 1 + 1) with n in Hmod by lia. specialize (Hmod ltac:(lia)).
  fold A in Hmod.
  pose proof (Z.mod_pos_bound M A HA) as Hlow.
  set (low := M mod A) in *.
  rewrite Hmod, HnA. unfold RNE.
  assert (0 <= low * Q + rem < A * Q) as HX by nia.
  assert (low * Q + rem = 0 <-> low = 0 /\ rem = 0) as HX0 by nia.
  destruct (Z.testbit M (n - 1)); simpl Z.b2z.
  - (* the bit shifted out last is 1: half or more *)
    destruct (Z.eq_dec low 0) as [Hl0|Hl0], (Z.eq_dec rem 0) as [Hr0|Hr0].
    + rewrite Hl0, Hr0 in *. simpl in Hst. rewrite Hst. simpl.
      assert ((2 * ((0 + A * 1) * Q + 0) ?= 2 * A * Q) = Eq) as ->
        by (apply Z.compare_eq_iff; lia).
      reflexivity.
    + assert ((rem =? 0) = false) as Hr by (apply Z.eqb_neq; lia).
      rewrite Hr in Hst. simpl in Hst. rewrite Hst, orb_true_r. simpl.
      assert ((2 * ((low + A * 1) * Q + rem) ?= 2 * A * Q) = Gt) as ->
        by (apply Z.compare_gt_iff; nia).
      reflexivity.
    + assert ((low =? 0) = false) as -> by (apply Z.eqb_neq; lia). simpl.
      assert ((2 * ((low + A * 1) * Q + rem) ?= 2 * A * Q) = Gt) as ->
        by (apply Z.compare_gt_iff; nia).
      reflexivity.
    + assert ((low =? 0) = false) as -> by (apply Z.eqb_neq; lia). simpl.
      assert ((2 * ((low + A * 1) * Q + rem) ?= 2 * A * Q) = Gt) as ->
        by (apply Z.compare_gt_iff; nia).
      reflexivity.
  - (* the bit shifted out last is 0: less than half *)
    assert ((2 * ((low + A * 0) * Q + rem) ?= 2 * A * Q) = Lt) as ->
      by (apply Z.compare_lt_iff; nia).
    destruct (negb (low =? 0) || (rl || sl)); reflexivity.
Qed.

(** The exponent of the grid, read off a mantissa and exponent that
    bracket the value. *)
Lemma rnd_exp_bracket (M E N D : Z) :
  0 <= M -> -2148 <= E -> 0 < D ->
  M * (2 ^ (E + 2148) * D) <= N < (M + 1) * (2 ^ (E + 2148) * D) ->
  E <= fexp B64.prec B64.emax (Zdigits2 M + E) ->
  rnd_exp N D = fexp B64.prec B64.emax (Zdigits2 M + E) + 2148.
Proof.
  intros HM HE HD [Hlo Hhi] Hshift. rewrite fexp64 in *. unfold rnd_exp.
  set (S := 2 ^ (E + 2148)) in *.
  assert (0 < S) as HS by (apply pow2_pos; lia).
  assert (M * S <= N / D) as Hvlo by (apply Z.div_le_lower_bound; lia).
  assert (N / D < (M + 1) * S) as Hvhi by (apply Z.div_lt_upper_bound; lia).
  destruct (Z.eq_dec M 0) as [->|Hne].
  - simpl Zdigits2 in *.
    assert (E <= -1074) as HE' by lia.
    assert (S <= 2 ^ 1074) as HS' by (apply pow2_le; lia).
    assert (Z.log2 (N / D) < 1074).
    { destruct (Z.eq_dec (N / D) 0) as [->|Hv]; [reflexivity|].
      apply Z.log2_lt_pow2; lia. }
    lia.
  - rewrite Zdigits2_log2 in * by lia.
    pose proof (Z.log2_spec M ltac:(lia)) as [HlM HuM].
    pose proof (Z.log2_nonneg M) as HlM0.
    assert (Z.log2 (N / D) = Z.log2 M + (E + 2148)) as ->.
    { apply Z.log2_unique; [lia|].
      rewrite <- Z.add_succ_l.
      rewrite (pow2_split (Z.log2 M) (E + 2148)), (pow2_split (Z.succ (Z.log2 M)) (E + 2148))
        by lia.
      fold S. split; nia. }
    lia.
Qed.

(** Quotient and remainder of the value by the grid step, from the
    bracketing mantissa. *)
Lemma rnd_quot_rem (M n Q N : Z) :
  0 <= M -> 0 <= n -> 0 < Q ->
  M * Q <= N < (M + 1) * Q ->
  N / (Q * 2 ^ n) = M / 2 ^ n /\
  N mod (Q * 2 ^ n) = M mod 2 ^ n * Q + (N - M * Q).
Proof.
  intros HM Hn HQ [Hlo Hhi].
  assert (0 < 2 ^ n) as Hp by (by apply pow2_pos).
  pose proof (Z.div_mod M (2 ^ n) ltac:(lia)) as Hdm.
  pose proof (Z.mod_pos_bound M (2 ^ n) Hp) as Hmb.
  assert (N = Q * 2 ^ n * (M / 2 ^ n) + (M mod 2 ^ n * Q + (N - M * Q))) as Heq by nia.
  assert (0 <= M mod 2 ^ n * Q + (N - M * Q) < Q * 2 ^ n) as Hrange by nia.
  split.
  - symmetry. eapply Z.div_unique_pos; [exact Hrange | exact Heq].
  - symmetry. eapply Z.mod_unique_pos; [exact Hrange | exact Heq].
Qed.

(** The last stage of [binary_round_aux], on a mantissa that fits. *)
Lemma finish_encode (s : bool) (m T : Z) :
  0 <= m <= 2 ^ 53 -> -1074 <= T ->
  (let '(mrs, e) := shr_fexp B64.prec B64.emax m T loc_Exact in
   match shr_m mrs with
   | 0 => S754_zero s
   | Z.pos p => if e <=? B64.emax - B64.prec then S754_finite s p e else S754_infinity s
   | Z.neg _ => S754_nan
   end) = encode s m T.
Proof.
  intros Hm HT. unfold shr_fexp, encode. rewrite fexp64.
  destruct (Z.eq_dec m 0) as [->|Hm0].
  - rewrite shr_nop by (simpl Zdigits2; lia). reflexivity.
  - assert ((m =? 0) = false) as -> by (apply Z.eqb_neq; lia).
    rewrite Zdigits2_log2 by lia.
    destruct (Z.eq_dec m (2 ^ 53)) as [->|Hm53].
    + rewrite Z.eqb_refl, Z.log2_pow2 by lia.
      replace (Z.max (53 + 1 + T - 53) (-1074) - T) with 1 by lia.
      cbn [shr_record_of_loc]. rewrite shr_spec by lia. cbn [shr_m].
      change (2 ^ 53 / 2 ^ 1) with (Z.pos (Z.to_pos (2 ^ 52))).
      cbv iota. reflexivity.
    + assert ((m =? 2 ^ 53) = false) as -> by (apply Z.eqb_neq; lia).
      assert (Z.log2 m < 53) by (apply Z.log2_lt_pow2; lia).
      rewrite shr_nop by lia. cbn [shr_record_of_loc shr_m].
      destruct m as [|p|p]; try lia. reflexivity.
Qed.

(** The heart of the matter: [binary_round_aux], given a mantissa [M], an
    exponent [E] and a location that bracket the exact value [N / D], and
    no need to shift left, returns [rnd] of that value. *)
Lemma binary_round_aux_rnd (s : bool) (M E : Z) (l : location) (N D : Z) :
  0 <= M -> -2148 <= E -> 0 < D ->
  M * (2 ^ (E + 2148) * D) <= N < (M + 1) * (2 ^ (E + 2148) * D) ->
  locates l (N - M * (2 ^ (E + 2148) * D)) (2 ^ (E + 2148) * D) ->
  E <= fexp B64.prec B64.emax (Zdigits2 M + E) ->
  binary_round_aux B64.prec B64.emax s M E l = rnd s N D.
Proof.
  intros HM HE HD Hbr Hloc Hshift.
  pose proof (rnd_exp_bracket M E N D HM HE HD Hbr Hshift) as HT.
  set (Q := 2 ^ (E + 2148) * D) in *.
  assert (0 < Q) as HQ by (pose proof (pow2_pos (E + 2148)); nia).
  set (T := fexp B64.prec B64.emax (Zdigits2 M + E)) in *.
  assert (-1074 <= T) as HT74 by (unfold T; rewrite fexp64; lia).
  set (n := T - E).
  assert (D * 2 ^ rnd_exp N D = Q * 2 ^ n) as HP.
  { rewrite HT. unfold Q, n. replace (T + 2148) with (E + 2148 + (T - E)) by lia.
    rewrite pow2_split by lia. ring. }
  destruct (rnd_quot_rem M n Q N HM ltac:(unfold n; lia) HQ Hbr) as [Hquot Hrem].
  assert (rnd_man N D = RNE (M / 2 ^ n) (M mod 2 ^ n * Q + (N - M * Q)) (2 ^ n * Q)) as Hman.
  { unfold rnd_man. cbv zeta. rewrite HP, Hquot, Hrem. f_equal. ring. }
  assert (let mrs := fst (shr_fexp B64.prec B64.emax M E l) in
          round_nearest_even (shr_m mrs) (loc_of_shr_record mrs) = rnd_man N D /\
          snd (shr_fexp B64.prec B64.emax M E l) = T) as [Hfirst HeT].
  { unfold shr_fexp. fold T. fold n. rewrite Hman.
    destruct (Z.eq_dec n 0) as [Hn0|Hn0].
    - rewrite Hn0, shr_nop by lia. cbn [fst snd].
      destruct (loc_of_shr_record_of_loc M l) as [-> ->].
      rewrite Z.pow_0_r, Z.div_1_r, Z.mod_1_r, Z.mul_0_l, Z.add_0_l, Z.mul_1_l.
      split; [by apply round_loc | unfold n in Hn0; lia].
    - split.
      + apply shr_round; [lia | unfold n in *; lia | lia | lia | exact Hloc].
      + destruct l as [|[]]; cbn [shr_record_of_loc];
          rewrite shr_spec by (unfold n in *; lia); cbn [snd]; unfold n; lia. }
  unfold binary_round_aux.
  destruct (shr_fexp B64.prec B64.emax M E l) as [mrs e'] eqn:Hs1.
  cbn [fst snd] in Hfirst, HeT. rewrite Hfirst, HeT.
  rewrite finish_encode; [|by apply rnd_man_bounds; lia | lia].
  unfold rnd. f_equal. lia.
Qed.

(** ** The operations, as roundings of their exact results *)

Lemma valid_finite_inv (s : bool) (m : positive) (e : Z) :
  B64.valid (S754_finite s m e) = true ->
  -1074 <= e <= 971 /\
  Z.pos (digits2_pos m) <= 53 /\
  (Z.pos (digits2_pos m) = 53 \/ e = -1074).
Proof.
  unfold B64.valid, valid_binary, bounded, canonical_mantissa.
  rewrite fexp64. intros H. apply andb_prop in H as [Hc Hb].
  apply Z.eqb_eq in Hc. apply Z.leb_le in Hb.
  change (B64.emax - B64.prec) with 971 in Hb. lia.
Qed.

Lemma valid_finite_intro (s : bool) (m : positive) (e : Z) :
  -1074 <= e <= 971 ->
  Z.pos (digits2_pos m) <= 53 ->
  (Z.pos (digits2_pos m) = 53 \/ e = -1074) ->
  B64.valid (S754_finite s m e) = true.
Proof.
  intros He Hd Hn.
  unfold B64.valid, valid_binary, bounded, canonical_mantissa.
  rewrite fexp64. apply andb_true_intro. split.
  - apply Z.eqb_eq. lia.
  - apply Z.leb_le. change (B64.emax - B64.prec) with 971. lia.
Qed.

(** A double other than NaN is a sign and a magnitude in units of
    [2^-2148]. *)
Lemma ord_finite (s : bool) (m : positive) (e : Z) :
  ord (S754_finite s m e) = cond_Zopp s (Z.pos m * 2 ^ (e + 2148)).
Proof. reflexivity. Qed.

Lemma mul_finite_rnd (sx sy : bool) (mx my : positive) (ex ey : Z) :
  B64.valid (S754_finite sx mx ex) = true ->
  B64.valid (S754_finite sy my ey) = true ->
  B64.mul (S754_finite sx mx ex) (S754_finite sy my ey) =
  rnd (xorb sx sy) (Z.pos mx * Z.pos my * 2 ^ (ex + ey + 2148)) 1.
Proof.
  intros Hx Hy.
  apply valid_finite_inv in Hx as (Hex & Hdx & Hnx), Hy as (Hey & Hdy & Hny).
  unfold B64.mul, SFmul. rewrite Pos2Z.inj_mul.
  pose proof (pow2_pos (ex + ey + 2148) ltac:(lia)) as Hpow.
  apply binary_round_aux_rnd; try lia.
  - unfold locates. ring.
  - rewrite fexp64. rewrite Zdigits2_log2 by lia.
    rewrite digits2_pos_log2 in *.
    pose proof (Z.log2_mul_below (Z.pos mx) (Z.pos my) ltac:(lia) ltac:(lia)).
    pose proof (Z.log2_nonneg (Z.pos mx)). pose proof (Z.log2_nonneg (Z.pos my)).
    lia.
Qed.

Lemma pos_iter_xO (m d : positive) : Z.pos (Pos.iter xO m d) = Z.pos m * 2 ^ Z.pos d.
Proof.
  induction d as [|d IH] using Pos.peano_ind.
  - simpl. lia.
  - rewrite Pos.iter_succ, Pos2Z.inj_xO, IH, Pos2Z.inj_succ, Z.pow_succ_r by lia. ring.
Qed.

Lemma shl_align_spec (mx : positive) (ex ex' : Z) :
  snd (shl_align mx ex ex') = Z.min ex ex' /\
  Z.pos (fst (shl_align mx ex ex')) = Z.pos mx * 2 ^ (ex - Z.min ex ex').
Proof.
  unfold shl_align. destruct (ex' - ex) as [|d|d] eqn:Hd; cbn [fst snd].
  - replace (Z.min ex ex') with ex by lia. rewrite Z.sub_diag. lia.
  - replace (Z.min ex ex') with ex by lia. rewrite Z.sub_diag. lia.
  - replace (Z.min ex ex') with ex' by lia.
    rewrite pos_iter_xO. replace (ex - ex') with (Z.pos d) by lia. split; reflexivity.
Qed.

Lemma log2_mul_pow2 (a k : Z) : 0 < a -> 0 <= k -> Z.log2 (a * 2 ^ k) = Z.log2 a + k.
Proof. intros Ha Hk. rewrite Z.log2_mul_pow2 by lia. lia. Qed.

(** [binary_round]: the double nearest to [m * 2^e]. *)
Lemma binary_round_rnd (s : bool) (m : positive) (e : Z) :
  -2148 <= e ->
  binary_round B64.prec B64.emax s m e = rnd s (Z.pos m * 2 ^ (e + 2148)) 1.
Proof.
  intros He. unfold binary_round.
  set (f := fexp B64.prec B64.emax (Z.pos (digits2_pos m) + e)).
  assert (-1074 <= f) as Hf by (unfold f; rewrite fexp64; lia).
  destruct (shl_align_spec m e f) as [Hsnd Hfst].
  destruct (shl_align m e f) as [mz ez]. cbn [fst snd] in Hsnd, Hfst. subst ez.
  assert (2 ^ (e + 2148) = 2 ^ (e - Z.min e f) * 2 ^ (Z.min e f + 2148)) as Hsplit.
  { rewrite <- pow2_split by lia. f_equal. lia. }
  pose proof (pow2_pos (Z.min e f + 2148) ltac:(lia)) as Hpow.
  apply binary_round_aux_rnd; try lia.
  - unfold locates. rewrite Hfst, Hsplit. ring.
  - change (Zdigits2 (Z.pos mz)) with (Z.pos (digits2_pos mz)).
    rewrite (digits2_pos_log2 mz), Hfst, log2_mul_pow2 by lia.
    replace (Z.log2 (Z.pos m) + (e - Z.min e f) + 1 + Z.min e f)
      with (Z.pos (digits2_pos m) + e) by (rewrite digits2_pos_log2; lia).
    fold f. lia.
Qed.

(** A finite double rounds to itself. *)
Lemma rnd_representable (s : bool) (m : positive) (e : Z) :
  B64.valid (S754_finite s m e) = true ->
  rnd s (Z.pos m * 2 ^ (e + 2148)) 1 = S754_finite s m e.
Proof.
  intros Hv. apply valid_finite_inv in Hv as (He & Hd & Hn).
  pose proof (digits2_pos_bounds m) as Hm.
  assert (Z.pos m < 2 ^ 53).
  { eapply Z.lt_le_trans; [apply Hm|]. apply pow2_le. lia. }
  pose proof (pow2_pos (e + 2148) ltac:(lia)) as Hpow.
  assert (rnd_exp (Z.pos m * 2 ^ (e + 2148)) 1 = e + 2148) as HT.
  { unfold rnd_exp. rewrite Z.div_1_r, log2_mul_pow2 by lia.
    rewrite digits2_pos_log2 in *. lia. }
  unfold rnd, rnd_man. cbv zeta. rewrite HT, Z.mul_1_l.
  rewrite Z.div_mul, Z.mod_mul by lia.
  unfold RNE. assert ((2 * 0 ?= 2 ^ (e + 2148)) = Lt) as -> by (apply Z.compare_lt_iff; lia).
  unfold encode.
  assert ((Z.pos m =? 0) = false) as -> by (apply Z.eqb_neq; lia).
  assert ((Z.pos m =? 2 ^ 53) = false) as -> by (apply Z.eqb_neq; lia).
  replace (e + 2148 - 2148) with e by lia.
  assert ((e <=? 971) = true) as -> by (apply Z.leb_le; lia).
  reflexivity.
Qed.

Lemma compare_mul_pos (c a b : Z) : 0 < c -> (c * a ?= c * b) = (a ?= b).
Proof.
  intros Hc. destruct (Z.compare_spec a b) as [H|H|H].
  - apply Z.compare_eq_iff. by subst.
  - apply Z.compare_lt_iff. nia.
  - apply Z.compare_gt_iff. nia.
Qed.

(** Equal values round alike. *)
Lemma rnd_scale (s : bool) (N D c : Z) :
  0 < D -> 0 < c -> rnd s (N * c) (D * c) = rnd s N D.
Proof.
  intros HD Hc.
  assert (rnd_exp (N * c) (D * c) = rnd_exp N D) as HT
    by (unfold rnd_exp; rewrite Z.div_mul_cancel_r by lia; reflexivity).
  unfold rnd, rnd_man. cbv zeta. rewrite HT.
  set (P := D * 2 ^ rnd_exp N D).
  assert (0 < P).
  { unfold P. pose proof (pow2_pos (rnd_exp N D)). pose proof (rnd_exp_ge N D). nia. }
  replace (D * c * 2 ^ rnd_exp N D) with (P * c) by (unfold P; ring).
  rewrite Z.div_mul_cancel_r, Z.mul_mod_distr_r by lia.
  f_equal. unfold RNE.
  replace (2 * (N mod P * c)) with (c * (2 * (N mod P))) by ring.
  replace (P * c) with (c * P) by ring.
  rewrite compare_mul_pos by lia. reflexivity.
Qed.

Lemma rnd_ratio (s : bool) (N1 D1 N2 D2 : Z) :
  0 < D1 -> 0 < D2 -> N1 * D2 = N2 * D1 -> rnd s N1 D1 = rnd s N2 D2.
Proof.
  intros H1 H2 Heq.
  rewrite <- (rnd_scale s N1 D1 D2), <- (rnd_scale s N2 D2 D1) by lia.
  rewrite Heq. f_equal. ring.
Qed.

Lemma rnd_quot_normal (N D : Z) :
  0 <= N -> 0 < D -> 1074 < rnd_exp N D -> 2 ^ 52 <= N / (D * 2 ^ rnd_exp N D).
Proof.
  intros HN HD HT. unfold rnd_exp in *.
  assert (0 <= N / D) as Hv by (apply Z.div_pos; lia).
  assert (N / D <> 0) as Hv0 by (intros H0; rewrite H0 in HT; simpl in HT; lia).
  pose proof (Z.log2_spec (N / D) ltac:(lia)) as [Hlo _].
  replace (Z.max (Z.log2 (N / D) - 52) 1074) with (Z.log2 (N / D) - 52) by lia.
  rewrite <- Z.div_div by (try apply pow2_pos; lia).
  apply Z.div_le_lower_bound; [apply pow2_pos; lia|].
  rewrite <- pow2_split by lia.
  replace (Z.log2 (N / D) - 52 + 52) with (Z.log2 (N / D)) by lia. exact Hlo.
Qed.

Lemma log2_lt_53 (m : Z) : 0 < m < 2 ^ 53 -> Z.log2 m + 1 <= 53.
Proof. intros Hm. assert (Z.log2 m < 53) by (apply Z.log2_lt_pow2; lia). lia. Qed.

Lemma log2_ge_52 (m : Z) : 2 ^ 52 <= m -> 52 <= Z.log2 m.
Proof. intros Hm. apply Z.log2_le_pow2; lia. Qed.

(** What [rnd] returns is a double of the format. *)
Lemma rnd_valid (s : bool) (N D : Z) :
  0 <= N -> 0 < D -> B64.valid (rnd s N D) = true.
Proof.
  intros HN HD.
  pose proof (rnd_man_bounds N D HN HD) as Hm.
  pose proof (rnd_exp_ge N D) as HT.
  unfold rnd, encode.
  destruct (Z.eqb_spec (rnd_man N D) 0) as [|Hm0]; [reflexivity|].
  destruct (Z.eqb_spec (rnd_man N D) (2 ^ 53)) as [Hm53|Hm53].
  - destruct (rnd_exp N D - 2148 + 1 <=? 971) eqn:Hle; [|reflexivity].
    apply Z.leb_le in Hle. apply valid_finite_intro.
    + lia.
    + change (Z.to_pos (2 ^ 52)) with (2 ^ 52)%positive. by vm_compute.
    + left. by vm_compute.
  - destruct (rnd_exp N D - 2148 <=? 971) eqn:Hle; [|reflexivity].
    apply Z.leb_le in Hle.
    assert (Z.pos (Z.to_pos (rnd_man N D)) = rnd_man N D) as Hpos
      by (apply Z2Pos.id; lia).
    apply valid_finite_intro.
    + lia.
    + rewrite digits2_pos_log2, Hpos. apply log2_lt_53. lia.
    + destruct (Z.eq_dec (rnd_exp N D) 1074) as [HT0|HT0]; [right; lia | left].
      rewrite digits2_pos_log2, Hpos.
      pose proof (rnd_quot_normal N D HN HD ltac:(lia)) as Hq.
      pose proof (RNE_bounds (N / (D * 2 ^ rnd_exp N D)) (N mod (D * 2 ^ rnd_exp N D))
                    (D * 2 ^ rnd_exp N D)) as Hr.
      assert (52 <= Z.log2 (rnd_man N D))
        by (apply log2_ge_52; unfold rnd_man; cbv zeta; lia).
      pose proof (log2_lt_53 (rnd_man N D) ltac:(lia)). lia.
Qed.

Lemma new_location_locates (nb k S : Z) :
  0 < nb -> 0 <= k < nb -> 0 < S -> locates (new_location nb k) (k * S) (nb * S).
Proof.
  intros Hnb Hk HS. unfold new_location, new_location_even, new_location_odd.
  assert ((2 * (k * S) ?= nb * S) = (2 * k ?= nb)) as Hcmp.
  { replace (2 * (k * S)) with (S * (2 * k)) by ring.
    replace (nb * S) with (S * nb) by ring. by apply compare_mul_pos. }
  destruct (Z.even nb) eqn:Hev; destruct (Z.eqb_spec k 0) as [->|Hk0]; simpl.
  - lia.
  - split; [nia | exact Hcmp].
  - lia.
  - split; [nia|]. rewrite Hcmp.
    assert (Z.odd nb = true) as Hodd by (rewrite <- Z.negb_even, Hev; reflexivity).
    apply Z.odd_spec in Hodd as [j Hj].
    destruct (Z.compare_spec (2 * k + 1) nb) as [H|H|H].
    + apply Z.compare_lt_iff. lia.
    + apply Z.compare_lt_iff. lia.
    + apply Z.compare_gt_iff. lia.
Qed.

(** Division of finite doubles: the double nearest to the quotient. *)
Lemma div_finite_rnd (sx sy : bool) (mx my : positive) (ex ey : Z) :
  -1074 <= ex <= 971 -> -1074 <= ey <= 971 ->
  B64.div (S754_finite sx mx ex) (S754_finite sy my ey) =
  rnd (xorb sx sy) (Z.pos mx * 2 ^ (ex - ey + 2148)) (Z.pos my).
Proof.
  intros Hex Hey. unfold B64.div, SFdiv, SFdiv_core_binary.
  change (Zdigits2 (Z.pos mx)) with (Z.pos (digits2_pos mx)).
  change (Zdigits2 (Z.pos my)) with (Z.pos (digits2_pos my)).
  set (d1 := Z.pos (digits2_pos mx)). set (d2 := Z.pos (digits2_pos my)).
  set (f0 := fexp B64.prec B64.emax (d1 + ex - (d2 + ey))).
  set (e' := Z.min f0 (ex - ey)).
  set (sh := ex - ey - e').
  assert (0 <= sh) as Hsh by (unfold sh, e'; lia).
  assert (-2148 <= e') as He'.
  { unfold e', f0. rewrite fexp64. lia. }
  set (m' := match sh with Z.pos _ => Z.shiftl (Z.pos mx) sh | 0 => Z.pos mx | Z.neg _ => 0 end).
  assert (m' = Z.pos mx * 2 ^ sh) as Hm'.
  { unfold m'. destruct sh as [|p|p]; [simpl; lia | | lia].
    by rewrite Z.shiftl_mul_pow2 by lia. }
  pose proof (Z_div_mod m' (Z.pos my) ltac:(lia)) as Hdm.
  destruct (Z.div_eucl m' (Z.pos my)) as [q r]. destruct Hdm as [Hdm Hr].
  pose proof (pow2_pos sh Hsh) as Hpsh.
  pose proof (pow2_pos (e' + 2148) ltac:(lia)) as HpS.
  assert (2 ^ (ex - ey + 2148) = 2 ^ sh * 2 ^ (e' + 2148)) as Hsplit.
  { rewrite <- pow2_split by lia. f_equal. unfold sh. lia. }
  assert (0 <= q) as Hq by nia.
  set (S := 2 ^ (e' + 2148)) in *.
  assert (Z.pos mx * 2 ^ (ex - ey + 2148) - q * (S * Z.pos my) = r * S) as Hrem.
  { rewrite Hsplit. replace (Z.pos mx * (2 ^ sh * S)) with (m' * S) by (rewrite Hm'; ring).
    rewrite Hdm. ring. }
  apply binary_round_aux_rnd; try lia.
  - fold S. split; [lia|]. nia.
  - fold S. rewrite Hrem. replace (S * Z.pos my) with (Z.pos my * S) by ring.
    apply new_location_locates; lia.
  - rewrite fexp64.
    destruct (Z_le_gt_dec e' (-1074)) as [|Hnorm]; [lia|].
    assert (d1 + ex - (d2 + ey) - 53 >= e') as Hf0.
    { unfold e', f0 in Hnorm |- *. rewrite fexp64 in *. lia. }
    pose proof (digits2_pos_bounds mx) as Hmx. fold d1 in Hmx.
    pose proof (digits2_pos_bounds my) as Hmy. fold d2 in Hmy.
    assert (0 < d1 /\ 0 < d2) as [Hd1 Hd2] by (unfold d1, d2; lia).
    assert (2 ^ 52 <= q) as Hq52.
    { assert (2 ^ (d2 + 52) <= 2 ^ (d1 - 1 + sh)) as Hpw
        by (apply pow2_le; unfold sh; lia).
      rewrite (pow2_split d2 52), (pow2_split (d1 - 1) sh) in Hpw by lia.
      assert (2 ^ (d1 - 1) * 2 ^ sh <= m') by (rewrite Hm'; nia).
      assert (m' < (q + 1) * Z.pos my) by lia.
      assert ((q + 1) * Z.pos my <= (q + 1) * 2 ^ d2) by nia.
      pose proof (pow2_pos d2 ltac:(lia)).
      assert (2 ^ d2 * 2 ^ 52 < (q + 1) * 2 ^ d2) by lia.
      nia. }
    rewrite Zdigits2_log2 by lia.
    pose proof (log2_ge_52 q Hq52). lia.
Qed.

Lemma binary_normalize_round_int (S ez : Z) :
  -2148 <= ez ->
  binary_normalize B64.prec B64.emax S ez false = round_int (S * 2 ^ (ez + 2148)).
Proof.
  intros Hez. pose proof (pow2_pos (ez + 2148) ltac:(lia)) as Hp.
  unfold binary_normalize, round_int. destruct S as [|p|p].
  - reflexivity.
  - rewrite binary_round_rnd by lia.
    destruct (Z.pos p * 2 ^ (ez + 2148)) eqn:HV; [nia | reflexivity | nia].
  - rewrite binary_round_rnd by lia.
    destruct (Z.neg p * 2 ^ (ez + 2148)) eqn:HV; [nia | nia |].
    f_equal. rewrite <- HV. lia.
Qed.

Lemma ord_aligned (s : bool) (m : positive) (e ez : Z) :
  -2148 <= ez <= e ->
  cond_Zopp s (Z.pos (fst (shl_align m e ez))) * 2 ^ (ez + 2148) =
  ord (S754_finite s m e).
Proof.
  intros He. destruct (shl_align_spec m e ez) as [_ ->].
  replace (Z.min e ez) with ez by lia.
  rewrite ord_finite.
  replace (e + 2148) with (e - ez + (ez + 2148)) by lia.
  rewrite (pow2_split (e - ez) (ez + 2148)) by lia. destruct s; simpl; ring.
Qed.

(** Addition and subtraction of finite doubles are exact, up to the one
    rounding at the end. *)
Lemma add_finite_rnd (sx sy : bool) (mx my : positive) (ex ey : Z) :
  -2148 <= ex -> -2148 <= ey ->
  B64.add (S754_finite sx mx ex) (S754_finite sy my ey) =
  round_int (ord (S754_finite sx mx ex) + ord (S754_finite sy my ey)).
Proof.
  intros Hex Hey. unfold B64.add, SFadd.
  rewrite binary_normalize_round_int by lia.
  rewrite Z.mul_add_distr_r, !ord_aligned by lia. reflexivity.
Qed.

Lemma sub_finite_rnd (sx sy : bool) (mx my : positive) (ex ey : Z) :
  -2148 <= ex -> -2148 <= ey ->
  B64.sub (S754_finite sx mx ex) (S754_finite sy my ey) =
  round_int (ord (S754_finite sx mx ex) - ord (S754_finite sy my ey)).
Proof.
  intros Hex Hey. unfold B64.sub, SFsub.
  rewrite binary_normalize_round_int by lia.
  rewrite Z.mul_sub_distr_r, !ord_aligned by lia. reflexivity.
Qed.

(** ** Order *)

Lemma pow2_mul_lt (m a T b : Z) :
  0 <= m < 2 ^ a -> 0 <= a -> 0 <= T -> a + T <= b -> m * 2 ^ T < 2 ^ b.
Proof.
  intros Hm Ha HT Hb. pose proof (pow2_pos T HT) as Hp.
  apply Z.lt_le_trans with (2 ^ a * 2 ^ T).
  - apply Z.mul_lt_mono_pos_r; lia.
  - rewrite <- pow2_split by lia. apply pow2_le. lia.
Qed.

Lemma pow2_mul_ge (m a T b : Z) :
  2 ^ a <= m -> 0 <= a -> 0 <= T -> b <= a + T -> 0 <= b -> 2 ^ b <= m * 2 ^ T.
Proof.
  intros Hm Ha HT Hb Hb0. pose proof (pow2_pos T HT) as Hp.
  apply Z.le_trans with (2 ^ a * 2 ^ T).
  - rewrite <- pow2_split by lia. apply pow2_le. lia.
  - apply Z.mul_le_mono_nonneg_r; lia.
Qed.

Lemma ord_inf_pos : 0 < ord_inf.
Proof. apply pow2_pos. lia. Qed.

Lemma grid_nonneg (N D : Z) : 0 <= N -> 0 < D -> 0 <= grid N D <= ord_inf.
Proof.
  intros HN HD. unfold grid.
  pose proof (rnd_man_bounds N D HN HD) as [Hm _].
  pose proof (rnd_exp_ge N D) as HT.
  pose proof (pow2_pos (rnd_exp N D) ltac:(lia)) as Hp.
  pose proof ord_inf_pos as Hinf.
  assert (0 <= rnd_man N D * 2 ^ rnd_exp N D) by (apply Z.mul_nonneg_nonneg; lia).
  lia.
Qed.

Lemma ord_rnd (s : bool) (N D : Z) :
  0 <= N -> 0 < D -> ord (rnd s N D) = cond_Zopp s (grid N D).
Proof.
  intros HN HD.
  pose proof (rnd_man_bounds N D HN HD) as Hm.
  pose proof (rnd_exp_ge N D) as HT.
  pose proof (pow2_pos (rnd_exp N D) ltac:(lia)) as Hp.
  pose proof ord_inf_pos as Hinf.
  unfold rnd, encode, grid.
  pose proof (rnd_quot_normal N D HN HD) as Hq.
  pose proof (RNE_bounds (N / (D * 2 ^ rnd_exp N D)) (N mod (D * 2 ^ rnd_exp N D))
                (D * 2 ^ rnd_exp N D)) as Hr.
  change (RNE _ _ _) with (rnd_man N D) in Hr.
  set (m := rnd_man N D) in *. set (T := rnd_exp N D) in *.
  destruct (Z.eqb_spec m 0) as [->|Hm0].
  - cbn [ord]. rewrite Z.mul_0_l, Z.min_l by lia. by destruct s.
  - destruct (Z.eqb_spec m (2 ^ 53)) as [Hm53|Hm53].
    + destruct (Z.leb_spec (T - 2148 + 1) 971) as [Hle|Hgt].
      * change (Z.to_pos (2 ^ 52)) with (2 ^ 52)%positive.
        rewrite ord_finite. f_equal.
        change (Z.pos (2 ^ 52)) with (2 ^ 52).
        replace (T - 2148 + 1 + 2148) with (1 + T) by lia.
        rewrite (pow2_split 1 T), Hm53 by lia.
        replace (2 ^ 52 * (2 ^ 1 * 2 ^ T)) with (2 ^ 53 * 2 ^ T)
          by (change (2 ^ 53) with (2 ^ 52 * 2 ^ 1); ring).
        assert (2 ^ 53 * 2 ^ T < ord_inf)
          by (apply (pow2_mul_lt _ 54); [split; [|reflexivity] |..]; lia).
        lia.
      * cbn [ord]. f_equal. rewrite Hm53.
        assert (ord_inf <= 2 ^ 53 * 2 ^ T) by (apply (pow2_mul_ge _ 53); lia).
        lia.
    + destruct (Z.leb_spec (T - 2148) 971) as [Hle|Hgt].
      * rewrite ord_finite. f_equal. rewrite Z2Pos.id by lia.
        replace (T - 2148 + 2148) with T by lia.
        assert (m * 2 ^ T < ord_inf) by (apply (pow2_mul_lt _ 53); lia).
        lia.
      * cbn [ord]. f_equal.
        assert (ord_inf <= m * 2 ^ T) by (apply (pow2_mul_ge _ 52); lia).
        lia.
Qed.

Lemma div_le_cross (N1 D1 N2 D2 : Z) :
  0 < D1 -> 0 < D2 -> N1 * D2 <= N2 * D1 -> N1 / D1 <= N2 / D2.
Proof.
  intros H1 H2 Hle.
  rewrite <- (Z.div_mul_cancel_r N1 D1 D2), <- (Z.div_mul_cancel_r N2 D2 D1) by lia.
  replace (D2 * D1) with (D1 * D2) by ring.
  apply Z.div_le_mono; nia.
Qed.

Lemma RNE_mono (q r1 P1 r2 P2 : Z) :
  0 < P1 -> 0 < P2 -> 0 <= r1 -> 0 <= r2 -> r1 * P2 <= r2 * P1 ->
  RNE q r1 P1 <= RNE q r2 P2.
Proof.
  intros HP1 HP2 Hr1 Hr2 Hle. unfold RNE.
  destruct (Z.compare_spec (2 * r1) P1) as [H1|H1|H1];
    destruct (Z.compare_spec (2 * r2) P2) as [H2|H2|H2];
    destruct (Z.even q); try lia; exfalso; nia.
Qed.

(** Rounding is monotone: a larger value does not round to a smaller
    double. *)
Lemma grid_mono (N1 D1 N2 D2 : Z) :
  0 <= N1 -> 0 < D1 -> 0 < D2 -> N1 * D2 <= N2 * D1 -> grid N1 D1 <= grid N2 D2.
Proof.
  intros HN1 HD1 HD2 Hle.
  assert (0 <= N2) as HN2 by nia.
  assert (N1 / D1 <= N2 / D2) as Hv by (by apply div_le_cross).
  assert (0 <= N1 / D1) as Hv1 by (apply Z.div_pos; lia).
  assert (rnd_exp N1 D1 <= rnd_exp N2 D2) as HT.
  { unfold rnd_exp. pose proof (Z.log2_le_mono _ _ Hv). lia. }
  pose proof (rnd_exp_ge N1 D1) as HT1.
  pose proof (rnd_man_bounds N1 D1 HN1 HD1) as Hm1.
  pose proof (rnd_man_bounds N2 D2 HN2 HD2) as Hm2.
  unfold grid. apply Z.min_le_compat_r.
  destruct (Z.eq_dec (rnd_exp N1 D1) (rnd_exp N2 D2)) as [Heq|Hne].
  - rewrite <- Heq. apply Z.mul_le_mono_nonneg_r; [apply Z.lt_le_incl, pow2_pos; lia|].
    unfold rnd_man. cbv zeta. rewrite <- Heq.
    set (W := 2 ^ rnd_exp N1 D1).
    assert (0 < W) as HW by (apply pow2_pos; lia).
    assert (0 < D1 * W /\ 0 < D2 * W) as [HP1 HP2] by nia.
    assert (N1 / (D1 * W) <= N2 / (D2 * W)) as Hq by (apply div_le_cross; nia).
    pose proof (Z.div_mod N1 (D1 * W) ltac:(lia)) as Hdm1.
    pose proof (Z.div_mod N2 (D2 * W) ltac:(lia)) as Hdm2.
    pose proof (Z.mod_pos_bound N1 (D1 * W) HP1) as Hr1.
    pose proof (Z.mod_pos_bound N2 (D2 * W) HP2) as Hr2.
    destruct (Z.eq_dec (N1 / (D1 * W)) (N2 / (D2 * W))) as [Hqq|Hqq].
    + rewrite <- Hqq in *. apply RNE_mono; try lia.
      set (q := N1 / (D1 * W)) in *. set (r1 := N1 mod (D1 * W)) in *.
      set (r2 := N2 mod (D2 * W)) in *. set (P1 := D1 * W) in *. set (P2 := D2 * W) in *.
      assert (N1 * P2 <= N2 * P1) by (unfold P1, P2; nia).
      nia.
    + pose proof (RNE_bounds (N1 / (D1 * W)) (N1 mod (D1 * W)) (D1 * W)).
      pose proof (RNE_bounds (N2 / (D2 * W)) (N2 mod (D2 * W)) (D2 * W)).
      lia.
  - pose proof (rnd_quot_normal N2 D2 HN2 HD2 ltac:(lia)) as Hq2.
    pose proof (RNE_bounds (N2 / (D2 * 2 ^ rnd_exp N2 D2)) (N2 mod (D2 * 2 ^ rnd_exp N2 D2))
                  (D2 * 2 ^ rnd_exp N2 D2)) as Hr2.
    assert (2 ^ 52 <= rnd_man N2 D2) as Hm2' by (unfold rnd_man; cbv zeta; lia).
    assert (2 ^ (rnd_exp N1 D1 + 1) <= 2 ^ rnd_exp N2 D2) as Hpw by (apply pow2_le; lia).
    rewrite pow2_split, Z.pow_1_r in Hpw by lia.
    pose proof (pow2_pos (rnd_exp N1 D1) ltac:(lia)) as Hp1.
    change (2 ^ 53) with (2 ^ 52 * 2) in Hm1.
    assert (0 < 2 ^ 52) by (by apply pow2_pos).
    set (W1 := 2 ^ rnd_exp N1 D1) in *. set (W2 := 2 ^ rnd_exp N2 D2) in *.
    set (a := rnd_man N1 D1) in *. set (b := rnd_man N2 D2) in *.
    set (K := 2 ^ 52) in *.
    assert (a * W1 <= K * 2 * W1) by nia.
    assert (K * (W1 * 2) <= K * W2) by nia.
    assert (K * W2 <= b * W2) by nia.
    lia.
Qed.

Lemma valid_mantissa_lt (s : bool) (m : positive) (e : Z) :
  B64.valid (S754_finite s m e) = true -> Z.pos m < 2 ^ 53.
Proof.
  intros Hv. apply valid_finite_inv in Hv as (_ & Hd & _).
  pose proof (digits2_pos_bounds m) as [_ Hm].
  eapply Z.lt_le_trans; [exact Hm|]. apply pow2_le. lia.
Qed.

Lemma valid_mantissa_normal (s : bool) (m : positive) (e : Z) :
  B64.valid (S754_finite s m e) = true -> -1074 < e -> 2 ^ 52 <= Z.pos m.
Proof.
  intros Hv He. apply valid_finite_inv in Hv as (_ & _ & [Hd|]); [|lia].
  pose proof (digits2_pos_bounds m) as [Hm _]. by rewrite Hd in Hm.
Qed.

(** Finite doubles stay below the place of the infinities. *)
Lemma valid_magnitude_lt (s : bool) (m : positive) (e : Z) :
  B64.valid (S754_finite s m e) = true ->
  0 < Z.pos m * 2 ^ (e + 2148) < ord_inf.
Proof.
  intros Hv. pose proof (valid_mantissa_lt s m e Hv) as Hm.
  apply valid_finite_inv in Hv as (He & _ & _).
  pose proof (pow2_pos (e + 2148) ltac:(lia)) as Hp.
  split; [apply Z.mul_pos_pos; lia|].
  apply (pow2_mul_lt _ 53); lia.
Qed.

(** Among canonical representations the exponent decides first. *)
Lemma valid_magnitude_exp_lt (s1 s2 : bool) (m1 m2 : positive) (e1 e2 : Z) :
  B64.valid (S754_finite s1 m1 e1) = true ->
  B64.valid (S754_finite s2 m2 e2) = true ->
  e1 < e2 ->
  Z.pos m1 * 2 ^ (e1 + 2148) < Z.pos m2 * 2 ^ (e2 + 2148).
Proof.
  intros Hv1 Hv2 Hlt.
  pose proof (valid_mantissa_lt _ _ _ Hv1) as Hm1.
  apply valid_finite_inv in Hv1 as (He1 & _ & _).
  pose proof (valid_mantissa_normal _ _ _ Hv2 ltac:(lia)) as Hm2.
  pose proof (pow2_pos (e1 + 2148) ltac:(lia)) as Hp.
  assert (2 ^ (e1 + 2148 + 1) <= 2 ^ (e2 + 2148)) as Hle by (apply pow2_le; lia).
  rewrite pow2_split, Z.pow_1_r in Hle by lia.
  change (2 ^ 53) with (2 ^ 52 * 2) in Hm1.
  assert (0 < 2 ^ 52) by (by apply pow2_pos).
  set (W1 := 2 ^ (e1 + 2148)) in *. set (W2 := 2 ^ (e2 + 2148)) in *.
  set (K := 2 ^ 52) in *.
  assert (Z.pos m1 * W1 < K * 2 * W1) by nia.
  assert (K * (W1 * 2) <= K * W2) by nia.
  assert (K * W2 <= Z.pos m2 * W2) by nia.
  lia.
Qed.

Lemma compare_opp (a b : Z) : (- a ?= - b) = CompOpp (a ?= b).
Proof. rewrite Z.compare_opp. apply Z.compare_antisym. Qed.

(** On the doubles of the format, C's comparison is the comparison of the
    values. *)
Lemma compare_ord (x y : double) :
  B64.valid x = true -> B64.valid y = true ->
  B64.is_nan x = false -> B64.is_nan y = false ->
  SFcompare x y = Some (ord x ?= ord y).
Proof.
  intros Hvx Hvy Hnx Hny.
  pose proof ord_inf_pos as Hinf.
  destruct x as [sx|sx| |sx mx ex], y as [sy|sy| |sy my ey]; try discriminate;
    try pose proof (valid_magnitude_lt _ _ _ Hvx) as Hmx;
    try pose proof (valid_magnitude_lt _ _ _ Hvy) as Hmy;
    cbn [SFcompare ord].
  1-8: try (destruct sx); try (destruct sy); cbn [cond_Zopp]; try reflexivity;
    f_equal; symmetry;
    first [apply Z.compare_eq_iff; lia | apply Z.compare_lt_iff; lia
          | apply Z.compare_gt_iff; lia].
  assert (forall (s1 s2 : bool) (m1 m2 : positive) (e1 e2 : Z),
              B64.valid (S754_finite s1 m1 e1) = true ->
              B64.valid (S754_finite s2 m2 e2) = true ->
              match e1 ?= e2 with
              | Eq => Pos.compare_cont Eq m1 m2
              | Lt => Lt
              | Gt => Gt
              end = (Z.pos m1 * 2 ^ (e1 + 2148) ?= Z.pos m2 * 2 ^ (e2 + 2148))) as Hmag.
  { intros s1 s2 m1 m2 e1 e2 H1 H2.
    destruct (Z.compare_spec e1 e2) as [->|Hlt|Hgt].
    - rewrite !(Z.mul_comm (Z.pos _)), compare_mul_pos; [reflexivity|].
      apply valid_finite_inv in H2 as (? & _ & _). apply pow2_pos. lia.
    - symmetry. apply Z.compare_lt_iff. by eapply valid_magnitude_exp_lt.
    - symmetry. apply Z.compare_gt_iff. by eapply valid_magnitude_exp_lt. }
  destruct sx, sy; cbn [cond_Zopp]; f_equal.
  - rewrite compare_opp, <- (Hmag true true) by done.
    by destruct (ex ?= ey).
  - symmetry. apply Z.compare_lt_iff. lia.
  - symmetry. apply Z.compare_gt_iff. lia.
  - by apply (Hmag false false).
Qed.

Lemma leb_ord (x y : double) :
  B64.valid x = true -> B64.valid y = true ->
  B64.is_nan x = false -> B64.is_nan y = false ->
  B64.leb x y = true <-> ord x <= ord y.
Proof.
  intros Hvx Hvy Hnx Hny. unfold B64.leb, SFleb.
  rewrite (compare_ord x y) by done.
  destruct (Z.compare_spec (ord x) (ord y)); split; try done; lia.
Qed.

(** ** Special values through the formula *)

Lemma mul_nan_r (v : double) : (v * S754_nan)%D = S754_nan.
Proof. by destruct v. Qed.

Lemma add_nan_r (v : double) : (v + S754_nan)%D = S754_nan.
Proof. by destruct v. Qed.

Lemma two_is : B64.two = S754_finite false 4503599627370496 (-51).
Proof. reflexivity. Qed.

Lemma one_plus_one : (B64.one + S754_finite false 4503599627370496 (-52))%D = B64.two.
Proof. by vm_compute. Qed.

Lemma one_minus_one : (B64.one + S754_finite true 4503599627370496 (-52))%D = B64.zero.
Proof. by vm_compute. Qed.

Lemma zero_times_sqrt2 (s : bool) : (S754_zero s * B64.sqrt B64.two)%D = S754_zero s.
Proof. rewrite sqrt2_is. by destruct s. Qed.

(** The value of the formula when sigma is a zero, by the numerator
    [x[0] - a[1]]. *)
Lemma gaussian_cdf_sigma_zero (erf : double -> double) (x0 a0 a1 a3 : double) (s : bool) :
  erf_contract erf ->
  gaussian_cdf erf x0 a0 a1 (S754_zero s) a3 =
  match (x0 - a1)%D with
  | S754_nan | S754_zero _ => S754_nan
  | S754_infinity sn | S754_finite sn _ _ =>
      (B64.half * a0 * (if xorb sn s then B64.zero else B64.two) + a3)%D
  end.
Proof.
  intros [Hz Hi Hn]. unfold gaussian_cdf. rewrite zero_times_sqrt2.
  destruct (x0 - a1)%D as [sn|sn| |sn mn en]; cbn [B64.div SFdiv].
  - by rewrite Hn, add_nan_r, mul_nan_r.
  - rewrite Hi. destruct (xorb sn s); by rewrite ?one_plus_one, ?one_minus_one.
  - by rewrite Hn, add_nan_r, mul_nan_r.
  - rewrite Hi. destruct (xorb sn s); by rewrite ?one_plus_one, ?one_minus_one.
Qed.

(** C6, as stated, fails.  With sigma 0.0 at [x = 1.0], [mu = 0.0],
    amplitude 2.0 and offset 1.0 the division gives [+inf], [erf] of it is
    1, and the value stored is the finite 3.0: neither an infinity nor a
    NaN. *)
Lemma GetFunctionValue_sigma_zero_finite :
  exists m',
    GetFunctionValue erf_sign host_mem_sigma0 (Ptr 1 0) (Ptr 2 0) (Ptr 3 0) = Ret m' /\
    cell m' (Ptr 3 0) = Some (Vdouble (B64.lit 3 0)) /\
    ((B64.one - B64.zero) / (B64.zero * B64.sqrt B64.two))%D = B64.pinf /\
    B64.is_finite (B64.lit 3 0) = true.
Proof. eexists. vm_compute. repeat split. Qed.

(** C6, amended.  With sigma a zero of sign [s] the call returns as ever.
    The divisor [sigma * sqrt(2)] is that zero; the quotient is NaN when
    the numerator [x[0] - a[1]] is zero or NaN and an infinity otherwise,
    of the sign of the numerator times the sign of the zero; [erf] takes
    the infinities to 1 and -1, so the value stored is
    [0.5 * a[0] * 2 + a[3]] or [0.5 * a[0] * 0 + a[3]], and NaN in the NaN
    case. *)
Theorem GetFunctionValue_sigma_zero (erf : double -> double) (m : mem) (x a y : ptr)
    (x0 a0 a1 a3 : double) (s : bool) :
  erf_contract erf ->
  reads_doubles m x [x0] ->
  reads_doubles m a [a0; a1; S754_zero s; a3] ->
  is_Some (cell m y) ->
  exists m',
    GetFunctionValue erf m x a y = Ret m' /\
    ((x0 - a1) / (S754_zero s * B64.sqrt B64.two))%D =
      match (x0 - a1)%D with
      | S754_nan | S754_zero _ => S754_nan
      | S754_infinity sn | S754_finite sn _ _ => S754_infinity (xorb sn s)
      end /\
    cell m' y =
      Some (Vdouble
        match (x0 - a1)%D with
        | S754_nan | S754_zero _ => S754_nan
        | S754_infinity sn | S754_finite sn _ _ =>
            (B64.half * a0 * (if xorb sn s then B64.zero else B64.two) + a3)%D
        end).
Proof.
  intros Herf Hx Ha Hy.
  destruct (GetFunctionValue_formula_core erf m x a y x0 a0 a1 (S754_zero s) a3 Hx Ha Hy)
    as (m' & Hret & Hcell).
  exists m'. split; [exact Hret|]. split.
  - rewrite zero_times_sqrt2. by destruct (x0 - a1)%D.
  - rewrite Hcell. by rewrite gaussian_cdf_sigma_zero.
Qed.

Lemma GetFunctionValue_sigma_zero_witness :
  exists m',
    GetFunctionValue erf_sign host_mem_sigma0 (Ptr 1 0) (Ptr 2 0) (Ptr 3 0) = Ret m' /\
    cell m' (Ptr 3 0) = Some (Vdouble (B64.half * B64.two * B64.two + B64.one)%D).
Proof.
  destruct (GetFunctionValue_sigma_zero erf_sign host_mem_sigma0 (Ptr 1 0) (Ptr 2 0) (Ptr 3 0)
              B64.one B64.two B64.zero B64.one false) as (m' & Hret & _ & Hcell).
  - exact erf_sign_contract.
  - intros [|k] d; simpl; [|discriminate]. intros [= <-]. reflexivity.
  - intros [|[|[|[|k]]]] d; simpl; try discriminate; intros [= <-]; reflexivity.
  - vm_compute. eauto.
  - exists m'. split; [exact Hret | exact Hcell].
Defined.

(** ** The value at [x = mu] *)

Lemma sub_self (mu : double) : B64.is_finite mu = true -> (mu - mu)%D = B64.zero.
Proof.
  destruct mu as [s|s| |s m e]; try discriminate; intros _.
  - by destruct s.
  - unfold B64.sub, SFsub. rewrite Z.min_id. unfold shl_align.
    rewrite Z.sub_diag. reflexivity.
Qed.

Lemma add_comm (u v : double) : (u + v)%D = (v + u)%D.
Proof.
  destruct u as [su|su| |su mu eu], v as [sv|sv| |sv mv ev]; try reflexivity.
  - by destruct su, sv.
  - by destruct su, sv.
  - unfold B64.add, SFadd. rewrite (Z.min_comm ev eu), Z.add_comm. reflexivity.
Qed.

Lemma add_one_zero (s : bool) : (B64.one + S754_zero s)%D = B64.one.
Proof. reflexivity. Qed.

(** Multiplying by 1.0 changes no double. *)
Lemma mul_one_r (v : double) : B64.valid v = true -> (v * B64.one)%D = v.
Proof.
  intros Hv. destruct v as [s|s| |s m e]; rewrite one_is.
  - by destruct s.
  - by destruct s.
  - reflexivity.
  - rewrite mul_finite_rnd by done. rewrite xorb_false_r.
    rewrite <- (rnd_representable s m e Hv). f_equal.
    apply valid_finite_inv in Hv as (He & _ & _).
    change (Z.pos 4503599627370496) with (2 ^ 52).
    replace (e + 2148) with (52 + (e + -52 + 2148)) by lia.
    rewrite (pow2_split 52) by lia. ring.
Qed.

(** Halving is the same double whether written [0.5 * v] or [v / 2]. *)
Lemma mul_half_div_two (v : double) :
  B64.valid v = true -> (B64.half * v)%D = (v / B64.two)%D.
Proof.
  intros Hv. rewrite half_is, two_is. destruct v as [s|s| |s m e]; try reflexivity.
  - by destruct s.
  - by destruct s.
  - rewrite mul_finite_rnd by done.
    apply valid_finite_inv in Hv as (He & _ & _).
    rewrite div_finite_rnd by lia.
    rewrite xorb_false_r. cbn [xorb].
    apply rnd_ratio; [lia | lia |].
    change (Z.pos 4503599627370496) with (2 ^ 52).
    replace (e - -51 + 2148) with (52 + 52 + (-53 + e + 2148)) by lia.
    rewrite (pow2_split (52 + 52)), (pow2_split 52 52) by lia. ring.
Qed.

Lemma mul_half_valid (v : double) : B64.valid v = true -> B64.valid (B64.half * v)%D = true.
Proof.
  intros Hv. rewrite half_is. destruct v as [s|s| |s m e]; try reflexivity.
  rewrite mul_finite_rnd by done. apply rnd_valid; [|lia].
  apply valid_finite_inv in Hv as (He & _ & _).
  pose proof (pow2_pos (-53 + e + 2148) ltac:(lia)). nia.
Qed.

(** The smallest positive double rounds to itself. *)
Lemma grid_min_subnormal : grid ord_min 1 = ord_min.
Proof.
  pose proof ord_inf_pos as Hinf.
  assert (0 < ord_min) as Hmin by (apply pow2_pos; lia).
  pose proof (ord_rnd false ord_min 1 ltac:(lia) ltac:(lia)) as Hord.
  assert (ord_min = Z.pos 1 * 2 ^ (-1074 + 2148)) as Heq
    by (unfold ord_min; rewrite Z.mul_1_l; reflexivity).
  rewrite Heq in Hord at 1.
  rewrite rnd_representable in Hord by reflexivity.
  rewrite ord_finite in Hord. rewrite <- Heq in Hord.
  symmetry. exact Hord.
Qed.

(** A product of magnitude at least the smallest positive double does not
    round to zero. *)
Lemma ord_rnd_nonzero (s : bool) (N : Z) : ord_min <= N -> ord (rnd s N 1) <> 0.
Proof.
  intros HN. assert (0 < ord_min) as Hmin by (apply pow2_pos; lia).
  rewrite ord_rnd by lia.
  pose proof (grid_mono ord_min 1 N 1 ltac:(lia) ltac:(lia) ltac:(lia) ltac:(lia)) as Hm.
  rewrite grid_min_subnormal in Hm. destruct s; simpl; lia.
Qed.

(** [sigma * sqrt(2)] is a proper divisor whenever sigma is: not zero and
    not NaN. *)
Lemma mul_sqrt2_nonzero (sigma : double) :
  B64.valid sigma = true -> B64.is_zero sigma = false -> B64.is_nan sigma = false ->
  B64.is_zero (sigma * B64.sqrt B64.two)%D = false /\
  B64.is_nan (sigma * B64.sqrt B64.two)%D = false.
Proof.
  intros Hv Hz Hn. rewrite sqrt2_is.
  destruct sigma as [s|s| |s m e]; try discriminate; [by split|].
  rewrite mul_finite_rnd by done.
  assert (ord (rnd (xorb s false)
                 (Z.pos m * Z.pos 6369051672525773 * 2 ^ (e + -52 + 2148)) 1) <> 0) as Hord.
  { apply ord_rnd_nonzero.
    apply valid_finite_inv in Hv as (He & _ & _).
    unfold ord_min. apply (pow2_mul_ge _ 52); lia. }
  destruct (rnd _ _ _); simpl in Hord; by split.
Qed.

Lemma div_zero_proper (s : bool) (d : double) :
  B64.is_zero d = false -> B64.is_nan d = false ->
  exists s', (S754_zero s / d)%D = S754_zero s'.
Proof. destruct d; try discriminate; intros _ _; eexists; reflexivity. Qed.

(** The value of the formula at [x = mu]. *)
Lemma gaussian_cdf_at_mu (erf : double -> double) (amplitude mu sigma offset : double) :
  erf_contract erf ->
  B64.valid amplitude = true -> B64.valid sigma = true ->
  B64.is_finite mu = true ->
  B64.is_zero sigma = false -> B64.is_nan sigma = false ->
  gaussian_cdf erf mu amplitude mu sigma offset = (offset + amplitude / B64.two)%D.
Proof.
  intros [Hz _ _] Hva Hvs Hmu Hs0 Hsn. unfold gaussian_cdf.
  rewrite sub_self by done. change B64.zero with (S754_zero false).
  destruct (mul_sqrt2_nonzero sigma Hvs Hs0 Hsn) as [Hd0 Hdn].
  destruct (div_zero_proper false _ Hd0 Hdn) as [s' ->].
  rewrite Hz, add_one_zero, mul_one_r by (by apply mul_half_valid).
  rewrite mul_half_div_two by done. apply add_comm.
Qed.

(** C4, as stated, fails: "every parameter array with sigma nonzero"
    includes an infinite [mu].  At [x = mu = +inf], with amplitude 2.0,
    sigma 1.0 and offset 1.0, the difference [x[0] - a[1]] is NaN and so is
    the value stored, where [offset + amplitude/2] is 2.0. *)
Lemma GetFunctionValue_at_infinite_mu :
  exists m',
    GetFunctionValue erf_sign host_mem_inf (Ptr 1 0) (Ptr 2 0) (Ptr 3 0) = Ret m' /\
    cell m' (Ptr 3 0) = Some (Vdouble B64.nan) /\
    (B64.pinf - B64.pinf)%D = B64.nan /\
    (B64.one + B64.two / B64.two)%D = B64.two /\
    B64.is_nan B64.two = false.
Proof. eexists. vm_compute. repeat split. Qed.

(** C4, amended.  For a finite [mu], a sigma that is neither zero nor NaN
    and any amplitude and offset, the value at [x[0] = mu] is exactly the
    double [offset + amplitude/2]: the difference is [+0], [erf] of the
    zero quotient is zero, multiplying by [1 + 0] changes nothing and
    [0.5 * amplitude] is [amplitude / 2].  In particular [x = [0.0]],
    [a = [2.0, 0.0, 1.0, 1.0]] gives 2.0. *)
Theorem GetFunctionValue_at_mu (erf : double -> double) (m : mem) (x a y : ptr) :
  erf_contract erf ->
  is_Some (cell m y) ->
  (forall amplitude mu sigma offset,
     B64.valid amplitude = true -> B64.valid sigma = true ->
     B64.is_finite mu = true ->
     B64.is_zero sigma = false -> B64.is_nan sigma = false ->
     reads_doubles m x [mu] ->
     reads_doubles m a [amplitude; mu; sigma; offset] ->
     exists m',
       GetFunctionValue erf m x a y = Ret m' /\
       cell m' y = Some (Vdouble (offset + amplitude / B64.two)%D)) /\
  (reads_doubles m x [B64.zero] ->
   reads_doubles m a [B64.two; B64.zero; B64.one; B64.one] ->
   exists m',
     GetFunctionValue erf m x a y = Ret m' /\
     cell m' y = Some (Vdouble B64.two)).
Proof.
  intros Herf Hy.
  assert (forall amplitude mu sigma offset,
     B64.valid amplitude = true -> B64.valid sigma = true ->
     B64.is_finite mu = true ->
     B64.is_zero sigma = false -> B64.is_nan sigma = false ->
     reads_doubles m x [mu] ->
     reads_doubles m a [amplitude; mu; sigma; offset] ->
     exists m',
       GetFunctionValue erf m x a y = Ret m' /\
       cell m' y = Some (Vdouble (offset + amplitude / B64.two)%D)) as Hgen.
  { intros amplitude mu sigma offset Hva Hvs Hmu Hs0 Hsn Hx Ha.
    destruct (GetFunctionValue_formula_core erf m x a y mu amplitude mu sigma offset
                Hx Ha Hy) as (m' & Hret & Hcell).
    exists m'. split; [exact Hret|].
    rewrite Hcell. by rewrite gaussian_cdf_at_mu. }
  split; [exact Hgen|].
  intros Hx Ha.
  destruct (Hgen B64.two B64.zero B64.one B64.one) as (m' & Hret & Hcell); try done.
  exists m'. split; [exact Hret|]. rewrite Hcell. by vm_compute.
Qed.

Lemma GetFunctionValue_at_mu_witness :
  (exists m',
     GetFunctionValue erf_sign host_mem (Ptr 1 0) (Ptr 2 0) (Ptr 3 0) = Ret m' /\
     cell m' (Ptr 3 0) = Some (Vdouble (B64.one + B64.two / B64.two)%D)) /\
  (exists m',
     GetFunctionValue erf_sign host_mem (Ptr 1 0) (Ptr 2 0) (Ptr 3 0) = Ret m' /\
     cell m' (Ptr 3 0) = Some (Vdouble B64.two)).
Proof.
  assert (reads_doubles host_mem (Ptr 1 0) [B64.zero]) as Hx.
  { intros [|k] d; simpl; [|discriminate]. intros [= <-]. reflexivity. }
  assert (reads_doubles host_mem (Ptr 2 0) [B64.two; B64.zero; B64.one; B64.one]) as Ha.
  { intros [|[|[|[|k]]]] d; simpl; try discriminate; intros [= <-]; reflexivity. }
  destruct (GetFunctionValue_at_mu erf_sign host_mem (Ptr 1 0) (Ptr 2 0) (Ptr 3 0)
              erf_sign_contract ltac:(vm_compute; eauto)) as [Hgen Hpart].
  split.
  - apply (Hgen B64.two B64.zero B64.one B64.one); try reflexivity; assumption.
  - apply Hpart; assumption.
Defined.

(** ** Monotonicity of the operations *)

Lemma rnd_not_nan (s : bool) (N D : Z) : B64.is_nan (rnd s N D) = false.
Proof.
  unfold rnd, encode. destruct (_ =? 0); [reflexivity|].
  destruct (_ =? 2 ^ 53); destruct (_ <=? 971); reflexivity.
Qed.

Lemma grid_0 (D : Z) : 0 < D -> grid 0 D = 0.
Proof.
  intros HD. unfold grid, rnd_man. cbv zeta.
  rewrite Z.div_0_l, Z.mod_0_l.
  - unfold RNE.
    assert ((2 * 0 ?= D * 2 ^ rnd_exp 0 D) = Lt) as ->.
    { apply Z.compare_lt_iff. pose proof (rnd_exp_ge 0 D).
      pose proof (pow2_pos (rnd_exp 0 D) ltac:(lia)). nia. }
    pose proof ord_inf_pos. lia.
  - pose proof (rnd_exp_ge 0 D). pose proof (pow2_pos (rnd_exp 0 D) ltac:(lia)). nia.
  - pose proof (rnd_exp_ge 0 D). pose proof (pow2_pos (rnd_exp 0 D) ltac:(lia)). nia.
Qed.

Lemma grid_ratio (N1 D1 N2 D2 : Z) :
  0 <= N1 -> 0 < D1 -> 0 < D2 -> N1 * D2 = N2 * D1 -> grid N1 D1 = grid N2 D2.
Proof.
  intros HN HD1 HD2 Heq. assert (0 <= N2) by nia.
  apply Z.le_antisymm; apply grid_mono; lia.
Qed.

Lemma signed_grid_0 (D : Z) : 0 < D -> signed_grid 0 D = 0.
Proof. intros HD. unfold signed_grid. simpl. by apply grid_0. Qed.

Lemma signed_grid_bound (V D : Z) : 0 < D -> - ord_inf <= signed_grid V D <= ord_inf.
Proof.
  intros HD. unfold signed_grid.
  pose proof (grid_nonneg (Z.abs V) D ltac:(lia) HD).
  destruct (V <? 0); simpl; lia.
Qed.

Lemma signed_grid_mono (V1 V2 D : Z) :
  0 < D -> V1 <= V2 -> signed_grid V1 D <= signed_grid V2 D.
Proof.
  intros HD Hle. unfold signed_grid.
  pose proof (grid_nonneg (Z.abs V1) D ltac:(lia) HD).
  pose proof (grid_nonneg (Z.abs V2) D ltac:(lia) HD).
  destruct (Z.ltb_spec V1 0), (Z.ltb_spec V2 0); cbn [cond_Zopp]; try lia.
  - pose proof (grid_mono (Z.abs V2) D (Z.abs V1) D ltac:(lia) HD HD ltac:(nia)). lia.
  - pose proof (grid_mono (Z.abs V1) D (Z.abs V2) D ltac:(lia) HD HD ltac:(nia)). lia.
Qed.

Lemma ord_round_int (V : Z) : ord (round_int V) = signed_grid V 1.
Proof.
  unfold round_int, signed_grid. destruct V as [|p|p].
  - rewrite grid_0 by lia. reflexivity.
  - rewrite ord_rnd by lia. reflexivity.
  - rewrite ord_rnd by lia. reflexivity.
Qed.

Lemma round_int_valid (V : Z) :
  B64.valid (round_int V) = true /\ B64.is_nan (round_int V) = false.
Proof.
  unfold round_int. destruct V as [|p|p]; [by split| |];
    (split; [apply rnd_valid; lia | apply rnd_not_nan]).
Qed.

(** A finite double is its own rounding. *)
Lemma signed_grid_representable (v : double) :
  B64.valid v = true -> B64.is_finite v = true -> signed_grid (ord v) 1 = ord v.
Proof.
  intros Hv Hf. destruct v as [s|s| |s m e]; try discriminate.
  - by apply signed_grid_0.
  - pose proof (valid_magnitude_lt s m e Hv) as [Hpos _].
    assert (grid (Z.pos m * 2 ^ (e + 2148)) 1 = Z.pos m * 2 ^ (e + 2148)) as Hg.
    { pose proof (ord_rnd false (Z.pos m * 2 ^ (e + 2148)) 1 ltac:(lia) ltac:(lia)) as Ho.
      rewrite (rnd_representable false m e) in Ho by exact Hv. symmetry. exact Ho. }
    rewrite ord_finite. unfold signed_grid.
    destruct s; cbn [cond_Zopp].
    + destruct (Z.ltb_spec (- (Z.pos m * 2 ^ (e + 2148))) 0); [|lia].
      rewrite Z.abs_opp, Z.abs_eq, Hg by lia. reflexivity.
    + destruct (Z.ltb_spec (Z.pos m * 2 ^ (e + 2148)) 0); [lia|].
      rewrite Z.abs_eq, Hg by lia. reflexivity.
Qed.

Lemma valid_opp (v : double) : B64.valid (SFopp v) = B64.valid v.
Proof. by destruct v. Qed.

Lemma ord_opp (v : double) : ord (SFopp v) = - ord v.
Proof. destruct v as [s|s| |s m e]; try reflexivity; destruct s; cbn; lia. Qed.

(** The order value of a finite double is short of the infinities. *)
Lemma ord_finite_bound (v : double) :
  B64.valid v = true -> B64.is_finite v = true -> - ord_inf < ord v < ord_inf.
Proof.
  intros Hv Hf. pose proof ord_inf_pos. destruct v as [s|s| |s m e]; try discriminate.
  - simpl. lia.
  - pose proof (valid_magnitude_lt s m e Hv). rewrite ord_finite.
    destruct s; cbn [cond_Zopp]; lia.
Qed.

(** Sums and differences of finite doubles. *)
Lemma add_finite_ord (u c : double) :
  B64.valid u = true -> B64.valid c = true ->
  B64.is_finite u = true -> B64.is_finite c = true ->
  ord (u + c)%D = signed_grid (ord u + ord c) 1 /\
  B64.valid (u + c)%D = true /\ B64.is_nan (u + c)%D = false.
Proof.
  intros Hu Hc Hfu Hfc.
  destruct u as [su|su| |su mu eu], c as [sc|sc| |sc mc ec]; try discriminate.
  - split; [|by destruct su, sc]. rewrite signed_grid_0 by lia. by destruct su, sc.
  - cbn [B64.add SFadd]. rewrite Z.add_0_l, signed_grid_representable by done. by split.
  - cbn [B64.add SFadd]. rewrite Z.add_0_r, signed_grid_representable by done. by split.
  - pose proof (valid_finite_inv _ _ _ Hu) as (? & _ & _).
    pose proof (valid_finite_inv _ _ _ Hc) as (? & _ & _).
    rewrite add_finite_rnd by lia. rewrite ord_round_int.
    split; [reflexivity | apply round_int_valid].
Qed.

Lemma sub_finite_ord (u c : double) :
  B64.valid u = true -> B64.valid c = true ->
  B64.is_finite u = true -> B64.is_finite c = true ->
  ord (u - c)%D = signed_grid (ord u - ord c) 1 /\
  B64.valid (u - c)%D = true /\ B64.is_nan (u - c)%D = false.
Proof.
  intros Hu Hc Hfu Hfc.
  destruct u as [su|su| |su mu eu], c as [sc|sc| |sc mc ec]; try discriminate.
  - split; [|by destruct su, sc]. rewrite signed_grid_0 by lia. by destruct su, sc.
  - cbn [B64.sub SFsub].
    change (S754_finite (negb sc) mc ec) with (SFopp (S754_finite sc mc ec)).
    rewrite Z.sub_0_l, <- ord_opp, signed_grid_representable
      by (rewrite ?valid_opp; done).
    rewrite valid_opp. by split.
  - cbn [B64.sub SFsub]. rewrite Z.sub_0_r, signed_grid_representable by done. by split.
  - pose proof (valid_finite_inv _ _ _ Hu) as (? & _ & _).
    pose proof (valid_finite_inv _ _ _ Hc) as (? & _ & _).
    rewrite sub_finite_rnd by lia. rewrite ord_round_int.
    split; [reflexivity | apply round_int_valid].
Qed.

Lemma cond_Zopp_xorb (a b : bool) (X : Z) :
  cond_Zopp (xorb a b) X = cond_Zopp b (cond_Zopp a X).
Proof. destruct a, b; simpl; lia. Qed.

Lemma ord_unit_pos : 0 < ord_unit.
Proof. apply pow2_pos. lia. Qed.

(** Products of finite doubles. *)
Lemma mul_finite_ord (c w : double) :
  B64.valid c = true -> B64.valid w = true ->
  B64.is_finite c = true -> B64.is_finite w = true ->
  ord (c * w)%D = signed_grid (ord c * ord w) ord_unit /\
  B64.valid (c * w)%D = true /\ B64.is_nan (c * w)%D = false.
Proof.
  intros Hc Hw Hfc Hfw. pose proof ord_unit_pos as HU.
  destruct c as [sc|sc| |sc mc ec], w as [sw|sw| |sw mw ew]; try discriminate.
  - cbn [ord]. rewrite Z.mul_0_l, signed_grid_0 by done. by split.
  - cbn [ord B64.mul SFmul]. rewrite Z.mul_0_l, signed_grid_0 by done. by split.
  - cbn [ord B64.mul SFmul]. rewrite Z.mul_0_r, signed_grid_0 by done. by split.
  - pose proof (valid_finite_inv _ _ _ Hc) as (Hec & _ & _).
    pose proof (valid_finite_inv _ _ _ Hw) as (Hew & _ & _).
    rewrite mul_finite_rnd by done.
    pose proof (pow2_pos (ec + ew + 2148) ltac:(lia)) as Hp.
    pose proof (pow2_pos (ec + 2148) ltac:(lia)) as Hpc.
    pose proof (pow2_pos (ew + 2148) ltac:(lia)) as Hpw.
    assert (2 ^ (ec + ew + 2148) * ord_unit = 2 ^ (ec + 2148) * 2 ^ (ew + 2148)) as Hpow.
    { unfold ord_unit. rewrite <- (pow2_split (ec + ew + 2148) 2148) by lia.
      rewrite <- (pow2_split (ec + 2148) (ew + 2148)) by lia. f_equal. lia. }
    split; [|split; [apply rnd_valid; nia | apply rnd_not_nan]].
    rewrite ord_rnd by nia. rewrite !ord_finite. unfold signed_grid.
    set (A := Z.pos mc * 2 ^ (ec + 2148)). set (B := Z.pos mw * 2 ^ (ew + 2148)).
    assert (0 < A /\ 0 < B) as [HA HB] by (unfold A, B; nia).
    assert (cond_Zopp sc A * cond_Zopp sw B = cond_Zopp (xorb sc sw) (A * B)) as ->
      by (destruct sc, sw; simpl; ring).
    assert (0 < A * B) as HAB by nia.
    assert ((cond_Zopp (xorb sc sw) (A * B) <? 0) = xorb sc sw) as ->.
    { destruct (xorb sc sw); cbn [cond_Zopp]; [apply Z.ltb_lt | apply Z.ltb_ge]; lia. }
    assert (Z.abs (cond_Zopp (xorb sc sw) (A * B)) = A * B) as ->
      by (destruct (xorb sc sw); cbn [cond_Zopp]; lia).
    f_equal. apply grid_ratio; [nia | lia | lia |].
    unfold A, B.
    set (P := 2 ^ (ec + ew + 2148)) in *. set (Pc := 2 ^ (ec + 2148)) in *.
    set (Pw := 2 ^ (ew + 2148)) in *.
    replace (Z.pos mc * Z.pos mw * P * ord_unit)
      with (Z.pos mc * Z.pos mw * (P * ord_unit)) by ring.
    rewrite Hpow. ring.
Qed.

(** Quotients of finite doubles by a finite divisor other than zero. *)
Lemma div_finite_ord (u d : double) :
  B64.valid u = true -> B64.valid d = true ->
  B64.is_finite u = true -> B64.is_finite d = true -> B64.is_zero d = false ->
  ord (u / d)%D = cond_Zopp (B64.sign d) (signed_grid (ord u * ord_unit) (Z.abs (ord d))) /\
  B64.valid (u / d)%D = true /\ B64.is_nan (u / d)%D = false.
Proof.
  intros Hu Hd Hfu Hfd Hzd. pose proof ord_unit_pos as HU.
  destruct d as [sd|sd| |sd md ed]; try discriminate.
  pose proof (valid_magnitude_lt _ _ _ Hd) as [HB _].
  pose proof (valid_finite_inv _ _ _ Hd) as (Hed & _ & _).
  assert (Z.abs (ord (S754_finite sd md ed)) = Z.pos md * 2 ^ (ed + 2148)) as Habs
    by (rewrite ord_finite; destruct sd; cbn [cond_Zopp]; lia).
  rewrite Habs. cbn [B64.sign].
  destruct u as [su|su| |su mu eu]; try discriminate.
  - cbn [ord B64.div SFdiv]. rewrite Z.mul_0_l, signed_grid_0 by lia.
    split; [by destruct sd | by split].
  - pose proof (valid_finite_inv _ _ _ Hu) as (Heu & _ & _).
    pose proof (valid_magnitude_lt _ _ _ Hu) as [HA _].
    rewrite div_finite_rnd by lia.
    pose proof (pow2_pos (eu - ed + 2148) ltac:(lia)) as Hp.
    pose proof (pow2_pos (eu + 2148) ltac:(lia)) as Hpu.
    pose proof (pow2_pos (ed + 2148) ltac:(lia)) as Hpd.
    assert (2 ^ (eu + 2148) * ord_unit = 2 ^ (eu - ed + 2148) * 2 ^ (ed + 2148)) as Hpow.
    { unfold ord_unit. rewrite <- (pow2_split (eu + 2148) 2148) by lia.
      rewrite <- (pow2_split (eu - ed + 2148) (ed + 2148)) by lia. f_equal. lia. }
    split; [|split; [apply rnd_valid; nia | apply rnd_not_nan]].
    rewrite ord_rnd by nia. rewrite ord_finite, cond_Zopp_xorb. f_equal.
    unfold signed_grid.
    set (A := Z.pos mu * 2 ^ (eu + 2148)) in *.
    assert (0 < A * ord_unit) as HAU by nia.
    assert ((cond_Zopp su A * ord_unit <? 0) = su) as ->.
    { destruct su; cbn [cond_Zopp]; [apply Z.ltb_lt | apply Z.ltb_ge]; lia. }
    assert (Z.abs (cond_Zopp su A * ord_unit) = A * ord_unit) as ->
      by (destruct su; cbn [cond_Zopp]; lia).
    f_equal. apply grid_ratio; [nia | lia | lia |].
    unfold A.
    set (P := 2 ^ (eu - ed + 2148)) in *. set (Pu := 2 ^ (eu + 2148)) in *.
    set (Pd := 2 ^ (ed + 2148)) in *.
    replace (Z.pos mu * Pu * ord_unit * Z.pos md)
      with (Z.pos mu * Z.pos md * (Pu * ord_unit)) by ring.
    rewrite Hpow. ring.
Qed.

(** A double that is not NaN is finite or an infinity. *)
Lemma not_nan_cases (v : double) :
  B64.is_nan v = false ->
  B64.is_finite v = true \/ exists s, v = S754_infinity s.
Proof. destruct v; intros H; try discriminate; eauto. Qed.

Lemma ord_infinity (s : bool) : ord (S754_infinity s) = cond_Zopp s ord_inf.
Proof. reflexivity. Qed.

(** Adding a finite constant keeps the order, infinities included. *)
Lemma add_mono_l (u1 u2 c : double) :
  B64.valid u1 = true -> B64.valid u2 = true -> B64.valid c = true ->
  B64.is_nan u1 = false -> B64.is_nan u2 = false -> B64.is_finite c = true ->
  ord u1 <= ord u2 ->
  ord (u1 + c)%D <= ord (u2 + c)%D /\
  (B64.valid (u1 + c)%D = true /\ B64.is_nan (u1 + c)%D = false) /\
  (B64.valid (u2 + c)%D = true /\ B64.is_nan (u2 + c)%D = false).
Proof.
  intros Hv1 Hv2 Hvc Hn1 Hn2 Hfc Hle. pose proof ord_inf_pos as Hinf.
  assert (forall s, (S754_infinity s + c)%D = S754_infinity s) as Hinfc
    by (intros s; destruct c; try discriminate; reflexivity).
  pose proof (signed_grid_bound (ord u1 + ord c) 1 ltac:(lia)) as Hb1.
  pose proof (signed_grid_bound (ord u2 + ord c) 1 ltac:(lia)) as Hb2.
  destruct (not_nan_cases u1 Hn1) as [Hf1|[s1 ->]], (not_nan_cases u2 Hn2) as [Hf2|[s2 ->]].
  - destruct (add_finite_ord u1 c Hv1 Hvc Hf1 Hfc) as (-> & ? & ?).
    destruct (add_finite_ord u2 c Hv2 Hvc Hf2 Hfc) as (-> & ? & ?).
    split; [apply signed_grid_mono; lia | by repeat split].
  - destruct (add_finite_ord u1 c Hv1 Hvc Hf1 Hfc) as (-> & ? & ?).
    pose proof (ord_finite_bound u1 Hv1 Hf1). rewrite Hinfc.
    rewrite ord_infinity in *. destruct s2; cbn [cond_Zopp] in *; [lia|].
    split; [lia | by repeat split].
  - destruct (add_finite_ord u2 c Hv2 Hvc Hf2 Hfc) as (-> & ? & ?).
    pose proof (ord_finite_bound u2 Hv2 Hf2). rewrite Hinfc.
    rewrite ord_infinity in *. destruct s1; cbn [cond_Zopp] in *; [|lia].
    split; [lia | by repeat split].
  - rewrite !Hinfc. by repeat split.
Qed.

(** Multiplying by a finite constant that is not negative keeps the
    order, where the products are numbers. *)
Lemma mul_mono_r (c w1 w2 : double) :
  B64.valid c = true -> B64.valid w1 = true -> B64.valid w2 = true ->
  B64.is_finite c = true -> B64.sign c = false ->
  B64.is_nan w1 = false -> B64.is_nan w2 = false ->
  B64.is_nan (c * w1)%D = false -> B64.is_nan (c * w2)%D = false ->
  ord w1 <= ord w2 ->
  ord (c * w1)%D <= ord (c * w2)%D /\
  B64.valid (c * w1)%D = true /\ B64.valid (c * w2)%D = true.
Proof.
  intros Hvc Hv1 Hv2 Hfc Hsc Hn1 Hn2 Hp1 Hp2 Hle.
  pose proof ord_inf_pos as Hinf. pose proof ord_unit_pos as HU.
  assert (0 <= ord c) as Hc0.
  { destruct c as [sc|sc| |sc mc ec]; try discriminate; cbn in Hsc; subst sc; cbn [ord];
      try lia.
    pose proof (valid_magnitude_lt _ _ _ Hvc). cbn [cond_Zopp]. lia. }
  assert (forall s, B64.is_nan (c * S754_infinity s)%D = false ->
                    (c * S754_infinity s)%D = S754_infinity s) as Hinfc.
  { intros s. destruct c as [sc|sc| |sc mc ec]; try discriminate; cbn in Hsc; subst sc.
    reflexivity. }
  pose proof (signed_grid_bound (ord c * ord w1) ord_unit HU) as Hb1.
  pose proof (signed_grid_bound (ord c * ord w2) ord_unit HU) as Hb2.
  destruct (not_nan_cases w1 Hn1) as [Hf1|[s1 ->]], (not_nan_cases w2 Hn2) as [Hf2|[s2 ->]].
  - destruct (mul_finite_ord c w1 Hvc Hv1 Hfc Hf1) as (-> & ? & _).
    destruct (mul_finite_ord c w2 Hvc Hv2 Hfc Hf2) as (-> & ? & _).
    split; [apply signed_grid_mono; [lia | nia] | by split].
  - destruct (mul_finite_ord c w1 Hvc Hv1 Hfc Hf1) as (-> & ? & _).
    pose proof (ord_finite_bound w1 Hv1 Hf1). rewrite (Hinfc s2 Hp2).
    rewrite ord_infinity in *. destruct s2; cbn [cond_Zopp] in *; [lia|].
    split; [lia | by split].
  - destruct (mul_finite_ord c w2 Hvc Hv2 Hfc Hf2) as (-> & ? & _).
    pose proof (ord_finite_bound w2 Hv2 Hf2). rewrite (Hinfc s1 Hp1).
    rewrite ord_infinity in *. destruct s1; cbn [cond_Zopp] in *; [|lia].
    split; [lia | by split].
  - rewrite (Hinfc s1 Hp1), (Hinfc s2 Hp2). by split.
Qed.

(** Dividing by a constant that is neither zero nor NaN keeps the order
    when the constant is positive and reverses it when negative, where
    the quotients are numbers. *)
Lemma div_mono_l (u1 u2 d : double) :
  B64.valid u1 = true -> B64.valid u2 = true -> B64.valid d = true ->
  B64.is_nan u1 = false -> B64.is_nan u2 = false ->
  B64.is_nan d = false -> B64.is_zero d = false ->
  B64.is_nan (u1 / d)%D = false -> B64.is_nan (u2 / d)%D = false ->
  ord u1 <= ord u2 ->
  (if B64.sign d then ord (u2 / d)%D <= ord (u1 / d)%D
   else ord (u1 / d)%D <= ord (u2 / d)%D) /\
  B64.valid (u1 / d)%D = true /\ B64.valid (u2 / d)%D = true.
Proof.
  intros Hv1 Hv2 Hvd Hn1 Hn2 Hnd Hzd Hq1 Hq2 Hle.
  pose proof ord_inf_pos as Hinf. pose proof ord_unit_pos as HU.
  destruct (not_nan_cases d Hnd) as [Hfd|[sd ->]].
  - (* a finite divisor *)
    assert (0 < Z.abs (ord d)) as HD.
    { destruct d as [sd|sd| |sd md ed]; try discriminate.
      pose proof (valid_magnitude_lt _ _ _ Hvd). rewrite ord_finite.
      destruct sd; cbn [cond_Zopp]; lia. }
    assert (forall s, (S754_infinity s / d)%D = S754_infinity (xorb s (B64.sign d))) as Hinfd
      by (intros s; destruct d; try discriminate; reflexivity).
    pose proof (signed_grid_bound (ord u1 * ord_unit) (Z.abs (ord d)) HD) as Hb1.
    pose proof (signed_grid_bound (ord u2 * ord_unit) (Z.abs (ord d)) HD) as Hb2.
    assert (forall u, B64.valid u = true -> B64.is_nan u = false ->
              exists g, ord (u / d)%D = cond_Zopp (B64.sign d) g /\
                        B64.valid (u / d)%D = true /\
                        (B64.is_finite u = true ->
                         g = signed_grid (ord u * ord_unit) (Z.abs (ord d))) /\
                        (B64.is_finite u = false -> g = ord u)) as Hg.
    { intros u Hvu Hnu. destruct (not_nan_cases u Hnu) as [Hfu|[su ->]].
      - destruct (div_finite_ord u d Hvu Hvd Hfu Hfd Hzd) as (Ho & Hval & _).
        eexists. split; [exact Ho|]. split; [exact Hval|]. split; [done|].
        intros Hcontra. congruence.
      - rewrite Hinfd. exists (cond_Zopp su ord_inf). split.
        + rewrite ord_infinity. apply cond_Zopp_xorb.
        + split; [reflexivity|]. split; [discriminate | reflexivity]. }
    destruct (Hg u1 Hv1 Hn1) as (g1 & Ho1 & Hval1 & Hfin1 & Hinf1).
    destruct (Hg u2 Hv2 Hn2) as (g2 & Ho2 & Hval2 & Hfin2 & Hinf2).
    assert (g1 <= g2) as Hgle.
    { destruct (not_nan_cases u1 Hn1) as [Hf1|[s1 ->]],
               (not_nan_cases u2 Hn2) as [Hf2|[s2 ->]].
      - rewrite (Hfin1 Hf1), (Hfin2 Hf2). apply signed_grid_mono; [lia | nia].
      - rewrite (Hfin1 Hf1), (Hinf2 eq_refl).
        pose proof (ord_finite_bound u1 Hv1 Hf1).
        rewrite ord_infinity in *. destruct s2; cbn [cond_Zopp] in *; lia.
      - rewrite (Hinf1 eq_refl), (Hfin2 Hf2).
        pose proof (ord_finite_bound u2 Hv2 Hf2).
        rewrite ord_infinity in *. destruct s1; cbn [cond_Zopp] in *; lia.
      - rewrite (Hinf1 eq_refl), (Hinf2 eq_refl). exact Hle. }
    rewrite Ho1, Ho2. split; [|by split].
    destruct (B64.sign d); cbn [cond_Zopp]; lia.
  - (* an infinite divisor: every quotient that is a number is a zero *)
    assert (forall u, B64.is_nan u = false -> B64.is_nan (u / S754_infinity sd)%D = false ->
              ord (u / S754_infinity sd)%D = 0 /\
              B64.valid (u / S754_infinity sd)%D = true) as Hz.
    { intros u Hnu Hqu. destruct u; try discriminate; by split. }
    destruct (Hz u1 Hn1 Hq1) as [-> ?], (Hz u2 Hn2 Hq2) as [-> ?].
    split; [by destruct (B64.sign _) | by split].
Qed.

Lemma leb_true_not_nan (x y : double) :
  B64.leb x y = true -> B64.is_nan x = false /\ B64.is_nan y = false.
Proof. destruct x, y; try discriminate; by split. Qed.

Lemma sign_rnd_any (s : bool) (N D : Z) : B64.sign (rnd s N D) = s.
Proof.
  unfold rnd, encode. destruct (_ =? 0); [reflexivity|].
  destruct (_ =? 2 ^ 53); destruct (_ <=? 971); reflexivity.
Qed.

Lemma finite_of_ord (v : double) :
  B64.is_nan v = false -> - ord_inf < ord v < ord_inf -> B64.is_finite v = true.
Proof.
  intros Hn Hb. pose proof ord_inf_pos.
  destruct v as [s|s| |s m e]; try done.
  rewrite ord_infinity in Hb. destruct s; cbn [cond_Zopp] in Hb; lia.
Qed.

(** [0.5 * amplitude] for a finite positive amplitude: finite, of the
    format, and not negative. *)
Lemma mul_half_positive (a0 : double) :
  finite_double a0 -> B64.ltb B64.zero a0 = true ->
  B64.valid (B64.half * a0)%D = true /\
  B64.is_finite (B64.half * a0)%D = true /\
  B64.sign (B64.half * a0)%D = false.
Proof.
  intros [Hv Hf] Hpos.
  destruct a0 as [s|s| |s m e]; try discriminate.
  destruct s; [discriminate|].
  split; [by apply mul_half_valid|].
  assert (B64.valid B64.half = true) as Hvh by reflexivity.
  destruct (mul_finite_ord B64.half (S754_finite false m e) Hvh Hv eq_refl Hf)
    as (Hord & _ & Hnan).
  pose proof ord_unit_pos as HU. pose proof ord_inf_pos as Hinf.
  pose proof (valid_magnitude_lt _ _ _ Hv) as [HA HAlt].
  split.
  - apply finite_of_ord; [exact Hnan|]. rewrite Hord.
    assert (ord B64.half * 2 = ord_unit) as Hhalf.
    { rewrite half_is, ord_finite. cbn [cond_Zopp]. unfold ord_unit.
      change (Z.pos 4503599627370496) with (2 ^ 52).
      change (2 ^ 2148) with (2 ^ (52 + (-53 + 2148) + 1)).
      rewrite (pow2_split (52 + (-53 + 2148)) 1), (pow2_split 52 (-53 + 2148)) by lia.
      reflexivity. }
    rewrite ord_finite in *. cbn [cond_Zopp] in *.
    set (A := Z.pos m * 2 ^ (e + 2148)) in *.
    assert (0 < ord B64.half) by lia.
    pose proof (signed_grid_mono 0 (ord B64.half * A) ord_unit HU ltac:(nia)) as Hlo.
    rewrite signed_grid_0 in Hlo by done.
    pose proof (signed_grid_mono (ord B64.half * A) (ord_unit * A) ord_unit HU ltac:(nia)) as Hhi.
    assert (signed_grid (ord_unit * A) ord_unit = A) as HAA.
    { unfold signed_grid.
      destruct (Z.ltb_spec (ord_unit * A) 0); [nia|]. cbn [cond_Zopp].
      rewrite Z.abs_eq by nia.
      rewrite (grid_ratio (ord_unit * A) ord_unit A 1) by nia.
      pose proof (signed_grid_representable (S754_finite false m e) Hv Hf) as Hrep.
      rewrite ord_finite in Hrep. cbn [cond_Zopp] in Hrep. fold A in Hrep.
      unfold signed_grid in Hrep.
      destruct (Z.ltb_spec A 0); [lia|]. cbn [cond_Zopp] in Hrep.
      by rewrite Z.abs_eq in Hrep by lia. }
    lia.
  - rewrite half_is, mul_finite_rnd by done. apply sign_rnd_any.
Qed.

(** [sigma * sqrt(2)] for a finite sigma other than zero: a divisor of
    the sign of sigma. *)
Lemma mul_sqrt2_divisor (sigma : double) :
  finite_double sigma -> B64.is_zero sigma = false ->
  B64.valid (sigma * B64.sqrt B64.two)%D = true /\
  B64.is_nan (sigma * B64.sqrt B64.two)%D = false /\
  B64.is_zero (sigma * B64.sqrt B64.two)%D = false /\
  B64.sign (sigma * B64.sqrt B64.two)%D = B64.sign sigma.
Proof.
  intros [Hv Hf] Hz.
  assert (B64.is_nan sigma = false) as Hn by (by destruct sigma).
  destruct (mul_sqrt2_nonzero sigma Hv Hz Hn) as [Hz' Hn'].
  split; [|split; [exact Hn' | split; [exact Hz'|]]].
  - rewrite sqrt2_is. destruct sigma as [s|s| |s m e]; try discriminate.
    rewrite mul_finite_rnd by done. apply rnd_valid; [|lia].
    apply valid_finite_inv in Hv as (He & _ & _).
    pose proof (pow2_pos (e + -52 + 2148) ltac:(lia)). nia.
  - rewrite sqrt2_is. destruct sigma as [s|s| |s m e]; try discriminate.
    rewrite mul_finite_rnd by done. rewrite sign_rnd_any. cbn [B64.sign]. by destruct s.
Qed.

(** From the quotient on, every step keeps the order. *)
Lemma tail_monotone (erf : double -> double) (c a3 q1 q2 : double) :
  erf_monotone erf ->
  B64.valid c = true -> B64.is_finite c = true -> B64.sign c = false ->
  finite_double a3 ->
  B64.valid q1 = true -> B64.valid q2 = true ->
  B64.is_nan q1 = false -> B64.is_nan q2 = false ->
  ord q1 <= ord q2 ->
  B64.is_nan (c * (B64.one + erf q1) + a3)%D = false ->
  B64.is_nan (c * (B64.one + erf q2) + a3)%D = false ->
  B64.leb (c * (B64.one + erf q1) + a3)%D (c * (B64.one + erf q2) + a3)%D = true.
Proof.
  intros [Hev Hem] Hvc Hfc Hsc [Hva Hfa] Hv1 Hv2 Hn1 Hn2 Hle Hy1 Hy2.
  (* erf *)
  assert (B64.leb q1 q2 = true) as Hq by (by apply leb_ord).
  pose proof (Hem q1 q2 Hv1 Hv2 Hq) as He.
  destruct (leb_true_not_nan _ _ He) as [Hen1 Hen2].
  pose proof (Hev q1 Hv1) as Hev1. pose proof (Hev q2 Hv2) as Hev2.
  apply leb_ord in He; try done.
  (* 1 + erf *)
  rewrite !(add_comm B64.one) in *.
  destruct (add_mono_l (erf q1) (erf q2) B64.one Hev1 Hev2 eq_refl Hen1 Hen2 eq_refl He)
    as (Hw & [Hwv1 Hwn1] & [Hwv2 Hwn2]).
  (* c * (1 + erf) *)
  assert (forall z, B64.is_nan (z + a3)%D = false -> B64.is_nan z = false) as Hback
    by (intros z; destruct z; try done).
  destruct (mul_mono_r c _ _ Hvc Hwv1 Hwv2 Hfc Hsc Hwn1 Hwn2 (Hback _ Hy1) (Hback _ Hy2) Hw)
    as (Hz & Hzv1 & Hzv2).
  (* ... + offset *)
  destruct (add_mono_l _ _ a3 Hzv1 Hzv2 Hva (Hback _ Hy1) (Hback _ Hy2) Hfa Hz)
    as (Hy & [Hyv1 _] & [Hyv2 _]).
  by apply leb_ord.
Qed.

Lemma erf_sign_monotone : erf_monotone erf_sign.
Proof.
  split.
  - intros x _. by destruct x as [[]|[]| |[] m e].
  - intros x y _ _.
    destruct x as [[]|[]| |[] mx ex], y as [[]|[]| |[] my ey]; simpl;
      intros H; try reflexivity; try discriminate.
Qed.

(** NaN in the quotient is NaN in the value. *)
Lemma gaussian_cdf_nan (erf : double -> double) (x0 a0 a1 a2 a3 : double) :
  erf_contract erf ->
  B64.is_nan ((x0 - a1) / (a2 * B64.sqrt B64.two))%D = true ->
  B64.is_nan (gaussian_cdf erf x0 a0 a1 a2 a3) = true.
Proof.
  intros [_ _ Hn] Hq. unfold gaussian_cdf.
  destruct ((x0 - a1) / (a2 * B64.sqrt B64.two))%D; try discriminate.
  by rewrite Hn, add_nan_r, mul_nan_r.
Qed.

(** The formula is monotone in [x] wherever its values are numbers:
    rising for a positive sigma, falling for a negative one. *)
Lemma gaussian_cdf_monotone (erf : double -> double)
    (x1 x2 amplitude mu sigma offset : double) :
  erf_contract erf -> erf_monotone erf ->
  finite_double x1 -> finite_double x2 ->
  finite_double amplitude -> finite_double mu ->
  finite_double sigma -> finite_double offset ->
  B64.ltb B64.zero amplitude = true ->
  B64.is_zero sigma = false ->
  B64.leb x1 x2 = true ->
  B64.is_nan (gaussian_cdf erf x1 amplitude mu sigma offset) = false ->
  B64.is_nan (gaussian_cdf erf x2 amplitude mu sigma offset) = false ->
  if B64.sign sigma
  then B64.leb (gaussian_cdf erf x2 amplitude mu sigma offset)
               (gaussian_cdf erf x1 amplitude mu sigma offset) = true
  else B64.leb (gaussian_cdf erf x1 amplitude mu sigma offset)
               (gaussian_cdf erf x2 amplitude mu sigma offset) = true.
Proof.
  intros Hc Hm [Hvx1 Hfx1] [Hvx2 Hfx2] Ha [Hvmu Hfmu] Hs Ho Hpos Hs0 Hle Hy1 Hy2.
  destruct (mul_half_positive amplitude Ha Hpos) as (Hvc & Hfc & Hsc).
  destruct (mul_sqrt2_divisor sigma Hs Hs0) as (Hvd & Hnd & Hzd & Hsd).
  (* the numerators *)
  destruct (sub_finite_ord x1 mu Hvx1 Hvmu Hfx1 Hfmu) as (Hn1 & Hvn1 & Hnn1).
  destruct (sub_finite_ord x2 mu Hvx2 Hvmu Hfx2 Hfmu) as (Hn2 & Hvn2 & Hnn2).
  assert (B64.is_nan x1 = false /\ B64.is_nan x2 = false) as [Hnx1 Hnx2]
    by (by apply leb_true_not_nan).
  apply leb_ord in Hle; try done.
  assert (ord (x1 - mu)%D <= ord (x2 - mu)%D) as Hnle
    by (rewrite Hn1, Hn2; apply signed_grid_mono; lia).
  (* the quotients are numbers, since the values are *)
  assert (forall x, B64.is_nan (gaussian_cdf erf x amplitude mu sigma offset) = false ->
            B64.is_nan ((x - mu) / (sigma * B64.sqrt B64.two))%D = false) as Hqn.
  { intros x Hy.
    destruct (B64.is_nan ((x - mu) / (sigma * B64.sqrt B64.two))%D) eqn:Hq; [|reflexivity].
    rewrite (gaussian_cdf_nan erf x amplitude mu sigma offset Hc Hq) in Hy. discriminate. }
  destruct (div_mono_l _ _ _ Hvn1 Hvn2 Hvd Hnn1 Hnn2 Hnd Hzd (Hqn x1 Hy1) (Hqn x2 Hy2) Hnle)
    as (Hq & Hvq1 & Hvq2).
  rewrite Hsd in Hq. unfold gaussian_cdf in *.
  destruct (B64.sign sigma).
  - apply tail_monotone; try done. by apply Hqn. by apply Hqn.
  - apply tail_monotone; try done. by apply Hqn. by apply Hqn.
Qed.

(** ** Where the value is a number

    With finite inputs and an [erf] within [-1, 1], the value is a number
    unless [x - mu] and [sigma * sqrt(2)] both overflow. *)

Lemma erf_sign_bounded : erf_bounded erf_sign.
Proof.
  split; intros x _ Hn; by destruct x as [[]|[]| |[] m e].
Qed.

Lemma ord_one : ord B64.one = ord_unit.
Proof.
  rewrite one_is, ord_finite. cbn [cond_Zopp]. unfold ord_unit.
  change (Z.pos 4503599627370496) with (2 ^ 52).
  rewrite <- pow2_split by lia. reflexivity.
Qed.

Lemma ord_two : ord B64.two = 2 * ord_unit.
Proof.
  rewrite two_is, ord_finite. cbn [cond_Zopp]. unfold ord_unit.
  change (Z.pos 4503599627370496) with (2 ^ 52).
  rewrite <- pow2_split by lia.
  change (2 ^ (52 + (-51 + 2148))) with (2 ^ (1 + 2148)).
  rewrite (pow2_split 1 2148) by lia. reflexivity.
Qed.

Lemma ord_unit_lt_inf : 2 * ord_unit < ord_inf.
Proof.
  unfold ord_unit, ord_inf. change (2 * 2 ^ 2148) with (2 ^ 1 * 2 ^ 2148).
  rewrite <- pow2_split by lia. apply pow2_lt. lia.
Qed.

Lemma div_number (n d : double) :
  B64.valid n = true -> B64.valid d = true ->
  B64.is_nan n = false -> B64.is_nan d = false -> B64.is_zero d = false ->
  B64.is_finite n = true \/ B64.is_finite d = true ->
  B64.valid (n / d)%D = true /\ B64.is_nan (n / d)%D = false.
Proof.
  intros Hvn Hvd Hnn Hnd Hzd Hfin.
  destruct (not_nan_cases n Hnn) as [Hfn|[sn ->]], (not_nan_cases d Hnd) as [Hfd|[sd ->]].
  - by destruct (div_finite_ord n d Hvn Hvd Hfn Hfd Hzd) as (_ & ? & ?).
  - destruct n; try discriminate; by split.
  - destruct d; try discriminate; by split.
  - destruct Hfin; discriminate.
Qed.

Lemma gaussian_cdf_number (erf : double -> double)
    (x amplitude mu sigma offset : double) :
  erf_monotone erf -> erf_bounded erf ->
  finite_double x -> finite_double amplitude -> finite_double mu ->
  finite_double sigma -> finite_double offset ->
  B64.ltb B64.zero amplitude = true ->
  B64.is_zero sigma = false ->
  B64.is_finite (x - mu)%D = true \/ B64.is_finite (sigma * B64.sqrt B64.two)%D = true ->
  B64.is_nan (gaussian_cdf erf x amplitude mu sigma offset) = false.
Proof.
  intros [Hev Hem] [Hup Hlo] [Hvx Hfx] Ha [Hvmu Hfmu] Hs [Hvo Hfo] Hpos Hs0 Hfin.
  pose proof ord_unit_pos as HU. pose proof ord_unit_lt_inf as HUI.
  destruct (mul_half_positive amplitude Ha Hpos) as (Hvc & Hfc & Hsc).
  destruct (mul_sqrt2_divisor sigma Hs Hs0) as (Hvd & Hnd & Hzd & _).
  destruct (sub_finite_ord x mu Hvx Hvmu Hfx Hfmu) as (_ & Hvn & Hnn).
  destruct (div_number _ _ Hvn Hvd Hnn Hnd Hzd Hfin) as [Hvq Hnq].
  unfold gaussian_cdf.
  set (q := ((x - mu) / (sigma * B64.sqrt B64.two))%D) in *.
  (* erf q is a finite number *)
  pose proof (Hev q Hvq) as Hve.
  pose proof (Hup q Hvq Hnq) as Hle1. pose proof (Hlo q Hvq Hnq) as Hge1.
  destruct (leb_true_not_nan _ _ Hle1) as [Hne _].
  apply leb_ord in Hle1; try done. apply leb_ord in Hge1; try done.
  rewrite ord_opp in Hge1. rewrite ord_one in *.
  assert (B64.is_finite (erf q) = true) as Hfe by (apply finite_of_ord; [done | lia]).
  (* so is 1 + erf q *)
  destruct (add_finite_ord B64.one (erf q) eq_refl Hve eq_refl Hfe) as (Hw & Hvw & Hnw).
  assert (B64.is_finite (B64.one + erf q)%D = true) as Hfw.
  { apply finite_of_ord; [done|]. rewrite Hw, ord_one.
    pose proof (signed_grid_mono 0 (ord_unit + ord (erf q)) 1 ltac:(lia) ltac:(lia)) as H0.
    rewrite signed_grid_0 in H0 by lia.
    pose proof (signed_grid_mono (ord_unit + ord (erf q)) (ord B64.two) 1 ltac:(lia)
                  ltac:(rewrite ord_two; lia)) as H2.
    rewrite signed_grid_representable, ord_two in H2 by reflexivity. lia. }
  (* the product and the sum *)
  destruct (mul_finite_ord _ _ Hvc Hvw Hfc Hfw) as (_ & Hvz & Hnz).
  destruct (not_nan_cases _ Hnz) as [Hfz|[sz Hz]].
  - by destruct (add_finite_ord _ offset Hvz Hvo Hfz Hfo) as (_ & _ & ?).
  - rewrite Hz. by destruct offset.
Qed.

(** ** Monotonicity of the plugin *)

(** C5, as stated, fails.  All parameters finite, amplitude 2.0 positive,
    sigma not zero: at [x = DBL_MAX] with [mu = -DBL_MAX] and
    [sigma = DBL_MAX] both [x - mu] and [sigma * sqrt(2)] overflow, the
    quotient of the two infinities is NaN and so is the value; at
    [x = 0.0] the value is 2.0.  [0.0 <= DBL_MAX], yet the two values
    compare in neither direction. *)
Lemma GetFunctionValue_not_monotone :
  exists m1 m2,
    GetFunctionValue erf_sign host_mem_big (Ptr 1 1) (Ptr 2 0) (Ptr 3 1) = Ret m1 /\
    GetFunctionValue erf_sign host_mem_big (Ptr 1 0) (Ptr 2 0) (Ptr 3 0) = Ret m2 /\
    cell m1 (Ptr 3 1) = Some (Vdouble B64.two) /\
    cell m2 (Ptr 3 0) = Some (Vdouble B64.nan) /\
    B64.leb B64.zero B64.max_double = true /\
    B64.leb B64.two B64.nan = false /\
    B64.leb B64.nan B64.two = false /\
    B64.ltb B64.zero B64.two = true /\
    B64.is_zero B64.max_double = false /\
    forallb (fun v => B64.valid v && B64.is_finite v)
      [B64.zero; B64.max_double; B64.two; SFopp B64.max_double; B64.one] = true.
Proof. do 2 eexists. vm_compute. repeat split. Qed.

(** C5, amended.  For finite amplitude > 0, [mu], sigma other than zero
    and offset held fixed, an [erf] that never decreases, and finite
    [x1 <= x2]: both calls return, and if neither value stored is NaN the
    value at [x1] is at most the value at [x2] when sigma is positive and
    at least that value when sigma is negative.  With [erf] within
    [-1, 1], a value is a number unless [x - mu] and [sigma * sqrt(2)]
    both overflow. *)
Theorem GetFunctionValue_monotone (erf : double -> double)
    (m1 m2 : mem) (x1 a1 y1 x2 a2 y2 : ptr)
    (x1v x2v amplitude mu sigma offset : double) :
  erf_contract erf -> erf_monotone erf ->
  finite_double x1v -> finite_double x2v ->
  finite_double amplitude -> finite_double mu ->
  finite_double sigma -> finite_double offset ->
  B64.ltb B64.zero amplitude = true ->
  B64.is_zero sigma = false ->
  reads_doubles m1 x1 [x1v] -> reads_doubles m1 a1 [amplitude; mu; sigma; offset] ->
  reads_doubles m2 x2 [x2v] -> reads_doubles m2 a2 [amplitude; mu; sigma; offset] ->
  is_Some (cell m1 y1) -> is_Some (cell m2 y2) ->
  B64.leb x1v x2v = true ->
  exists m1' m2' v1 v2,
    GetFunctionValue erf m1 x1 a1 y1 = Ret m1' /\
    GetFunctionValue erf m2 x2 a2 y2 = Ret m2' /\
    cell m1' y1 = Some (Vdouble v1) /\
    cell m2' y2 = Some (Vdouble v2) /\
    (B64.is_nan v1 = false -> B64.is_nan v2 = false ->
     if B64.sign sigma then B64.leb v2 v1 = true else B64.leb v1 v2 = true) /\
    (erf_bounded erf ->
     B64.is_finite (sigma * B64.sqrt B64.two)%D = true \/
     B64.is_finite (x1v - mu)%D = true /\ B64.is_finite (x2v - mu)%D = true ->
     B64.is_nan v1 = false /\ B64.is_nan v2 = false).
Proof.
  intros Hc Hm Hx1 Hx2 Ha Hmu Hs Ho Hpos Hs0 Hr1 Hra1 Hr2 Hra2 Hy1 Hy2 Hle.
  destruct (GetFunctionValue_formula_core erf m1 x1 a1 y1 _ _ _ _ _ Hr1 Hra1 Hy1)
    as (m1' & Hret1 & Hcell1).
  destruct (GetFunctionValue_formula_core erf m2 x2 a2 y2 _ _ _ _ _ Hr2 Hra2 Hy2)
    as (m2' & Hret2 & Hcell2).
  exists m1', m2', (gaussian_cdf erf x1v amplitude mu sigma offset),
    (gaussian_cdf erf x2v amplitude mu sigma offset).
  repeat (split; [done|]). split.
  - intros Hn1 Hn2. by apply gaussian_cdf_monotone.
  - intros Hb Hfin. split; apply gaussian_cdf_number; try done; tauto.
Qed.

Lemma GetFunctionValue_monotone_witness :
  exists m1' m2' v1 v2,
    GetFunctionValue erf_sign host_mem (Ptr 1 0) (Ptr 2 0) (Ptr 3 0) = Ret m1' /\
    GetFunctionValue erf_sign host_mem_x1 (Ptr 1 0) (Ptr 2 0) (Ptr 3 0) = Ret m2' /\
    cell m1' (Ptr 3 0) = Some (Vdouble v1) /\
    cell m2' (Ptr 3 0) = Some (Vdouble v2) /\
    (B64.is_nan v1 = false -> B64.is_nan v2 = false ->
     if B64.sign B64.one then B64.leb v2 v1 = true else B64.leb v1 v2 = true) /\
    (erf_bounded erf_sign ->
     B64.is_finite (B64.one * B64.sqrt B64.two)%D = true \/
     B64.is_finite (B64.zero - B64.zero)%D = true /\
     B64.is_finite (B64.one - B64.zero)%D = true ->
     B64.is_nan v1 = false /\ B64.is_nan v2 = false).
Proof.
  apply (GetFunctionValue_monotone erf_sign host_mem host_mem_x1
           (Ptr 1 0) (Ptr 2 0) (Ptr 3 0) (Ptr 1 0) (Ptr 2 0) (Ptr 3 0)
           B64.zero B64.one B64.two B64.zero B64.one B64.one).
  - exact erf_sign_contract.
  - exact erf_sign_monotone.
  - by split.
  - by split.
  - by split.
  - by split.
  - by split.
  - by split.
  - reflexivity.
  - reflexivity.
  - intros [|k] d; simpl; [|discriminate]. intros [= <-]. reflexivity.
  - intros [|[|[|[|k]]]] d; simpl; try discriminate; intros [= <-]; reflexivity.
  - intros [|k] d; simpl; [|discriminate]. intros [= <-]. reflexivity.
  - intros [|[|[|[|k]]]] d; simpl; try discriminate; intros [= <-]; reflexivity.
  - vm_compute. eauto.
  - vm_compute. eauto.
  - reflexivity.
Defined.

(** * Sessions: how the calls compose *)

(** ** Memories are what their cells are *)

Lemma mem_ext (m1 m2 : mem) :
  dom m1 = dom m2 -> (forall q, cell m1 q = cell m2 q) -> m1 = m2.
Proof.
  intros Hdom Hcell. apply map_eq. intros b.
  destruct (m1 !! b) as [l1|] eqn:H1, (m2 !! b) as [l2|] eqn:H2.
  - f_equal. apply list_eq. intros i.
    specialize (Hcell (Ptr b i)). simpl in Hcell. by rewrite H1, H2 in Hcell.
  - exfalso. apply (not_elem_of_dom m2 b) in H2. apply H2.
    rewrite <- Hdom. apply elem_of_dom. eauto.
  - exfalso. apply (not_elem_of_dom m1 b) in H1. apply H1.
    rewrite Hdom. apply elem_of_dom. eauto.
  - reflexivity.
Qed.

Lemma store_Ret_is_Some (m m' : mem) (p : ptr) (v : val) :
  store m p v = Ret m' -> is_Some (cell m p).
Proof.
  intros Hst. destruct (cell m p) as [w|] eqn:Hc; [eauto|].
  rewrite (store_oob _ _ v Hc) in Hst. discriminate.
Qed.

Lemma reads_GetFunctionValue (x a y : ptr) :
  reads (CallGetFunctionValue x a y) =
  [shift x 0; shift a 0; shift a 1; shift a 2; shift a 3].
Proof. reflexivity. Qed.

(** ** The same call in two memories *)

Lemma in_step_refl (m1 m2 : mem) :
  (forall q, capacity m2 q = capacity m1 q) -> in_step m1 m2 m1 m2.
Proof. intros Hc. split; [done|]. intros q. by right. Qed.

Lemma in_step_trans (m1 m2 m1' m2' m1'' m2'' : mem) :
  in_step m1 m2 m1' m2' -> in_step m1' m2' m1'' m2'' -> in_step m1 m2 m1'' m2''.
Proof.
  intros [_ H1] [Hc H2]. split; [done|]. intros q.
  destruct (H2 q) as [He|[Ha Hb]]; [by left|].
  destruct (H1 q) as [He|[Ha' Hb']].
  - left. congruence.
  - right. split; congruence.
Qed.

(** A store that succeeds in one memory succeeds in any memory of the
    same shape, and leaves the same in the cell. *)
Lemma store_in_step (m1 m2 m1' : mem) (p : ptr) (v : val) :
  store m1 p v = Ret m1' ->
  (forall q, capacity m2 q = capacity m1 q) ->
  exists m2', store m2 p v = Ret m2' /\ in_step m1 m2 m1' m2'.
Proof.
  intros Hst Hc.
  destruct (store_ok m2 p v) as [m2' Hst2].
  { rewrite cell_Some_capacity, Hc, <- cell_Some_capacity. by eapply store_Ret_is_Some. }
  exists m2'. split; [done|]. split.
  - intros q.
    rewrite (store_capacity _ _ _ _ _ Hst2), (store_capacity _ _ _ _ _ Hst). apply Hc.
  - intros q. destruct (decide (q = p)) as [->|Hne].
    + left. by rewrite (store_cell_eq _ _ _ _ Hst), (store_cell_eq _ _ _ _ Hst2).
    + right. split; by eapply store_cell_ne.
Qed.

Lemma store_chars_in_step (cs : list ascii) (m1 m2 m1' : mem) (p : ptr) (k : nat) :
  store_chars m1 p k cs = Ret m1' ->
  (forall q, capacity m2 q = capacity m1 q) ->
  exists m2', store_chars m2 p k cs = Ret m2' /\ in_step m1 m2 m1' m2'.
Proof.
  revert m1 m2 k. induction cs as [|c cs IH]; intros m1 m2 k Hrun Hc.
  - injection Hrun as <-. exists m2. split; [done|]. by apply in_step_refl.
  - cbn [store_chars] in *.
    destruct (store m1 (shift p k) (Vchar c)) as [n1|] eqn:Hst; [|discriminate].
    change (store_chars n1 p (S k) cs = Ret m1') in Hrun.
    destruct (store_in_step _ m2 _ _ _ Hst Hc) as (n2 & Hst2 & Hs).
    rewrite Hst2. change (exists m2', store_chars n2 p (S k) cs = Ret m2' /\
                                      in_step m1 m2 m1' m2').
    destruct (IH n1 n2 (S k) Hrun (proj1 Hs)) as (m2' & Hrun2 & Hs').
    exists m2'. split; [done|]. by eapply in_step_trans.
Qed.

Lemma store_fill_in_step (fill : fill_policy) (n : nat) (m1 m2 m1' : mem) (p : ptr)
    (k : nat) :
  store_fill fill m1 p k n = Ret m1' ->
  (forall q, capacity m2 q = capacity m1 q) ->
  exists m2', store_fill fill m2 p k n = Ret m2' /\ in_step m1 m2 m1' m2'.
Proof.
  revert m1 m2 k. induction n as [|n IH]; intros m1 m2 k Hrun Hc.
  - injection Hrun as <-. exists m2. split; [done|]. by apply in_step_refl.
  - cbn [store_fill] in *. destruct (fill k) as [c|].
    + destruct (store m1 (shift p k) (Vchar c)) as [n1|] eqn:Hst; [|discriminate].
      change (store_fill fill n1 p (S k) n = Ret m1') in Hrun.
      destruct (store_in_step _ m2 _ _ _ Hst Hc) as (n2 & Hst2 & Hs).
      rewrite Hst2. change (exists m2', store_fill fill n2 p (S k) n = Ret m2' /\
                                        in_step m1 m2 m1' m2').
      destruct (IH n1 n2 (S k) Hrun (proj1 Hs)) as (m2' & Hrun2 & Hs').
      exists m2'. split; [done|]. by eapply in_step_trans.
    + change (store_fill fill m1 p (S k) n = Ret m1') in Hrun.
      change (exists m2', store_fill fill m2 p (S k) n = Ret m2' /\ in_step m1 m2 m1' m2').
      by apply IH.
Qed.

(** What a call stores depends only on the cells it reads: run in
    another memory of the same shape that agrees on those, it returns too,
    and every cell holds the same in both results or is in both what it
    was. *)
Lemma do_call_agree (erf : double -> double) (fill : fill_policy) (m1 m2 m1' : mem)
    (c : call) :
  do_call erf fill m1 c = Ret m1' ->
  (forall q, q ∈ reads c -> cell m2 q = cell m1 q) ->
  (forall q, capacity m2 q = capacity m1 q) ->
  exists m2', do_call erf fill m2 c = Ret m2' /\ in_step m1 m2 m1' m2'.
Proof.
  destruct c as [name|x a y|n|n]; cbn [do_call]; intros Hret Hreads Hcap.
  - unfold GetFunctionName, strcpy_s in *. destruct name as [|b i]; [discriminate|].
    destruct (decide (String.length function_name < 255)%nat) as [_|]; [|discriminate].
    rewrite name_length in Hret |- *.
    change (255 - 70)%nat with 185%nat in Hret |- *.
    destruct (store_chars m1 (Ptr b i) 0 (list_ascii_of_string function_name ++ [NUL]))
      as [n1|] eqn:Hrun; [|discriminate].
    change (store_fill fill n1 (Ptr b i) 70 185 = Ret m1') in Hret.
    destruct (store_chars_in_step _ _ m2 _ _ _ Hrun Hcap) as (n2 & Hrun2 & Hs).
    rewrite Hrun2.
    change (exists m2', store_fill fill n2 (Ptr b i) 70 185 = Ret m2' /\
                        in_step m1 m2 m1' m2').
    destruct (store_fill_in_step _ _ _ n2 _ _ _ Hret (proj1 Hs)) as (m2' & Hfill2 & Hs').
    exists m2'. split; [exact Hfill2|]. by eapply in_step_trans.
  - apply GetFunctionValue_Ret in Hret as (x0 & a0 & a1 & a2 & a3 & Hx & Ha & Hst).
    rewrite reads_GetFunctionValue in Hreads.
    destruct (store_in_step _ m2 _ _ _ Hst Hcap) as (m2' & Hst2 & Hs).
    exists m2'. split; [|exact Hs].
    apply GetFunctionValue_Ret. exists x0, a0, a1, a2, a3.
    split; [|split; [|exact Hst2]].
    + intros [|k] d Hk; [|discriminate].
      rewrite Hreads by (repeat constructor). by apply Hx.
    + intros [|[|[|[|k]]]] d Hk; try discriminate;
        (rewrite Hreads by (repeat constructor)); by apply Ha.
  - by apply store_in_step.
  - by apply store_in_step.
Qed.

(** ** Sessions *)

Lemma footprint_cons (c : call) (cs : list call) :
  footprint (c :: cs) = writes c ++ footprint cs.
Proof. reflexivity. Qed.

(** The frame of a session, for the proofs below. *)
Lemma run_frame (erf : double -> double) (fill : fill_policy) (cs : list call)
    (m m' : mem) :
  run erf fill m cs = Ret m' -> same_except (footprint cs) m m'.
Proof.
  revert m. induction cs as [|c cs IH]; intros m Hrun.
  - injection Hrun as <-. apply same_except_refl.
  - cbn [run] in Hrun.
    destruct (do_call erf fill m c) as [m1|f] eqn:Hcall; [|discriminate].
    rewrite footprint_cons. eapply same_except_trans.
    + by eapply do_call_same_except.
    + by apply IH.
Qed.

(** X3.  A session of calls that returns, however long, in whatever order
    and with whatever library, has changed memory only in the output cells
    handed to its calls - [*y], [*n], and for [GetFunctionName] the 255
    bytes it declares to [strcpy_s]: every other cell holds what it held,
    and no block has appeared, disappeared or changed size. *)
Theorem run_same_except (erf : double -> double) (fill : fill_policy) (cs : list call)
    (m m' : mem) :
  run erf fill m cs = Ret m' -> same_except (footprint cs) m m'.
Proof.
  revert m. induction cs as [|c cs IH]; intros m Hrun.
  - injection Hrun as <-. apply same_except_refl.
  - cbn [run] in Hrun.
    destruct (do_call erf fill m c) as [m1|f] eqn:Hcall; [|discriminate].
    rewrite footprint_cons.
    apply (same_except_trans _ _ m m1 m'); [|by apply IH].
    by apply (do_call_same_except erf fill).
Qed.

Lemma run_same_except_witness :
  exists m',
    run erf_sign fill_debug host_mem
      [CallGetNumVariables (Ptr 4 0); CallGetFunctionName (Ptr 5 0);
       CallGetFunctionValue (Ptr 1 0) (Ptr 2 0) (Ptr 3 0)] = Ret m' /\
    same_except
      (footprint [CallGetNumVariables (Ptr 4 0); CallGetFunctionName (Ptr 5 0);
                  CallGetFunctionValue (Ptr 1 0) (Ptr 2 0) (Ptr 3 0)]) host_mem m'.
Proof.
  eexists. split; [vm_compute; reflexivity|].
  apply (run_same_except erf_sign fill_debug). vm_compute. reflexivity.
Defined.

(** X4.  Every call is idempotent where its output does not alias its
    input: made again in the memory it left, it returns and leaves that
    memory as it is.  For [GetFunctionValue] this asks that [y] is none of
    [x[0]], [a[0..3]]; the other three calls read nothing. *)
Theorem do_call_idempotent (erf : double -> double) (fill : fill_policy) (m m' : mem)
    (c : call) :
  (forall q, q ∈ writes c -> q ∉ reads c) ->
  do_call erf fill m c = Ret m' ->
  do_call erf fill m' c = Ret m'.
Proof.
  intros Hdisj Hret.
  pose proof (do_call_same_except erf fill m m' c Hret) as (_ & Hcap & Hf).
  destruct (do_call_agree erf fill m m' m' c Hret) as (m'' & Hret' & _ & Hstep).
  - intros q Hq. apply Hf. intros Hw. by apply (Hdisj q).
  - exact Hcap.
  - rewrite Hret'. f_equal.
    pose proof (do_call_same_except erf fill m' m'' c Hret') as (Hdom & _ & _).
    apply mem_ext; [exact Hdom|].
    intros q. destruct (Hstep q) as [He|[_ He]]; exact He.
Qed.

Lemma do_call_idempotent_witness :
  exists m',
    do_call erf_sign fill_debug host_mem
      (CallGetFunctionValue (Ptr 1 0) (Ptr 2 0) (Ptr 3 0)) = Ret m' /\
    do_call erf_sign fill_debug m'
      (CallGetFunctionValue (Ptr 1 0) (Ptr 2 0) (Ptr 3 0)) = Ret m'.
Proof.
  eexists. split; [vm_compute; reflexivity|].
  apply (do_call_idempotent erf_sign fill_debug host_mem).
  - intros q Hq Hr. apply list_elem_of_singleton in Hq as ->.
    rewrite reads_GetFunctionValue in Hr.
    repeat (apply elem_of_cons in Hr as [Hr|Hr]; [discriminate|]). inversion Hr.
  - vm_compute. reflexivity.
Defined.

(** With [y = x] the second call does not repeat the first: it reads the
    2.0 the first one stored in [x[0]] and stores 3.0. *)
Example GetFunctionValue_aliased_twice :
  exists m1 m2,
    GetFunctionValue erf_sign host_mem (Ptr 1 0) (Ptr 2 0) (Ptr 1 0) = Ret m1 /\
    GetFunctionValue erf_sign m1 (Ptr 1 0) (Ptr 2 0) (Ptr 1 0) = Ret m2 /\
    cell m1 (Ptr 1 0) = Some (Vdouble B64.two) /\
    cell m2 (Ptr 1 0) = Some (Vdouble (B64.lit 3 0)).
Proof.
  do 2 eexists. split; [vm_compute; reflexivity|].
  split; [vm_compute; reflexivity|]. split; vm_compute; reflexivity.
Qed.

(** X5.  Two calls commute when neither may write a cell the other reads
    or may write, the 255 bytes that [GetFunctionName] declares counted in
    full: if the session [c1; c2] returns, so does [c2; c1], with the same
    memory.  The calls share nothing but the memory handed to them. *)
Theorem calls_commute (erf : double -> double) (fill : fill_policy) (m m' : mem)
    (c1 c2 : call) :
  (forall q, q ∈ writes c1 -> (q ∉ writes c2) /\ (q ∉ reads c2)) ->
  (forall q, q ∈ writes c2 -> q ∉ reads c1) ->
  run erf fill m [c1; c2] = Ret m' ->
  run erf fill m [c2; c1] = Ret m'.
Proof.
  intros H12 H21 Hrun. cbn [run] in *.
  destruct (do_call erf fill m c1) as [m1|] eqn:Hc1; [|discriminate].
  cbn in Hrun.
  destruct (do_call erf fill m1 c2) as [m12|] eqn:Hc2; [|discriminate].
  cbn in Hrun. injection Hrun as <-.
  pose proof (do_call_same_except erf fill m m1 c1 Hc1) as (D1 & C1 & E1).
  pose proof (do_call_same_except erf fill m1 m12 c2 Hc2) as (D2 & C2 & E2).
  (* c2 first *)
  destruct (do_call_agree erf fill m1 m m12 c2 Hc2) as (m2 & Hc2' & _ & J2).
  { intros q Hq. symmetry. apply E1. intros Hw. by apply (H12 q Hw). }
  { intros q. symmetry. apply C1. }
  pose proof (do_call_same_except erf fill m m2 c2 Hc2') as (D2' & C2' & E2').
  (* then c1 *)
  destruct (do_call_agree erf fill m m2 m1 c1 Hc1) as (m21 & Hc1' & _ & J1).
  { intros q Hq. apply E2'. intros Hw. by apply (H21 q Hw). }
  { exact C2'. }
  pose proof (do_call_same_except erf fill m2 m21 c1 Hc1') as (D1' & C1' & E1').
  rewrite Hc2'. cbn. rewrite Hc1'. cbn. f_equal.
  apply mem_ext; [congruence|].
  intros q. destruct (decide (q ∈ writes c1)) as [Hq1|Hq1].
  - destruct (H12 q Hq1) as [Hq2 _].
    rewrite (E2 q Hq2). destruct (J1 q) as [He|[Ha Hb]]; [exact He|].
    rewrite Hb, (E2' q Hq2). by symmetry.
  - rewrite (E1' q Hq1). destruct (J2 q) as [He|[Ha Hb]]; [exact He|].
    rewrite Hb, Ha. symmetry. by apply E1.
Qed.

Lemma calls_commute_witness :
  exists m',
    run erf_sign fill_debug host_mem
      [CallGetFunctionValue (Ptr 1 0) (Ptr 2 0) (Ptr 3 0); CallGetNumParameters (Ptr 4 0)]
      = Ret m' /\
    run erf_sign fill_debug host_mem
      [CallGetNumParameters (Ptr 4 0); CallGetFunctionValue (Ptr 1 0) (Ptr 2 0) (Ptr 3 0)]
      = Ret m'.
Proof.
  eexists. split; [vm_compute; reflexivity|].
  apply (calls_commute erf_sign fill_debug host_mem).
  - intros q Hq. apply list_elem_of_singleton in Hq as ->. split; intros Hr.
    + apply list_elem_of_singleton in Hr. discriminate.
    + inversion Hr.
  - intros q Hq Hr. apply list_elem_of_singleton in Hq as ->.
    rewrite reads_GetFunctionValue in Hr.
    repeat (apply elem_of_cons in Hr as [Hr|Hr]; [discriminate|]). inversion Hr.
  - vm_compute. reflexivity.
Defined.

(** X6.  The name outlives the session: once [GetFunctionName] has
    returned, the buffer still reads as the name after any further calls
    that return and may write none of its 70 bytes, a later
    [GetFunctionName] counted with all the 255 bytes it declares. *)
Theorem name_survives (erf : double -> double) (fill : fill_policy) (m m1 m2 : mem)
    (name : ptr) (cs : list call) :
  GetFunctionName fill m name = Ret m1 ->
  run erf fill m1 cs = Ret m2 ->
  (forall q, q ∈ span name 70 -> q ∉ footprint cs) ->
  c_string m2 name = Some function_name.
Proof.
  intros Hname Hrun Hdisj.
  pose proof (run_frame erf fill cs m1 m2 Hrun) as (_ & _ & Hf).
  apply GetFunctionName_Ret in Hname as (Hcells & _ & _).
  apply c_string_cells; [|exact function_name_no_NUL].
  intros j c Hj. rewrite Hf.
  - by apply Hcells.
  - apply Hdisj, elem_of_span. exists j. split; [done|].
    apply lookup_lt_Some in Hj. by rewrite name_chars_length in Hj.
Qed.

Lemma name_survives_witness :
  exists m1 m2,
    GetFunctionName fill_debug host_mem (Ptr 5 0) = Ret m1 /\
    run erf_sign fill_debug m1
      [CallGetNumParameters (Ptr 4 0);
       CallGetFunctionValue (Ptr 1 0) (Ptr 2 0) (Ptr 3 0)] = Ret m2 /\
    c_string m2 (Ptr 5 0) = Some function_name.
Proof.
  do 2 eexists. split; [vm_compute; reflexivity|].
  split; [vm_compute; reflexivity|].
  eapply (name_survives erf_sign fill_debug host_mem _ _ (Ptr 5 0)
            [CallGetNumParameters (Ptr 4 0);
             CallGetFunctionValue (Ptr 1 0) (Ptr 2 0) (Ptr 3 0)]).
  - vm_compute. reflexivity.
  - vm_compute. reflexivity.
  - intros q Hq Hf. apply elem_of_span in Hq as (j & -> & _).
    repeat (apply elem_of_cons in Hf as [Hf|Hf]; [discriminate|]). inversion Hf.
Defined.

(** * The value at the edges of the format *)

(** ** NaN in, NaN out *)

Lemma sub_nan_l (v : double) : (S754_nan - v)%D = S754_nan.
Proof. by destruct v. Qed.

Lemma sub_nan_r (v : double) : (v - S754_nan)%D = S754_nan.
Proof. by destruct v. Qed.

Lemma div_nan_l (v : double) : (S754_nan / v)%D = S754_nan.
Proof. by destruct v. Qed.

Lemma div_nan_r (v : double) : (v / S754_nan)%D = S754_nan.
Proof. by destruct v. Qed.

Lemma mul_nan_l (v : double) : (S754_nan * v)%D = S754_nan.
Proof. by destruct v. Qed.

Lemma add_nan_l (v : double) : (S754_nan + v)%D = S754_nan.
Proof. by destruct v. Qed.

Lemma gaussian_cdf_nan_input (erf : double -> double) (x0 a0 a1 a2 a3 : double) :
  erf B64.nan = B64.nan ->
  B64.nan ∈ [x0; a0; a1; a2; a3] ->
  gaussian_cdf erf x0 a0 a1 a2 a3 = B64.nan.
Proof.
  unfold B64.nan. intros Herf Hin. unfold gaussian_cdf.
  repeat (apply elem_of_cons in Hin as [<-|Hin]); [| | | | |inversion Hin].
  - by rewrite sub_nan_l, div_nan_l, Herf, add_nan_r, mul_nan_r, add_nan_l.
  - by rewrite mul_nan_r, mul_nan_l, add_nan_l.
  - by rewrite sub_nan_r, div_nan_l, Herf, add_nan_r, mul_nan_r, add_nan_l.
  - by rewrite mul_nan_l, div_nan_r, Herf, add_nan_r, mul_nan_r, add_nan_l.
  - by rewrite add_nan_r.
Qed.

(** X7.  No NaN is lost: when [x[0]] or any of [a[0..3]] is NaN, and
    [erf] of NaN is NaN as Annex F has it, the value stored in [*y] is
    NaN. *)
Theorem GetFunctionValue_nan (erf : double -> double) (m : mem) (x a y : ptr)
    (x0 a0 a1 a2 a3 : double) :
  erf B64.nan = B64.nan ->
  reads_doubles m x [x0] ->
  reads_doubles m a [a0; a1; a2; a3] ->
  is_Some (cell m y) ->
  B64.nan ∈ [x0; a0; a1; a2; a3] ->
  exists m',
    GetFunctionValue erf m x a y = Ret m' /\
    cell m' y = Some (Vdouble B64.nan).
Proof.
  intros Herf Hx Ha Hy Hin.
  destruct (GetFunctionValue_formula_core erf m x a y _ _ _ _ _ Hx Ha Hy)
    as (m' & Hret & Hcell).
  exists m'. split; [exact Hret|].
  by rewrite Hcell, gaussian_cdf_nan_input.
Qed.

Lemma GetFunctionValue_nan_witness :
  exists m',
    GetFunctionValue erf_sign host_mem_long (Ptr 7 1) (Ptr 8 1) (Ptr 9 1) = Ret m' /\
    cell m' (Ptr 9 1) = Some (Vdouble B64.nan).
Proof.
  apply (GetFunctionValue_nan erf_sign host_mem_long (Ptr 7 1) (Ptr 8 1) (Ptr 9 1)
           B64.zero B64.zero B64.one B64.one B64.nan).
  - reflexivity.
  - intros [|k] d; simpl; [intros [= <-]; reflexivity | discriminate].
  - intros [|[|[|[|k]]]] d; simpl; try discriminate; intros [= <-]; reflexivity.
  - vm_compute. eauto.
  - repeat constructor.
Defined.

(** ** The plateaus *)

(** The value of the formula at [x = +inf] and [x = -inf], for a finite
    [mu] and a sigma whose product with [sqrt(2)] is finite. *)
Lemma gaussian_cdf_at_infinity (erf : double -> double) (sx : bool)
    (a0 a1 a2 a3 : double) :
  erf_contract erf ->
  finite_double a1 -> finite_double a2 ->
  B64.is_zero a2 = false ->
  B64.is_finite (a2 * B64.sqrt B64.two)%D = true ->
  gaussian_cdf erf (S754_infinity sx) a0 a1 a2 a3 =
  (B64.half * a0 * (if xorb sx (B64.sign a2) then B64.zero else B64.two) + a3)%D.
Proof.
  intros [_ Hinf _] [_ Hf1] Ha2 Hz Hfd.
  destruct (mul_sqrt2_divisor a2 Ha2 Hz) as (_ & _ & Hzd & Hsd).
  unfold gaussian_cdf.
  assert ((S754_infinity sx - a1)%D = S754_infinity sx) as ->
    by (destruct a1; try discriminate; reflexivity).
  destruct (a2 * B64.sqrt B64.two)%D as [sd|sd| |sd md ed]; try discriminate.
  cbn [B64.sign] in Hsd. subst sd.
  cbn [B64.div SFdiv]. rewrite Hinf.
  destruct (xorb sx (B64.sign a2)); by rewrite ?one_plus_one, ?one_minus_one.
Qed.

(** X8.  At [x[0] = +inf] or [-inf], with [mu] finite and sigma finite,
    not zero and short of overflowing [sigma * sqrt(2)], the value stored
    is [0.5 * a[0] * 2 + a[3]] on the side sigma points to and
    [0.5 * a[0] * 0 + a[3]] on the other: [erf] has reached 1 or -1. *)
Theorem GetFunctionValue_at_infinite_x (erf : double -> double) (m : mem) (x a y : ptr)
    (sx : bool) (amplitude mu sigma offset : double) :
  erf_contract erf ->
  finite_double mu -> finite_double sigma ->
  B64.is_zero sigma = false ->
  B64.is_finite (sigma * B64.sqrt B64.two)%D = true ->
  reads_doubles m x [S754_infinity sx] ->
  reads_doubles m a [amplitude; mu; sigma; offset] ->
  is_Some (cell m y) ->
  exists m',
    GetFunctionValue erf m x a y = Ret m' /\
    cell m' y =
    Some (Vdouble (B64.half * amplitude *
                   (if xorb sx (B64.sign sigma) then B64.zero else B64.two) + offset)%D).
Proof.
  intros Hc Hmu Hs Hz Hfd Hx Ha Hy.
  destruct (GetFunctionValue_formula_core erf m x a y _ _ _ _ _ Hx Ha Hy)
    as (m' & Hret & Hcell).
  exists m'. split; [exact Hret|].
  by rewrite Hcell, gaussian_cdf_at_infinity.
Qed.

Lemma GetFunctionValue_at_infinite_x_witness :
  exists m',
    GetFunctionValue erf_sign host_mem_long (Ptr 7 2) (Ptr 8 0) (Ptr 9 0) = Ret m' /\
    cell m' (Ptr 9 0) =
    Some (Vdouble (B64.half * B64.two *
                   (if xorb false (B64.sign B64.one) then B64.zero else B64.two)
                   + B64.one)%D).
Proof.
  apply (GetFunctionValue_at_infinite_x erf_sign host_mem_long (Ptr 7 2) (Ptr 8 0) (Ptr 9 0)
           false B64.two B64.zero B64.one B64.one).
  - exact erf_sign_contract.
  - split; reflexivity.
  - split; reflexivity.
  - reflexivity.
  - vm_compute. reflexivity.
  - intros [|k] d; simpl; [intros [= <-]; reflexivity | discriminate].
  - intros [|[|[|[|k]]]] d; simpl; try discriminate; intros [= <-]; reflexivity.
  - vm_compute. eauto.
Defined.

Lemma twice_min_normal_is :
  twice_min_normal = S754_finite false 4503599627370496 (-1073).
Proof. reflexivity. Qed.

(** Halving and doubling again gives back every double from [2^-1021]
    up: the half is a normal double, so nothing is rounded. *)
Lemma mul_half_two (v : double) :
  B64.valid v = true -> B64.leb twice_min_normal v = true ->
  (B64.half * v * B64.two)%D = v.
Proof.
  intros Hv Hle. rewrite twice_min_normal_is in Hle.
  destruct v as [s|s| |s m e]; try discriminate.
  - by destruct s.
  - destruct s; [discriminate|].
    assert (-1073 <= e) as He.
    { unfold B64.leb, SFleb in Hle. cbn [SFcompare] in Hle.
      destruct (Z.compare_spec (-1073) e); [lia | lia | discriminate]. }
    pose proof (valid_finite_inv _ _ _ Hv) as (Hr & Hd & Hn).
    assert (B64.valid (S754_finite false m (e - 1)) = true) as Hv'
      by (apply valid_finite_intro; lia).
    rewrite half_is, two_is.
    assert ((S754_finite false 4503599627370496 (-53) * S754_finite false m e)%D
            = S754_finite false m (e - 1)) as ->.
    { rewrite mul_finite_rnd by done. cbn [xorb].
      rewrite <- (rnd_representable false m (e - 1) Hv'). f_equal.
      change (Z.pos 4503599627370496) with (2 ^ 52).
      replace (e - 1 + 2148) with (52 + (-53 + e + 2148)) by lia.
      rewrite (pow2_split 52 (-53 + e + 2148)) by lia. ring. }
    rewrite mul_finite_rnd by done. cbn [xorb].
    rewrite <- (rnd_representable false m e Hv). f_equal.
    change (Z.pos 4503599627370496) with (2 ^ 52).
    replace (e + 2148) with (52 + (e - 1 + -51 + 2148)) by lia.
    rewrite (pow2_split 52 (e - 1 + -51 + 2148)) by lia. ring.
Qed.

(** A product with zero of a finite double that is not negative. *)
Lemma mul_zero_r (c : double) :
  B64.is_finite c = true -> B64.sign c = false -> (c * B64.zero)%D = B64.zero.
Proof.
  destruct c as [s|s| |s m e]; try discriminate; cbn [B64.sign]; by intros _ ->.
Qed.

(** Zero added to a number: that number, up to the sign of a zero. *)
Lemma add_zero_l (v : double) :
  B64.is_nan v = false ->
  (B64.zero + v)%D = v \/ (B64.zero + v)%D = B64.zero /\ v = S754_zero true.
Proof. destruct v as [[]|[]| |[] m e]; try discriminate; intros _; auto. Qed.

Lemma compare_refl (v : double) :
  B64.valid v = true -> B64.is_nan v = false -> SFcompare v v = Some Eq.
Proof. intros Hv Hn. by rewrite compare_ord, Z.compare_refl. Qed.

Lemma leb_zero_sign (s : bool) (v : double) :
  B64.leb (S754_zero s) v = B64.leb B64.zero v.
Proof. by destruct v. Qed.

(** X9.  The plateaus are exact.  With an [erf] as Annex F has it, a
    finite amplitude of at least [2^-1021] (half of it is then a normal
    double), [mu] finite, sigma finite, not zero and short of overflowing
    [sigma * sqrt(2)], and an offset that is not NaN: at an infinite
    [x[0]] on the side sigma points to, [*y] is [amplitude + offset] to
    the last bit; on the other side it compares equal to [offset] (it is
    [offset], or [+0.0] for an offset of [-0.0]). *)
Theorem GetFunctionValue_plateaus (erf : double -> double) (m : mem) (x a y : ptr)
    (sx : bool) (amplitude mu sigma offset : double) :
  erf_contract erf ->
  finite_double amplitude -> finite_double mu -> finite_double sigma ->
  B64.valid offset = true -> B64.is_nan offset = false ->
  B64.leb twice_min_normal amplitude = true ->
  B64.is_zero sigma = false ->
  B64.is_finite (sigma * B64.sqrt B64.two)%D = true ->
  reads_doubles m x [S754_infinity sx] ->
  reads_doubles m a [amplitude; mu; sigma; offset] ->
  is_Some (cell m y) ->
  exists m' v,
    GetFunctionValue erf m x a y = Ret m' /\
    cell m' y = Some (Vdouble v) /\
    if xorb sx (B64.sign sigma)
    then SFeqb v offset = true
    else v = (amplitude + offset)%D.
Proof.
  intros Hc [Hva Hfa] Hmu Hs Hvo Hno Hbig Hz Hfd Hx Ha Hy.
  destruct (GetFunctionValue_formula_core erf m x a y _ _ _ _ _ Hx Ha Hy)
    as (m' & Hret & Hcell).
  exists m', (gaussian_cdf erf (S754_infinity sx) amplitude mu sigma offset).
  split; [exact Hret|]. split; [exact Hcell|].
  rewrite gaussian_cdf_at_infinity by done.
  destruct (xorb sx (B64.sign sigma)).
  - assert (B64.ltb B64.zero amplitude = true) as Hpos.
    { rewrite twice_min_normal_is in Hbig.
      destruct amplitude as [[]|[]| |[] ma ea]; try discriminate; reflexivity. }
    destruct (mul_half_positive amplitude (conj Hva Hfa) Hpos) as (_ & Hfc & Hsc).
    rewrite mul_zero_r by done. unfold SFeqb.
    destruct (add_zero_l offset Hno) as [->|[-> ->]]; [|reflexivity].
    by rewrite compare_refl.
  - by rewrite mul_half_two.
Qed.

Lemma GetFunctionValue_plateaus_witness :
  exists m' v,
    GetFunctionValue erf_sign host_mem_long (Ptr 7 2) (Ptr 8 0) (Ptr 9 0) = Ret m' /\
    cell m' (Ptr 9 0) = Some (Vdouble v) /\
    if xorb false (B64.sign B64.one)
    then SFeqb v B64.one = true
    else v = (B64.two + B64.one)%D.
Proof.
  apply (GetFunctionValue_plateaus erf_sign host_mem_long (Ptr 7 2) (Ptr 8 0) (Ptr 9 0)
           false B64.two B64.zero B64.one B64.one).
  - exact erf_sign_contract.
  - split; reflexivity.
  - split; reflexivity.
  - split; reflexivity.
  - reflexivity.
  - reflexivity.
  - vm_compute. reflexivity.
  - reflexivity.
  - vm_compute. reflexivity.
  - intros [|k] d; simpl; [intros [= <-]; reflexivity | discriminate].
  - intros [|[|[|[|k]]]] d; simpl; try discriminate; intros [= <-]; reflexivity.
  - vm_compute. eauto.
Defined.

(** ** A sigma of infinity *)

Lemma gaussian_cdf_sigma_infinite (erf : double -> double) (s : bool)
    (x0 a0 a1 a3 : double) :
  erf_contract erf ->
  B64.valid a0 = true ->
  B64.is_finite (x0 - a1)%D = true ->
  gaussian_cdf erf x0 a0 a1 (S754_infinity s) a3 = (a3 + a0 / B64.two)%D.
Proof.
  intros [Hzero _ _] Hva Hfn. unfold gaussian_cdf.
  assert ((S754_infinity s * B64.sqrt B64.two)%D = S754_infinity s) as ->
    by (rewrite sqrt2_is; by destruct s).
  assert (exists s', ((x0 - a1) / S754_infinity s)%D = S754_zero s') as [s' ->]
    by (destruct (x0 - a1)%D; try discriminate; eexists; reflexivity).
  rewrite Hzero, add_one_zero, mul_one_r by (by apply mul_half_valid).
  rewrite mul_half_div_two by done. apply add_comm.
Qed.

(** X10.  With sigma [+inf] or [-inf] the step is flat: wherever
    [x[0] - a[1]] is finite, the value stored is [offset + amplitude/2],
    the value at [x = mu]. *)
Theorem GetFunctionValue_sigma_infinite (erf : double -> double) (m : mem) (x a y : ptr)
    (s : bool) (x0 amplitude mu offset : double) :
  erf_contract erf ->
  B64.valid amplitude = true ->
  B64.is_finite (x0 - mu)%D = true ->
  reads_doubles m x [x0] ->
  reads_doubles m a [amplitude; mu; S754_infinity s; offset] ->
  is_Some (cell m y) ->
  exists m',
    GetFunctionValue erf m x a y = Ret m' /\
    cell m' y = Some (Vdouble (offset + amplitude / B64.two)%D).
Proof.
  intros Hc Hva Hfn Hx Ha Hy.
  destruct (GetFunctionValue_formula_core erf m x a y _ _ _ _ _ Hx Ha Hy)
    as (m' & Hret & Hcell).
  exists m'. split; [exact Hret|].
  by rewrite Hcell, gaussian_cdf_sigma_infinite.
Qed.

Lemma GetFunctionValue_sigma_infinite_witness :
  exists m',
    GetFunctionValue erf_sign host_mem_flat (Ptr 1 0) (Ptr 2 0) (Ptr 3 0) = Ret m' /\
    cell m' (Ptr 3 0) = Some (Vdouble (B64.one + B64.two / B64.two)%D).
Proof.
  apply (GetFunctionValue_sigma_infinite erf_sign host_mem_flat
           (Ptr 1 0) (Ptr 2 0) (Ptr 3 0) false B64.one B64.two B64.zero B64.one).
  - exact erf_sign_contract.
  - reflexivity.
  - vm_compute. reflexivity.
  - intros [|k] d; simpl; [intros [= <-]; reflexivity | discriminate].
  - intros [|[|[|[|k]]]] d; simpl; try discriminate; intros [= <-]; reflexivity.
  - vm_compute. eauto.
Defined.

(** ** Between the plateaus *)

Lemma ord_bounds (v : double) :
  B64.valid v = true -> B64.is_nan v = false -> - ord_inf <= ord v <= ord_inf.
Proof.
  intros Hv Hn. pose proof ord_inf_pos.
  destruct (not_nan_cases v Hn) as [Hf|[s ->]].
  - pose proof (ord_finite_bound v Hv Hf). lia.
  - rewrite ord_infinity. destruct s; cbn [cond_Zopp]; lia.
Qed.

Lemma gaussian_cdf_between (erf : double -> double)
    (x0 amplitude mu sigma offset : double) :
  erf_contract erf -> erf_monotone erf ->
  finite_double x0 -> finite_double amplitude -> finite_double mu ->
  finite_double sigma -> finite_double offset ->
  B64.ltb B64.zero amplitude = true ->
  B64.is_zero sigma = false ->
  B64.is_nan (gaussian_cdf erf x0 amplitude mu sigma offset) = false ->
  B64.leb offset (gaussian_cdf erf x0 amplitude mu sigma offset) = true /\
  B64.leb (gaussian_cdf erf x0 amplitude mu sigma offset)
          (B64.half * amplitude * B64.two + offset)%D = true.
Proof.
  intros Hc Hm [Hvx Hfx] Ha [Hvmu Hfmu] Hs [Hvo Hfo] Hpos Hs0 Hy.
  destruct (mul_half_positive amplitude Ha Hpos) as (Hvc & Hfc & Hsc).
  destruct (mul_sqrt2_divisor sigma Hs Hs0) as (Hvd & Hnd & Hzd & _).
  destruct (sub_finite_ord x0 mu Hvx Hvmu Hfx Hfmu) as (_ & Hvn & Hnn).
  (* the quotient is a number, since the value is *)
  assert (B64.is_nan ((x0 - mu) / (sigma * B64.sqrt B64.two))%D = false) as Hnq.
  { destruct (B64.is_nan ((x0 - mu) / (sigma * B64.sqrt B64.two))%D) eqn:Hq; [|reflexivity].
    rewrite (gaussian_cdf_nan erf x0 amplitude mu sigma offset Hc Hq) in Hy. discriminate. }
  assert (B64.valid ((x0 - mu) / (sigma * B64.sqrt B64.two))%D = true) as Hvq.
  { destruct (not_nan_cases _ Hnn) as [Hfn|[sn Hn]],
      (not_nan_cases _ Hnd) as [Hfd|[sd Hd]].
    - by apply div_number; auto.
    - by apply div_number; auto.
    - by apply div_number; auto.
    - rewrite Hn, Hd in Hnq. discriminate. }
  unfold gaussian_cdf in *.
  set (q := ((x0 - mu) / (sigma * B64.sqrt B64.two))%D) in *.
  destruct (ord_bounds q Hvq Hnq) as [Hlo Hhi].
  pose proof (erf_inf erf Hc) as Hinf.
  (* the two plateaus are numbers *)
  assert (B64.is_nan (B64.half * amplitude * B64.zero + offset)%D = false) as Hy0.
  { rewrite mul_zero_r by done. by destruct offset as [[]|[]| |[] mo eo]. }
  destruct (mul_finite_ord (B64.half * amplitude)%D B64.two Hvc eq_refl Hfc eq_refl)
    as (_ & Hvz & Hnz).
  destruct (add_mono_l _ _ offset Hvz Hvz Hvo Hnz Hnz Hfo (Z.le_refl _))
    as (_ & [_ Hy2] & _).
  split.
  - pose proof (tail_monotone erf (B64.half * amplitude)%D offset (S754_infinity true) q
                  Hm Hvc Hfc Hsc (conj Hvo Hfo) eq_refl Hvq eq_refl Hnq) as Ht.
    rewrite Hinf, one_minus_one in Ht.
    specialize (Ht ltac:(rewrite ord_infinity; cbn [cond_Zopp]; lia) Hy0 Hy).
    rewrite mul_zero_r in Ht by done.
    assert (B64.is_nan offset = false) as Hno by (by destruct offset).
    destruct (add_zero_l offset Hno) as [Heq|[Heq ->]]; rewrite Heq in Ht.
    + exact Ht.
    + by rewrite leb_zero_sign.
  - pose proof (tail_monotone erf (B64.half * amplitude)%D offset q (S754_infinity false)
                  Hm Hvc Hfc Hsc (conj Hvo Hfo) Hvq eq_refl Hnq eq_refl) as Ht.
    rewrite Hinf, one_plus_one in Ht.
    apply Ht; [rewrite ord_infinity; cbn [cond_Zopp]; lia | exact Hy | exact Hy2].
Qed.

(** X11.  The value never leaves the band between the plateaus.  For
    finite [x[0]], amplitude > 0, [mu], sigma other than zero and offset,
    and an [erf] that never decreases, a value stored that is a number is
    at least [offset] and at most [0.5 * amplitude * 2 + offset]. *)
Theorem GetFunctionValue_between_plateaus (erf : double -> double) (m : mem) (x a y : ptr)
    (x0 amplitude mu sigma offset : double) :
  erf_contract erf -> erf_monotone erf ->
  finite_double x0 -> finite_double amplitude -> finite_double mu ->
  finite_double sigma -> finite_double offset ->
  B64.ltb B64.zero amplitude = true ->
  B64.is_zero sigma = false ->
  reads_doubles m x [x0] ->
  reads_doubles m a [amplitude; mu; sigma; offset] ->
  is_Some (cell m y) ->
  exists m' v,
    GetFunctionValue erf m x a y = Ret m' /\
    cell m' y = Some (Vdouble v) /\
    (B64.is_nan v = false ->
     B64.leb offset v = true /\
     B64.leb v (B64.half * amplitude * B64.two + offset)%D = true).
Proof.
  intros Hc Hm Hx0 Hamp Hmu Hs Ho Hpos Hs0 Hx Ha Hy.
  destruct (GetFunctionValue_formula_core erf m x a y _ _ _ _ _ Hx Ha Hy)
    as (m' & Hret & Hcell).
  exists m', (gaussian_cdf erf x0 amplitude mu sigma offset).
  split; [exact Hret|]. split; [exact Hcell|].
  intros Hn. by apply gaussian_cdf_between.
Qed.

Lemma GetFunctionValue_between_plateaus_witness :
  exists m' v,
    GetFunctionValue erf_sign host_mem_x1 (Ptr 1 0) (Ptr 2 0) (Ptr 3 0) = Ret m' /\
    cell m' (Ptr 3 0) = Some (Vdouble v) /\
    (B64.is_nan v = false ->
     B64.leb B64.one v = true /\
     B64.leb v (B64.half * B64.two * B64.two + B64.one)%D = true).
Proof.
  apply (GetFunctionValue_between_plateaus erf_sign host_mem_x1
           (Ptr 1 0) (Ptr 2 0) (Ptr 3 0) B64.one B64.two B64.zero B64.one B64.one).
  - exact erf_sign_contract.
  - exact erf_sign_monotone.
  - split; reflexivity.
  - split; reflexivity.
  - split; reflexivity.
  - split; reflexivity.
  - split; reflexivity.
  - reflexivity.
  - reflexivity.
  - intros [|k] d; simpl; [intros [= <-]; reflexivity | discriminate].
  - intros [|[|[|[|k]]]] d; simpl; try discriminate; intros [= <-]; reflexivity.
  - vm_compute. eauto.
Defined.

(** ** A negative amplitude *)

Lemma rnd_opp (s : bool) (N D : Z) : SFopp (rnd s N D) = rnd (negb s) N D.
Proof.
  unfold rnd, encode. destruct (_ =? 0); [reflexivity|].
  destruct (_ =? 2 ^ 53); destruct (_ <=? 971); reflexivity.
Qed.

(** The sign comes out of a product: rounding is symmetric. *)
Lemma mul_opp_l (c w : double) :
  B64.valid c = true -> B64.valid w = true ->
  (SFopp c * w)%D = SFopp (c * w)%D.
Proof.
  intros Hc Hw.
  destruct c as [sc|sc| |sc mc ec], w as [sw|sw| |sw mw ew];
    try reflexivity; try (by destruct sc, sw).
  cbn [SFopp]. rewrite !mul_finite_rnd by done. rewrite rnd_opp.
  by destruct sc, sw.
Qed.

Lemma mul_opp_r (c w : double) :
  B64.valid c = true -> B64.valid w = true ->
  (c * SFopp w)%D = SFopp (c * w)%D.
Proof.
  intros Hc Hw.
  destruct c as [sc|sc| |sc mc ec], w as [sw|sw| |sw mw ew];
    try reflexivity; try (by destruct sc, sw).
  cbn [SFopp]. rewrite !mul_finite_rnd by done. rewrite rnd_opp.
  by destruct sc, sw.
Qed.

Lemma is_nan_opp (v : double) : B64.is_nan (SFopp v) = B64.is_nan v.
Proof. by destruct v. Qed.

(** From the quotient on, under a factor that is not positive, every
    step but the product keeps the order and the product reverses it. *)
Lemma tail_antitone (erf : double -> double) (c a3 q1 q2 : double) :
  erf_monotone erf ->
  B64.valid c = true -> B64.is_finite c = true -> B64.sign c = false ->
  finite_double a3 ->
  B64.valid q1 = true -> B64.valid q2 = true ->
  B64.is_nan q1 = false -> B64.is_nan q2 = false ->
  ord q1 <= ord q2 ->
  B64.is_nan (SFopp c * (B64.one + erf q1) + a3)%D = false ->
  B64.is_nan (SFopp c * (B64.one + erf q2) + a3)%D = false ->
  B64.leb (SFopp c * (B64.one + erf q2) + a3)%D
          (SFopp c * (B64.one + erf q1) + a3)%D = true.
Proof.
  intros [Hev Hem] Hvc Hfc Hsc [Hva Hfa] Hv1 Hv2 Hn1 Hn2 Hle Hy1 Hy2.
  (* erf *)
  assert (B64.leb q1 q2 = true) as Hq by (by apply leb_ord).
  pose proof (Hem q1 q2 Hv1 Hv2 Hq) as He.
  destruct (leb_true_not_nan _ _ He) as [Hen1 Hen2].
  pose proof (Hev q1 Hv1) as Hev1. pose proof (Hev q2 Hv2) as Hev2.
  apply leb_ord in He; try done.
  (* 1 + erf *)
  rewrite !(add_comm B64.one) in *.
  destruct (add_mono_l (erf q1) (erf q2) B64.one Hev1 Hev2 eq_refl Hen1 Hen2 eq_refl He)
    as (Hw & [Hwv1 Hwn1] & [Hwv2 Hwn2]).
  (* - (c * (1 + erf)) *)
  rewrite !mul_opp_l in * by done.
  assert (forall z, B64.is_nan (SFopp z + a3)%D = false -> B64.is_nan z = false) as Hback
    by (intros z; destruct z; try done).
  destruct (mul_mono_r c _ _ Hvc Hwv1 Hwv2 Hfc Hsc Hwn1 Hwn2 (Hback _ Hy1) (Hback _ Hy2) Hw)
    as (Hz & Hzv1 & Hzv2).
  (* ... + offset *)
  destruct (add_mono_l (SFopp (c * (erf q2 + B64.one))%D) (SFopp (c * (erf q1 + B64.one))%D) a3)
    as (Hy & [Hyv2 _] & [Hyv1 _]);
    rewrite ?valid_opp, ?is_nan_opp, ?ord_opp; try done;
    try (by apply Hback); try lia.
  by apply leb_ord.
Qed.

(** With a negative amplitude the formula falls where it rose: in [x] for
    a positive sigma, and it rises for a negative one. *)
Lemma gaussian_cdf_antitone (erf : double -> double)
    (x1 x2 amplitude mu sigma offset : double) :
  erf_contract erf -> erf_monotone erf ->
  finite_double x1 -> finite_double x2 ->
  finite_double amplitude -> finite_double mu ->
  finite_double sigma -> finite_double offset ->
  B64.ltb amplitude B64.zero = true ->
  B64.is_zero sigma = false ->
  B64.leb x1 x2 = true ->
  B64.is_nan (gaussian_cdf erf x1 amplitude mu sigma offset) = false ->
  B64.is_nan (gaussian_cdf erf x2 amplitude mu sigma offset) = false ->
  if B64.sign sigma
  then B64.leb (gaussian_cdf erf x1 amplitude mu sigma offset)
               (gaussian_cdf erf x2 amplitude mu sigma offset) = true
  else B64.leb (gaussian_cdf erf x2 amplitude mu sigma offset)
               (gaussian_cdf erf x1 amplitude mu sigma offset) = true.
Proof.
  intros Hc Hm [Hvx1 Hfx1] [Hvx2 Hfx2] [Hva Hfa] [Hvmu Hfmu] Hs Ho Hneg Hs0 Hle Hy1 Hy2.
  (* 0.5 * amplitude = - (0.5 * |amplitude|) *)
  assert (exists c, (B64.half * amplitude)%D = SFopp c /\
                    B64.valid c = true /\ B64.is_finite c = true /\ B64.sign c = false)
    as (c & Hceq & Hvc & Hfc & Hsc).
  { destruct amplitude as [[]|[]| |[] ma ea]; try discriminate.
    exists (B64.half * S754_finite false ma ea)%D. split.
    - change (S754_finite true ma ea) with (SFopp (S754_finite false ma ea)).
      by apply mul_opp_r.
    - by apply mul_half_positive. }
  destruct (mul_sqrt2_divisor sigma Hs Hs0) as (Hvd & Hnd & Hzd & Hsd).
  (* the numerators *)
  destruct (sub_finite_ord x1 mu Hvx1 Hvmu Hfx1 Hfmu) as (Hn1 & Hvn1 & Hnn1).
  destruct (sub_finite_ord x2 mu Hvx2 Hvmu Hfx2 Hfmu) as (Hn2 & Hvn2 & Hnn2).
  assert (B64.is_nan x1 = false /\ B64.is_nan x2 = false) as [Hnx1 Hnx2]
    by (by apply leb_true_not_nan).
  apply leb_ord in Hle; try done.
  assert (ord (x1 - mu)%D <= ord (x2 - mu)%D) as Hnle
    by (rewrite Hn1, Hn2; apply signed_grid_mono; lia).
  (* the quotients are numbers, since the values are *)
  assert (forall x, B64.is_nan (gaussian_cdf erf x amplitude mu sigma offset) = false ->
            B64.is_nan ((x - mu) / (sigma * B64.sqrt B64.two))%D = false) as Hqn.
  { intros x Hy.
    destruct (B64.is_nan ((x - mu) / (sigma * B64.sqrt B64.two))%D) eqn:Hq; [|reflexivity].
    rewrite (gaussian_cdf_nan erf x amplitude mu sigma offset Hc Hq) in Hy. discriminate. }
  destruct (div_mono_l _ _ _ Hvn1 Hvn2 Hvd Hnn1 Hnn2 Hnd Hzd (Hqn x1 Hy1) (Hqn x2 Hy2) Hnle)
    as (Hq & Hvq1 & Hvq2).
  rewrite Hsd in Hq.
  pose proof (Hqn x1 Hy1) as Hq1. pose proof (Hqn x2 Hy2) as Hq2.
  unfold gaussian_cdf in *. rewrite Hceq in *.
  destruct (B64.sign sigma); by apply tail_antitone.
Qed.

(** X12.  With a negative finite amplitude the step is reversed.  For
    finite [mu], sigma other than zero and offset held fixed, an [erf]
    that never decreases, and finite [x1 <= x2]: both calls return, and
    if neither value stored is NaN the value at [x1] is at least the
    value at [x2] when sigma is positive and at most that value when
    sigma is negative. *)
Theorem GetFunctionValue_antitone (erf : double -> double)
    (m1 m2 : mem) (x1 a1 y1 x2 a2 y2 : ptr)
    (x1v x2v amplitude mu sigma offset : double) :
  erf_contract erf -> erf_monotone erf ->
  finite_double x1v -> finite_double x2v ->
  finite_double amplitude -> finite_double mu ->
  finite_double sigma -> finite_double offset ->
  B64.ltb amplitude B64.zero = true ->
  B64.is_zero sigma = false ->
  reads_doubles m1 x1 [x1v] -> reads_doubles m1 a1 [amplitude; mu; sigma; offset] ->
  reads_doubles m2 x2 [x2v] -> reads_doubles m2 a2 [amplitude; mu; sigma; offset] ->
  is_Some (cell m1 y1) -> is_Some (cell m2 y2) ->
  B64.leb x1v x2v = true ->
  exists m1' m2' v1 v2,
    GetFunctionValue erf m1 x1 a1 y1 = Ret m1' /\
    GetFunctionValue erf m2 x2 a2 y2 = Ret m2' /\
    cell m1' y1 = Some (Vdouble v1) /\
    cell m2' y2 = Some (Vdouble v2) /\
    (B64.is_nan v1 = false -> B64.is_nan v2 = false ->
     if B64.sign sigma then B64.leb v1 v2 = true else B64.leb v2 v1 = true).
Proof.
  intros Hc Hm Hx1 Hx2 Ha Hmu Hs Ho Hneg Hs0 Hr1 Hra1 Hr2 Hra2 Hy1 Hy2 Hle.
  destruct (GetFunctionValue_formula_core erf m1 x1 a1 y1 _ _ _ _ _ Hr1 Hra1 Hy1)
    as (m1' & Hret1 & Hcell1).
  destruct (GetFunctionValue_formula_core erf m2 x2 a2 y2 _ _ _ _ _ Hr2 Hra2 Hy2)
    as (m2' & Hret2 & Hcell2).
  exists m1', m2', (gaussian_cdf erf x1v amplitude mu sigma offset),
    (gaussian_cdf erf x2v amplitude mu sigma offset).
  repeat (split; [done|]).
  intros Hn1 Hn2. by apply gaussian_cdf_antitone.
Qed.

Lemma GetFunctionValue_antitone_witness :
  exists m1' m2' v1 v2,
    GetFunctionValue erf_sign host_mem_falling (Ptr 1 0) (Ptr 2 0) (Ptr 3 0) = Ret m1' /\
    GetFunctionValue erf_sign host_mem_falling (Ptr 1 1) (Ptr 2 0) (Ptr 3 1) = Ret m2' /\
    cell m1' (Ptr 3 0) = Some (Vdouble v1) /\
    cell m2' (Ptr 3 1) = Some (Vdouble v2) /\
    (B64.is_nan v1 = false -> B64.is_nan v2 = false ->
     if B64.sign B64.one then B64.leb v1 v2 = true else B64.leb v2 v1 = true).
Proof.
  apply (GetFunctionValue_antitone erf_sign host_mem_falling host_mem_falling
           (Ptr 1 0) (Ptr 2 0) (Ptr 3 0) (Ptr 1 1) (Ptr 2 0) (Ptr 3 1)
           B64.zero B64.one (SFopp B64.two) B64.zero B64.one B64.one).
  - exact erf_sign_contract.
  - exact erf_sign_monotone.
  - split; reflexivity.
  - split; reflexivity.
  - split; reflexivity.
  - split; reflexivity.
  - split; reflexivity.
  - split; reflexivity.
  - reflexivity.
  - reflexivity.
  - intros [|k] d; simpl; [intros [= <-]; reflexivity | discriminate].
  - intros [|[|[|[|k]]]] d; simpl; try discriminate; intros [= <-]; reflexivity.
  - intros [|k] d; simpl; [intros [= <-]; reflexivity | discriminate].
  - intros [|[|[|[|k]]]] d; simpl; try discriminate; intros [= <-]; reflexivity.
  - vm_compute. eauto.
  - vm_compute. eauto.
  - reflexivity.
Defined.
